(** * Codebase indexer: chunker, Merkle summary, indexer pipeline, retriever
    and benchmark loader, embedded from the TypeScript sources.

    Conventions of the embedding.
    - A JavaScript string is a Rocq [string]; one character stands for one
      UTF-16 code unit and for one hashed byte (ASCII source text).
    - Line numbers, indices and token counts are [nat]; the code only builds
      them from non-negative rows of the syntax tree.
    - A JavaScript [Map] or [Set] is an insertion-ordered association list
      ([JsMap], [JsSet]): the code iterates them and spreads them to arrays.
    - [crypto.createHash('sha256').update(s).digest('hex')] is [Sha256.hex],
      an executable SHA-256 on [N] words with the wrap-around written out. *)

From Stdlib Require Import List String Ascii Arith NArith ZArith Lia Bool.
From Stdlib Require Import Permutation Sorted DecimalString QArith.
Import ListNotations.

Close Scope Q_scope.

Set Warnings "-register-all".

Local Open Scope string_scope.
Local Open Scope list_scope.

(* ================================================================== *)
(** ** JavaScript strings and arrays *)
(* ================================================================== *)

Module Js.

(** [s.split(sep)] for a one-character separator. *)
Fixpoint split_go (sep : ascii) (s : string) (cur : string) : list string :=
  match s with
  | EmptyString => [cur]
  | String c rest =>
      if Ascii.eqb c sep then cur :: split_go sep rest ""
      else split_go sep rest (cur ++ String c "")
  end.

Definition split (sep : ascii) (s : string) : list string := split_go sep s "".

(** [s.split('')]: the code units, each as a string of length one. *)
Fixpoint chars (s : string) : list string :=
  match s with
  | EmptyString => []
  | String c rest => String c "" :: chars rest
  end.

(** [arr.join(sep)]. *)
Definition join (sep : string) (l : list string) : string := String.concat sep l.

(** [s.substring(a, b)]: both ends clamped to the length, swapped when
    [a > b]. *)
Definition substring (a b : nat) (s : string) : string :=
  let a' := Nat.min a (String.length s) in
  let b' := Nat.min b (String.length s) in
  let lo := Nat.min a' b' in
  let hi := Nat.max a' b' in
  String.substring lo (hi - lo) s.

(** [s.lastIndexOf(c)] for a one-character needle; [None] stands for -1. *)
Fixpoint lastIndexOf_go (c : ascii) (s : string) (i : nat) (found : option nat)
  : option nat :=
  match s with
  | EmptyString => found
  | String d rest =>
      lastIndexOf_go c rest (S i) (if Ascii.eqb d c then Some i else found)
  end.

Definition lastIndexOf (c : ascii) (s : string) : option nat :=
  lastIndexOf_go c s 0 None.

(** [s.endsWith(suffix)]. *)
Definition endsWith (suffix s : string) : bool :=
  let n := String.length s in
  let m := String.length suffix in
  (m <=? n)%nat && String.eqb (String.substring (n - m) m s) suffix.

(** [arr.slice(a, b)] for non-negative bounds. *)
Definition slice {A} (a b : nat) (l : list A) : list A :=
  firstn (b - a) (skipn a l).

(** [arr[i] = v] on an array of strings: in range it overwrites; past the
    end JavaScript extends the array with holes, which read as [undefined]
    and join as the empty string, so a hole is kept as [""]. *)
Definition set_index (i : nat) (v : string) (l : list string) : list string :=
  if (i <? List.length l)%nat then firstn i l ++ v :: skipn (S i) l
  else l ++ repeat "" (i - List.length l) ++ [v].

(** The default [Array.prototype.sort()] on strings: ascending by code
    unit. Written as an insertion sort; on a total order the sorted
    arrangement of a list is unique. *)
Fixpoint insert_sorted (x : string) (l : list string) : list string :=
  match l with
  | [] => [x]
  | y :: rest => if String.leb x y then x :: l else y :: insert_sorted x rest
  end.

Fixpoint sort (l : list string) : list string :=
  match l with
  | [] => []
  | x :: rest => insert_sorted x (sort rest)
  end.

(** [arr.sort((a, b) => key(b) - key(a))]: a stable sort, descending in
    [key]. [x] is placed after every element whose key is at least its
    own, so equal keys keep their order. *)
Fixpoint insert_desc {A} (key : A -> nat) (x : A) (l : list A) : list A :=
  match l with
  | [] => [x]
  | y :: rest =>
      if (key x <=? key y)%nat then y :: insert_desc key x rest else x :: l
  end.

Definition sortByDesc {A} (key : A -> nat) (l : list A) : list A :=
  fold_left (fun acc x => insert_desc key x acc) l [].

End Js.

(* ================================================================== *)
(** ** Insertion-ordered maps and sets *)
(* ================================================================== *)

Module JsMap.

Definition t (V : Type) := list (string * V).

Definition empty {V} : t V := [].

Fixpoint get {V} (m : t V) (k : string) : option V :=
  match m with
  | [] => None
  | (k', v) :: rest => if String.eqb k k' then Some v else get rest k
  end.

Definition has {V} (m : t V) (k : string) : bool :=
  match get m k with Some _ => true | None => false end.

(** [m.set(k, v)]: an existing key keeps its place, a new one goes last. *)
Fixpoint set {V} (m : t V) (k : string) (v : V) : t V :=
  match m with
  | [] => [(k, v)]
  | (k', v') :: rest =>
      if String.eqb k k' then (k, v) :: rest else (k', v') :: set rest k v
  end.

(** [m.delete(k)]. *)
Fixpoint delete {V} (m : t V) (k : string) : t V :=
  match m with
  | [] => []
  | (k', v') :: rest =>
      if String.eqb k k' then rest else (k', v') :: delete rest k
  end.

Definition keys {V} (m : t V) : list string := map fst m.
Definition values {V} (m : t V) : list V := map snd m.
Definition size {V} (m : t V) : nat := List.length m.

(** [new Map(entries)]. *)
Definition of_list {V} (l : list (string * V)) : t V :=
  fold_left (fun m kv => set m (fst kv) (snd kv)) l empty.

End JsMap.

Module JsSet.

Definition t := list string.

Definition empty : t := [].

Definition has (s : t) (k : string) : bool :=
  existsb (String.eqb k) s.

Definition add (s : t) (k : string) : t :=
  if has s k then s else s ++ [k].

Definition of_list (l : list string) : t := fold_left add l empty.

End JsSet.

(* ================================================================== *)
(** ** SHA-256 (FIPS 180-4), as Node's crypto computes it *)
(* ================================================================== *)

Module Sha256.

Local Open Scope N_scope.

Definition mask32 : N := 0xFFFFFFFF.

Definition add32 (x y : N) : N := N.land (x + y) mask32.

Definition rotr (n x : N) : N :=
  N.lor (N.shiftr x n) (N.land (N.shiftl x (32 - n)) mask32).

Definition not32 (x : N) : N := N.lxor x mask32.

Definition ch (x y z : N) : N := N.lxor (N.land x y) (N.land (not32 x) z).

Definition maj (x y z : N) : N :=
  N.lxor (N.lxor (N.land x y) (N.land x z)) (N.land y z).

Definition bsig0 (x : N) : N := N.lxor (N.lxor (rotr 2 x) (rotr 13 x)) (rotr 22 x).
Definition bsig1 (x : N) : N := N.lxor (N.lxor (rotr 6 x) (rotr 11 x)) (rotr 25 x).
Definition ssig0 (x : N) : N := N.lxor (N.lxor (rotr 7 x) (rotr 18 x)) (N.shiftr x 3).
Definition ssig1 (x : N) : N := N.lxor (N.lxor (rotr 17 x) (rotr 19 x)) (N.shiftr x 10).

(** The first 64 primes, by trial division. *)
Fixpoint has_divisor (n : N) (ds : list N) : bool :=
  match ds with
  | [] => false
  | d :: rest => (n mod d =? 0) || has_divisor n rest
  end.

Fixpoint primes_go (fuel : nat) (n : N) (want : nat) (acc : list N) : list N :=
  match want, fuel with
  | O, _ => acc
  | _, O => acc
  | S want', S fuel' =>
      if has_divisor n acc then primes_go fuel' (n + 1) want acc
      else primes_go fuel' (n + 1) want' (acc ++ [n])
  end.

Definition primes64 : list N := Eval vm_compute in primes_go 400 2 64 [].

(** Integer cube root: the largest [r] below [2^bits] with [r^3 <= n],
    found bit by bit from the top. *)
Fixpoint icbrt_go (bits : nat) (n r : N) : N :=
  match bits with
  | O => r
  | S b =>
      let r' := N.lor r (N.shiftl 1 (N.of_nat b)) in
      icbrt_go b n (if r' * r' * r' <=? n then r' else r)
  end.

Definition icbrt (n : N) : N := icbrt_go 40 n 0.

(** Round constants: the first 32 bits of the fractional part of the cube
    root of each prime; initial state: the same of the square root of the
    first eight. *)
Definition K : list N :=
  Eval vm_compute in map (fun p => N.land (icbrt (N.shiftl p 96)) mask32) primes64.

Definition H0 : list N :=
  Eval vm_compute in
    map (fun p => N.land (N.sqrt (N.shiftl p 64)) mask32) (firstn 8 primes64).

Definition bytes_of_string (s : string) : list N :=
  map N_of_ascii (list_ascii_of_string s).

(** Padding: 0x80, zeros up to 56 mod 64, then the bit length on 8 bytes. *)
Definition be_bytes (count : nat) (x : N) : list N :=
  map (fun i => N.land (N.shiftr x (8 * N.of_nat (count - 1 - i))) 0xFF)
      (seq 0 count).

Definition pad (msg : list N) : list N :=
  let len := List.length msg in
  let zeros := ((64 - ((len + 9) mod 64)) mod 64)%nat in
  msg ++ [0x80] ++ repeat 0 zeros ++ be_bytes 8 (8 * N.of_nat len).

Fixpoint words_of_bytes (bs : list N) : list N :=
  match bs with
  | b0 :: b1 :: b2 :: b3 :: rest =>
      N.lor (N.shiftl b0 24) (N.lor (N.shiftl b1 16) (N.lor (N.shiftl b2 8) b3))
      :: words_of_bytes rest
  | _ => []
  end.

Fixpoint blocks_go (fuel : nat) (ws : list N) : list (list N) :=
  match fuel, ws with
  | _, [] => []
  | O, _ => []
  | S fuel', _ => firstn 16 ws :: blocks_go fuel' (skipn 16 ws)
  end.

Definition blocks (ws : list N) : list (list N) := blocks_go (List.length ws) ws.

(** Message schedule: [w] holds the words so far, newest first. *)
Fixpoint schedule_go (count : nat) (w : list N) : list N :=
  match count with
  | O => w
  | S count' =>
      let at_ i := nth i w 0 in
      let next :=
        add32 (add32 (ssig1 (at_ 1%nat)) (at_ 6%nat))
              (add32 (ssig0 (at_ 14%nat)) (at_ 15%nat)) in
      schedule_go count' (next :: w)
  end.

Definition schedule (block : list N) : list N :=
  rev (schedule_go 48 (rev block)).

Record state := mkState {
  sa : N; sb : N; sc : N; sd : N; se : N; sf : N; sg : N; sh : N }.

Definition round (s : state) (kw : N * N) : state :=
  let (k, w) := kw in
  let t1 := add32 (add32 (add32 (sh s) (bsig1 (se s)))
                         (add32 (ch (se s) (sf s) (sg s)) k)) w in
  let t2 := add32 (bsig0 (sa s)) (maj (sa s) (sb s) (sc s)) in
  mkState (add32 t1 t2) (sa s) (sb s) (sc s) (add32 (sd s) t1) (se s) (sf s) (sg s).

Definition compress (s : state) (block : list N) : state :=
  let r := fold_left round (combine K (schedule block)) s in
  mkState (add32 (sa s) (sa r)) (add32 (sb s) (sb r)) (add32 (sc s) (sc r))
          (add32 (sd s) (sd r)) (add32 (se s) (se r)) (add32 (sf s) (sf r))
          (add32 (sg s) (sg r)) (add32 (sh s) (sh r)).

Definition init : state :=
  let h i := nth i H0 0 in
  mkState (h 0%nat) (h 1%nat) (h 2%nat) (h 3%nat) (h 4%nat) (h 5%nat) (h 6%nat) (h 7%nat).

Definition digest_words (msg : list N) : list N :=
  let s := fold_left compress (blocks (words_of_bytes (pad msg))) init in
  [sa s; sb s; sc s; sd s; se s; sf s; sg s; sh s].

(** Lowercase hexadecimal, as [digest('hex')] and [Number.toString(16)]
    print it. *)
Definition hex_digit (n : N) : ascii :=
  if n <? 10 then ascii_of_N (48 + n) else ascii_of_N (87 + n).

Definition hex_of_word (w : N) : string :=
  string_of_list_ascii
    (map (fun i => hex_digit (N.land (N.shiftr w (4 * N.of_nat (7 - i))) 0xF))
         (seq 0 8)).

Definition hex (s : string) : string :=
  String.concat "" (map hex_of_word (digest_words (bytes_of_string s))).

End Sha256.

(* ================================================================== *)
(** ** src/chunker/ast-chunker.ts: syntax trees and segments *)
(* ================================================================== *)

Module Chunker.

(** The file carries two definitions of [ASTChunker]; this is the later
    one (comments attached forward, recursive expansion of oversized
    segments), which supersedes the first. *)

(** A tree-sitter node, as far as the chunker reads it: the field name it
    hangs under in its parent, its kind, the rows of its start and end
    positions, its source text and its children in source order. *)
Inductive SyntaxNode : Type :=
| mkNode (field : option string) (type : string) (startRow endRow : nat)
         (text : string) (children : list SyntaxNode).

Definition node_field (n : SyntaxNode) : option string :=
  match n with mkNode f _ _ _ _ _ => f end.
Definition node_type (n : SyntaxNode) : string :=
  match n with mkNode _ t _ _ _ _ => t end.
Definition startRow (n : SyntaxNode) : nat :=
  match n with mkNode _ _ r _ _ _ => r end.
Definition endRow (n : SyntaxNode) : nat :=
  match n with mkNode _ _ _ r _ _ => r end.
Definition node_text (n : SyntaxNode) : string :=
  match n with mkNode _ _ _ _ t _ => t end.
Definition node_children (n : SyntaxNode) : list SyntaxNode :=
  match n with mkNode _ _ _ _ _ cs => cs end.

Fixpoint height (n : SyntaxNode) : nat :=
  match n with
  | mkNode _ _ _ _ _ cs => S (fold_right (fun c acc => Nat.max (height c) acc) 0 cs)
  end.

Definition childForFieldName (n : SyntaxNode) (f : string) : option SyntaxNode :=
  find (fun c => match node_field c with
                 | Some g => String.eqb g f
                 | None => false
                 end) (node_children n).

(** Internal representation of a code segment before it becomes a chunk;
    rows are 0-based. *)
Inductive Segment : Type :=
| mkSegment (startLine endLine : nat) (nodeType : string)
            (symbolName : option string) (children : list Segment)
            (functionBlocks : option (list Segment)).

Definition startLine (s : Segment) : nat :=
  match s with mkSegment a _ _ _ _ _ => a end.
Definition endLine (s : Segment) : nat :=
  match s with mkSegment _ b _ _ _ _ => b end.
Definition nodeType (s : Segment) : string :=
  match s with mkSegment _ _ t _ _ _ => t end.
Definition symbolName (s : Segment) : option string :=
  match s with mkSegment _ _ _ n _ _ => n end.
Definition children (s : Segment) : list Segment :=
  match s with mkSegment _ _ _ _ cs _ => cs end.
Definition functionBlocks (s : Segment) : option (list Segment) :=
  match s with mkSegment _ _ _ _ _ fb => fb end.

Definition set_endLine (e : nat) (s : Segment) : Segment :=
  match s with mkSegment a _ t n cs fb => mkSegment a e t n cs fb end.

Definition SEMANTIC_NODE_TYPES : JsSet.t :=
  [ "function_declaration"; "generator_function_declaration";
    "class_declaration"; "abstract_class_declaration";
    "interface_declaration"; "type_alias_declaration"; "enum_declaration";
    "module"; "export_statement"; "import_statement";
    "lexical_declaration"; "variable_declaration"; "expression_statement" ].

Definition CONTAINER_NODE_TYPES : JsSet.t :=
  [ "class_declaration"; "abstract_class_declaration"; "interface_declaration" ].

Definition METHOD_NODE_TYPES : JsSet.t :=
  [ "method_definition"; "public_field_definition"; "property_signature";
    "method_signature"; "abstract_method_signature"; "property_definition" ].

Definition FUNCTION_NODE_TYPES : JsSet.t :=
  [ "function_declaration"; "generator_function_declaration";
    "arrow_function"; "function"; "method_definition" ].

Definition OBJECT_PROPERTY_TYPES : JsSet.t :=
  [ "pair"; "method_definition"; "spread_element";
    "shorthand_property_identifier" ].

Definition LOGICAL_BLOCK_TYPES : JsSet.t :=
  [ "if_statement"; "for_statement"; "for_in_statement"; "while_statement";
    "do_statement"; "switch_statement"; "try_statement"; "return_statement";
    "throw_statement"; "lexical_declaration"; "variable_declaration";
    "expression_statement" ].

(** JavaScript truthiness of an optional string, and its rendering inside
    a template literal. *)
Definition truthy (s : option string) : bool :=
  match s with
  | Some t => negb (String.eqb t "")
  | None => false
  end.

Definition template (s : option string) : string :=
  match s with
  | Some t => t
  | None => "undefined"
  end.

Definition show_nat (n : nat) : string := NilEmpty.string_of_uint (Nat.to_uint n).

(* ------------------------------------------------------------------ *)
(** *** Helpers *)

(** [extractSymbolName]: the recursion follows the [declaration] child of
    an export statement, a strict descendant, so the node's height is
    enough fuel. *)
Fixpoint extractSymbolName_go (fuel : nat) (node : SyntaxNode) : option string :=
  match childForFieldName node "name" with
  | Some nameNode => Some (node_text nameNode)
  | None =>
      if String.eqb (node_type node) "export_statement" then
        match childForFieldName node "declaration" with
        | Some decl =>
            match fuel with
            | O => None
            | S fuel' => extractSymbolName_go fuel' decl
            end
        | None =>
            match childForFieldName node "value" with
            | Some _ => Some "default"
            | None => None
            end
        end
      else None
  end.

Definition extractSymbolName (node : SyntaxNode) : option string :=
  extractSymbolName_go (height node) node.

(** [estimateTokens]: the loop visits the rows [startLine..endLine] that
    exist in [lines]; about four characters per token. *)
Definition lineChars (lines : list string) (i : nat) : nat :=
  match nth_error lines i with
  | Some l => String.length l + 1
  | None => 0
  end.

Definition charCount (lines : list string) (startLine endLine : nat) : nat :=
  fold_left (fun acc i => acc + lineChars lines i)
            (seq startLine (S endLine - startLine)) 0.

Definition estimateTokens (lines : list string) (startLine endLine : nat) : nat :=
  (charCount lines startLine endLine + 3) / 4.

(* ------------------------------------------------------------------ *)
(** *** Step 1: extraction *)

(** The comment-attachment loop shared by the three extractors: [pending]
    is the row of the first comment of the run seen so far. *)
Definition attachStart (pending : option nat) (child : SyntaxNode) : nat :=
  match pending with
  | Some row => row
  | None => startRow child
  end.

Definition notePending (pending : option nat) (child : SyntaxNode) : option nat :=
  match pending with
  | Some row => Some row
  | None => Some (startRow child)
  end.

Definition extractContainerChildren (node : SyntaxNode) : list Segment :=
  match childForFieldName node "body" with
  | None => []
  | Some body =>
      fst (fold_left
             (fun (st : list Segment * option nat) child =>
                let (acc, pending) := st in
                if String.eqb (node_type child) "comment" then
                  (acc, notePending pending child)
                else if JsSet.has METHOD_NODE_TYPES (node_type child) then
                  (acc ++ [mkSegment (attachStart pending child) (endRow child)
                                     (node_type child) (extractSymbolName child)
                                     [] None],
                   None)
                else (acc, None))
             (node_children body) ([], None))
  end.

Definition isBrace (c : SyntaxNode) : bool :=
  String.eqb (node_type c) "{" || String.eqb (node_type c) "}".

Definition blockStatements (block : SyntaxNode) : list SyntaxNode :=
  filter (fun c => negb (isBrace c)) (node_children block).

Definition getBodyStatements (node : SyntaxNode) : list SyntaxNode :=
  flat_map
    (fun child =>
       (if String.eqb (node_type child) "statement_block"
        then blockStatements child else [])
       ++
       (if String.eqb (node_type child) "else_clause"
           || String.eqb (node_type child) "catch_clause"
           || String.eqb (node_type child) "finally_clause"
        then
          flat_map
            (fun inner =>
               (if String.eqb (node_type inner) "statement_block"
                then blockStatements inner else [])
               ++
               (if String.eqb (node_type inner) "if_statement"
                then [inner] else []))
            (node_children child)
        else []))
    (node_children node).

Fixpoint collectLogicalBlocks (maxDepth : nat) (stmts : list SyntaxNode)
  : list Segment :=
  flat_map
    (fun child =>
       if negb (JsSet.has LOGICAL_BLOCK_TYPES (node_type child)) then []
       else
         let single :=
           [mkSegment (startRow child) (endRow child) (node_type child) None [] None] in
         let blockLines := endRow child - startRow child + 1 in
         match maxDepth with
         | S deeper =>
             if (15 <? blockLines)%nat then
               let innerStmts := getBodyStatements child in
               if (1 <? List.length innerStmts)%nat then
                 let innerBlocks := collectLogicalBlocks deeper innerStmts in
                 if (1 <? List.length innerBlocks)%nat then innerBlocks else single
               else single
             else single
         | O => single
         end)
    stmts.

Fixpoint findInnerFunction (node : SyntaxNode) : option SyntaxNode :=
  match node with
  | mkNode _ _ _ _ _ cs =>
      (fix scan (l : list SyntaxNode) : option SyntaxNode :=
         match l with
         | [] => None
         | child :: rest =>
             if JsSet.has FUNCTION_NODE_TYPES (node_type child) then Some child
             else if String.eqb (node_type child) "parenthesized_expression"
                     || String.eqb (node_type child) "await_expression"
                     || String.eqb (node_type child) "as_expression"
             then match findInnerFunction child with
                  | Some found => Some found
                  | None => scan rest
                  end
             else scan rest
         end) cs
  end.

(** [extractFunctionBlocks]: the factory pattern recurses into a function
    found below the single return statement; the height is enough fuel. *)
Fixpoint extractFunctionBlocks_go (fuel : nat) (node : SyntaxNode) : list Segment :=
  match childForFieldName node "body" with
  | None => []
  | Some body =>
      if negb (String.eqb (node_type body) "statement_block") then []
      else
        let stmts := blockStatements body in
        let plain := collectLogicalBlocks 2 stmts in
        match stmts with
        | [only] =>
            if String.eqb (node_type only) "return_statement" then
              match findInnerFunction only with
              | Some innerFunc =>
                  match fuel with
                  | O => []
                  | S fuel' => extractFunctionBlocks_go fuel' innerFunc
                  end
              | None => plain
              end
            else plain
        | _ => plain
        end
  end.

Definition extractFunctionBlocks (node : SyntaxNode) : list Segment :=
  extractFunctionBlocks_go (height node) node.

Definition typedChild (types : JsSet.t) (c : option SyntaxNode) : option SyntaxNode :=
  match c with
  | Some n => if JsSet.has types (node_type n) then Some n else None
  | None => None
  end.

Definition findContainerNode (node : SyntaxNode) : option SyntaxNode :=
  if JsSet.has CONTAINER_NODE_TYPES (node_type node) then Some node
  else if String.eqb (node_type node) "export_statement" then
    typedChild CONTAINER_NODE_TYPES (childForFieldName node "declaration")
  else None.

Definition isDeclaration (node : SyntaxNode) : bool :=
  String.eqb (node_type node) "lexical_declaration"
  || String.eqb (node_type node) "variable_declaration".

Definition findFunctionNode (node : SyntaxNode) : option SyntaxNode :=
  if JsSet.has FUNCTION_NODE_TYPES (node_type node) then Some node
  else
    let fromExport :=
      if String.eqb (node_type node) "export_statement" then
        match typedChild FUNCTION_NODE_TYPES (childForFieldName node "declaration") with
        | Some decl => Some decl
        | None => typedChild FUNCTION_NODE_TYPES (childForFieldName node "value")
        end
      else None in
    match fromExport with
    | Some f => Some f
    | None =>
        if isDeclaration node then
          fold_left
            (fun (found : option SyntaxNode) child =>
               match found with
               | Some f => Some f
               | None =>
                   if String.eqb (node_type child) "variable_declarator"
                   then typedChild FUNCTION_NODE_TYPES (childForFieldName child "value")
                   else None
               end)
            (node_children node) None
        else None
    end.

(** The first declarator of a declaration that has a [value]. *)
Definition firstDeclaratorValue (node : SyntaxNode) : option SyntaxNode :=
  fold_left
    (fun (found : option SyntaxNode) child =>
       match found with
       | Some v => Some v
       | None =>
           if String.eqb (node_type child) "variable_declarator"
           then childForFieldName child "value"
           else None
       end)
    (node_children node) None.

Fixpoint findObjectLiteral_go (fuel : nat) (node : SyntaxNode) : option SyntaxNode :=
  let recur (n : SyntaxNode) : option SyntaxNode :=
    match fuel with
    | O => None
    | S fuel' => findObjectLiteral_go fuel' n
    end in
  if String.eqb (node_type node) "export_statement" then
    match childForFieldName node "declaration" with
    | Some decl => recur decl
    | None =>
        match childForFieldName node "value" with
        | Some value => recur value
        | None => None
        end
    end
  else if isDeclaration node then
    match firstDeclaratorValue node with
    | Some value => recur value
    | None => None
    end
  else if String.eqb (node_type node) "satisfies_expression"
          || String.eqb (node_type node) "as_expression" then
    find (fun child => String.eqb (node_type child) "object") (node_children node)
  else if String.eqb (node_type node) "object" then Some node
  else None.

Definition findObjectLiteral (node : SyntaxNode) : option SyntaxNode :=
  findObjectLiteral_go (height node) node.

Definition extractPropertyName (node : SyntaxNode) : option string :=
  let fromPair :=
    if String.eqb (node_type node) "pair"
    then option_map node_text (childForFieldName node "key") else None in
  match fromPair with
  | Some k => Some k
  | None =>
      let fromMethod :=
        if String.eqb (node_type node) "method_definition"
        then option_map node_text (childForFieldName node "name") else None in
      match fromMethod with
      | Some k => Some k
      | None =>
          if String.eqb (node_type node) "spread_element" then
            Some (String.append "..."
                    match nth_error (node_children node) 1 with
                    | Some c => node_text c
                    | None => ""
                    end)
          else None
      end
  end.

Definition extractObjectProperties (objectNode : SyntaxNode) : list Segment :=
  fst (fold_left
         (fun (st : list Segment * option nat) child =>
            let (acc, pending) := st in
            if String.eqb (node_type child) "comment" then
              (acc, notePending pending child)
            else if JsSet.has OBJECT_PROPERTY_TYPES (node_type child) then
              (acc ++ [mkSegment (attachStart pending child) (endRow child)
                                 (node_type child) (extractPropertyName child) []
                                 (if String.eqb (node_type child) "method_definition"
                                  then Some (extractFunctionBlocks child)
                                  else None)],
               None)
            else (acc, None))
         (node_children objectNode) ([], None)).

Definition topLevelSegment (pending : option nat) (child : SyntaxNode) : Segment :=
  let containerNode := findContainerNode child in
  let kids :=
    match containerNode with
    | Some c => extractContainerChildren c
    | None => []
    end in
  let funcNode :=
    match containerNode with
    | Some _ => None
    | None => findFunctionNode child
    end in
  let blocks := option_map extractFunctionBlocks funcNode in
  let kids' :=
    match kids, funcNode with
    | [], None =>
        match findObjectLiteral child with
        | Some objNode => extractObjectProperties objNode
        | None => kids
        end
    | _, _ => kids
    end in
  mkSegment (attachStart pending child) (endRow child) (node_type child)
            (extractSymbolName child) kids' blocks.

Definition extractTopLevelSegments (rootNode : SyntaxNode) : list Segment :=
  fst (fold_left
         (fun (st : list Segment * option nat) child =>
            let (acc, pending) := st in
            if String.eqb (node_type child) "comment" then
              (acc, notePending pending child)
            else if String.eqb (node_type child) "ERROR"
                    || negb (JsSet.has SEMANTIC_NODE_TYPES (node_type child)) then
              (acc, None)
            else (acc ++ [topLevelSegment pending child], None))
         (node_children rootNode) ([], None)).

(* ------------------------------------------------------------------ *)
(** *** Steps 2 to 4, over the chunker's configuration and parser *)

(** A code chunk extracted from AST-based splitting (types.ts); lines are
    1-based and inclusive. *)
Record CodeChunk : Type := mkChunk {
  chunkId : string;
  filePath : string;
  chunkStartLine : nat;
  chunkEndLine : nat;
  content : string;
  contentHash : string;
  chunkNodeType : string;
  chunkSymbolName : option string
}.

Definition newline : string := String "010"%char "".

Section WithConfig.

(** The fields of [ASTChunker]: the two token limits and the tree-sitter
    parser, which maps the grammar choice ([true] for TSX) and the file
    content to the root node of the tree. *)
Variable maxChunkTokens : nat.
Variable minChunkTokens : nat.
Variable parse : bool -> string -> SyntaxNode.

Definition plain (seg : Segment) : Segment :=
  mkSegment (startLine seg) (endLine seg) (nodeType seg) (symbolName seg) [] None.

Definition labelled (seg : Segment) (suffix : string) (a b : nat) : Segment :=
  mkSegment a b (String.append (nodeType seg) suffix) (symbolName seg) [] None.

(** Last-resort splitting by accumulated line lengths. A row past the end
    of the file counts one character. *)
Definition lineCharsOrZero (lines : list string) (i : nat) : nat :=
  match nth_error lines i with
  | Some l => String.length l
  | None => 0
  end + 1.

Definition partSegment (seg : Segment) (partIdx a b : nat) : Segment :=
  mkSegment a b (String.append (nodeType seg) "_part")
            (Some (if truthy (symbolName seg)
                   then String.append (template (symbolName seg))
                          (String.append " (part " (String.append (show_nat partIdx) ")"))
                   else String.append "(part " (String.append (show_nat partIdx) ")")))
            [] None.

Record LineSplit : Type := mkLineSplit {
  partIdx : nat;
  chunkStart : nat;
  chunkChars : nat;
  parts : list Segment
}.

Definition splitByLineCount_step (seg : Segment) (lines : list string)
           (st : LineSplit) (i : nat) : LineSplit :=
  let lc := lineCharsOrZero lines i in
  let maxChars := maxChunkTokens * 4 in
  let st' :=
    if (maxChars <? chunkChars st + lc)%nat && (chunkStart st <? i)%nat then
      mkLineSplit (S (partIdx st)) i 0
                  (parts st ++ [partSegment seg (S (partIdx st)) (chunkStart st) (i - 1)])
    else st in
  mkLineSplit (partIdx st') (chunkStart st') (chunkChars st' + lc) (parts st').

Definition splitByLineCount (seg : Segment) (lines : list string)
           (result : list Segment) : list Segment :=
  let st := fold_left (splitByLineCount_step seg lines)
                      (seq (startLine seg) (S (endLine seg) - startLine seg))
                      (mkLineSplit 0 (startLine seg) 0 result) in
  if (chunkStart st <=? endLine seg)%nat then
    parts st ++ [partSegment seg (S (partIdx st)) (chunkStart st) (endLine seg)]
  else parts st.

(** Container splitting: header, one segment per child, footer. *)
Definition childSymbol (seg child : Segment) : option string :=
  if truthy (symbolName child)
  then Some (String.append (template (symbolName seg))
               (String.append "." (template (symbolName child))))
  else symbolName seg.

Definition childSegment (seg child : Segment) (a : nat) : Segment :=
  mkSegment a (endLine child) (nodeType child) (childSymbol seg child) []
            (functionBlocks child).

Definition splitContainer_step (seg : Segment) (lines : list string)
           (st : list Segment * nat) (child : Segment) : list Segment * nat :=
  let (result, lastEnd) := st in
  let pushed :=
    if (lastEnd <? startLine child)%nat then
      let gapTokens := estimateTokens lines lastEnd (startLine child - 1) in
      if (minChunkTokens <=? gapTokens)%nat then
        [labelled seg "_header" lastEnd (startLine child - 1);
         childSegment seg child (startLine child)]
      else [childSegment seg child lastEnd]
    else [childSegment seg child (Nat.min lastEnd (startLine child))] in
  (result ++ pushed, endLine child + 1).

(** [result[result.length - 1].endLine = e]. *)
Definition setLastEndLine (e : nat) (result : list Segment) : list Segment :=
  match rev result with
  | [] => result
  | last :: before => rev before ++ [set_endLine e last]
  end.

Definition splitContainer (seg : Segment) (lines : list string)
           (result : list Segment) : list Segment :=
  let (result', lastEnd) :=
    fold_left (splitContainer_step seg lines) (children seg) (result, startLine seg) in
  if (lastEnd <=? endLine seg)%nat then
    let trailingTokens := estimateTokens lines lastEnd (endLine seg) in
    if (minChunkTokens <=? trailingTokens)%nat then
      result' ++ [labelled seg "_footer" lastEnd (endLine seg)]
    else if (0 <? List.length result')%nat then setLastEndLine (endLine seg) result'
    else result'
  else result'.

(** Function splitting: optional header, then greedy groups of blocks. *)
Definition splitByBlocks_step (seg : Segment) (lines : list string)
           (st : list Segment * nat * nat) (block : Segment)
  : list Segment * nat * nat :=
  let '(result, groupStart, groupEnd) := st in
  let extendedTokens := estimateTokens lines groupStart (endLine block) in
  if (maxChunkTokens <? extendedTokens)%nat then
    (result ++ [labelled seg "_block" groupStart groupEnd],
     groupEnd + 1, endLine block)
  else (result, groupStart, endLine block).

Definition splitByBlocks (seg : Segment) (blocks : list Segment)
           (lines : list string) (result : list Segment) : list Segment :=
  match blocks with
  | [] => result ++ [plain seg]
  | first :: others =>
      let firstBlockStart := startLine first in
      let headerPushed :=
        (startLine seg <? firstBlockStart)%nat
        && (minChunkTokens <=?
            estimateTokens lines (startLine seg) (firstBlockStart - 1))%nat in
      let result1 :=
        if headerPushed
        then result ++ [labelled seg "_header" (startLine seg) (firstBlockStart - 1)]
        else result in
      let groupStart := if headerPushed then startLine first else startLine seg in
      let '(result2, groupStart', _) :=
        fold_left (splitByBlocks_step seg lines) others
                  (result1, groupStart, endLine first) in
      result2 ++ [labelled seg "_block" groupStart' (endLine seg)]
  end.

(** [expandSegment]. The recursion runs over the sub-results of
    [splitContainer], which all have [children: []] and so never take the
    container branch again: one unit of fuel is enough. *)
Definition oversized (lines : list string) (seg : Segment) : bool :=
  (maxChunkTokens <? estimateTokens lines (startLine seg) (endLine seg))%nat.

Fixpoint expandSegment_go (fuel : nat) (seg : Segment) (lines : list string)
         (result : list Segment) : list Segment :=
  if (0 <? List.length (children seg))%nat && oversized lines seg then
    let subResults := splitContainer seg lines [] in
    match fuel with
    | O => result
    | S fuel' =>
        fold_left (fun r sub => expandSegment_go fuel' sub lines r) subResults result
    end
  else
    match functionBlocks seg with
    | Some blocks =>
        if (1 <? List.length blocks)%nat && oversized lines seg
        then splitByBlocks seg blocks lines result
        else if oversized lines seg then splitByLineCount seg lines result
        else result ++ [plain seg]
    | None =>
        if oversized lines seg then splitByLineCount seg lines result
        else result ++ [plain seg]
    end.

Definition expandSegment (seg : Segment) (lines : list string)
           (result : list Segment) : list Segment :=
  expandSegment_go 1 seg lines result.

Definition expandOversizedSegments (segments : list Segment) (lines : list string)
  : list Segment :=
  fold_left (fun result seg => expandSegment seg lines result) segments [].

(** Step 3: merge small segments. The loop state is the flushed result,
    the current segment and its cached token count. *)
Record MergeState : Type := mkMerge {
  flushed : list Segment;
  current : Segment;
  currentTokens : nat
}.

Definition relabel (current next : Segment) : Segment :=
  match current with
  | mkSegment a b _ _ cs fb => mkSegment a b (nodeType next) (symbolName next) cs fb
  end.

Definition mergeStep (lines : list string) (st : MergeState) (next : Segment)
  : MergeState :=
  let nextTokens := estimateTokens lines (startLine next) (endLine next) in
  if (currentTokens st <? minChunkTokens)%nat || (nextTokens <? minChunkTokens)%nat
  then
    let extended := set_endLine (endLine next) (current st) in
    let merged :=
      if (currentTokens st <? nextTokens)%nat then relabel extended next
      else extended in
    mkMerge (flushed st) merged
            (estimateTokens lines (startLine merged) (endLine merged))
  else mkMerge (flushed st ++ [current st]) next nextTokens.

Definition mergeSmallSegments (segments : list Segment) (lines : list string)
  : list Segment :=
  match segments with
  | [] => []
  | first :: others =>
      let st := fold_left (mergeStep lines) others
                  (mkMerge [] first
                     (estimateTokens lines (startLine first) (endLine first))) in
      flushed st ++ [current st]
  end.

(** Step 4 and the entry point. *)
Definition toChunk (path : string) (lines : list string) (seg : Segment) : CodeChunk :=
  let chunkContent :=
    Js.join newline (Js.slice (startLine seg) (endLine seg + 1) lines) in
  let hash := Sha256.hex chunkContent in
  mkChunk hash path (startLine seg + 1) (endLine seg + 1) chunkContent hash
          (nodeType seg) (symbolName seg).

Definition chunkFile (path content : string) : list CodeChunk :=
  let rootNode := parse (Js.endsWith ".tsx" path) content in
  let lines := Js.split "010"%char content in
  let rawSegments := extractTopLevelSegments rootNode in
  let expandedSegments := expandOversizedSegments rawSegments lines in
  let mergedSegments := mergeSmallSegments expandedSegments lines in
  map (toChunk path lines) mergedSegments.

End WithConfig.

End Chunker.

(* ================================================================== *)
(** ** src/indexer.ts: the Merkle summary (TypeScript fallbacks) *)
(* ================================================================== *)

Module Merkle.

(** File hash entry for Merkle tree construction (types.ts). *)
Record FileHashEntry : Type := mkEntry {
  entryPath : string;
  entryHash : string
}.

(** Merkle tree node (types.ts). *)
Record MerkleNode : Type := mkMerkle {
  path : string;
  hash : string;
  isFile : bool;
  children : list string
}.

(** Result of diffing two Merkle trees (types.ts). *)
Record MerkleDiff : Type := mkDiff {
  added : list string;
  removed : list string;
  modified : list string
}.

Definition tsParentPath (p : string) : string :=
  match Js.lastIndexOf "/"%char p with
  | Some idx => Js.substring 0 idx p
  | None => "."
  end.

(** [dirChildren.get(parent).add(current)], creating the set first when
    the directory is new. *)
Definition addChild (dirChildren : JsMap.t JsSet.t) (parent current : string)
  : JsMap.t JsSet.t :=
  let kids :=
    match JsMap.get dirChildren parent with
    | Some s => s
    | None => JsSet.empty
    end in
  JsMap.set dirChildren parent (JsSet.add kids current).

(** The [while (true)] loop that registers the ancestors of a file. Every
    round but the last replaces [current] by a strictly shorter string, so
    the length of the path plus one is enough fuel. *)
Fixpoint registerParents (fuel : nat) (dirChildren : JsMap.t JsSet.t)
         (current : string) : JsMap.t JsSet.t :=
  match fuel with
  | O => dirChildren
  | S fuel' =>
      let parent := tsParentPath current in
      let dc := addChild dirChildren parent current in
      if String.eqb parent current || String.eqb parent "." then
        if String.eqb parent "." then addChild dc "." current else dc
      else registerParents fuel' dc parent
  end.

Definition leaf (fh : FileHashEntry) : MerkleNode :=
  mkMerkle (entryPath fh) (entryHash fh) true [].

Definition insertFile (st : JsMap.t MerkleNode * JsMap.t JsSet.t)
           (fh : FileHashEntry) : JsMap.t MerkleNode * JsMap.t JsSet.t :=
  let (nodes, dirChildren) := st in
  (JsMap.set nodes (entryPath fh) (leaf fh),
   registerParents (S (String.length (entryPath fh))) dirChildren (entryPath fh)).

Definition depth (p : string) : nat := List.length (Js.split "/"%char p).

(** [nodes.get(c)?.hash ?? '']. *)
Definition hashOf (nodes : JsMap.t MerkleNode) (c : string) : string :=
  match JsMap.get nodes c with
  | Some n => hash n
  | None => ""
  end.

Definition dirNode (nodes : JsMap.t MerkleNode) (dirChildren : JsMap.t JsSet.t)
           (dirPath : string) : MerkleNode :=
  let kids :=
    Js.sort match JsMap.get dirChildren dirPath with
            | Some s => s
            | None => []
            end in
  let childHashes := Js.join "" (Js.sort (map (hashOf nodes) kids)) in
  mkMerkle dirPath (Sha256.hex childHashes) false kids.

Definition insertDir (dirChildren : JsMap.t JsSet.t) (nodes : JsMap.t MerkleNode)
           (dirPath : string) : JsMap.t MerkleNode :=
  JsMap.set nodes dirPath (dirNode nodes dirChildren dirPath).

Definition tsBuildMerkleTree (fileHashes : list FileHashEntry) : list MerkleNode :=
  let (nodes, dirChildren) :=
    fold_left insertFile fileHashes (JsMap.empty, JsMap.empty) in
  let dirPaths := Js.sortByDesc depth (JsMap.keys dirChildren) in
  JsMap.values (fold_left (insertDir dirChildren) dirPaths nodes).

(** The file-only projection [path -> hash] the diff works on. *)
Definition fileMap (nodes : list MerkleNode) : JsMap.t string :=
  JsMap.of_list (map (fun n => (path n, hash n)) (filter isFile nodes)).

Definition diffNew (oldFiles : JsMap.t string) (acc : list string * list string)
           (entry : string * string) : list string * list string :=
  let (addedAcc, modifiedAcc) := acc in
  let (p, h) := entry in
  match JsMap.get oldFiles p with
  | None => (addedAcc ++ [p], modifiedAcc)
  | Some old =>
      if String.eqb old h then (addedAcc, modifiedAcc)
      else (addedAcc, modifiedAcc ++ [p])
  end.

Definition tsDiffMerkleTrees (oldNodes newNodes : list MerkleNode) : MerkleDiff :=
  let oldFiles := fileMap oldNodes in
  let newFiles := fileMap newNodes in
  let (addedPaths, modifiedPaths) := fold_left (diffNew oldFiles) newFiles ([], []) in
  let removedPaths :=
    filter (fun p => negb (JsMap.has newFiles p)) (JsMap.keys oldFiles) in
  mkDiff addedPaths removedPaths modifiedPaths.

End Merkle.

(* ================================================================== *)
(** ** The world the pipeline runs in *)
(* ================================================================== *)

Module Eff.

(** Embedding vectors; the pipeline stores and forwards them and never
    computes on their components. *)
Definition Vector : Type := list Q.

(** What a call can throw: the store's and the provider's rejections, a
    failed read with the message of Node's error, a refused write. *)
Inductive Exn : Type :=
| CollectionNotFound
| EmbeddingFailed
| IoError (message : string)
| WriteRefused.

(** VectorPayload and the points sent to the store (vector-store.ts). *)
Record VectorPayload : Type := mkPayload {
  pFilePath : string;
  pStartLine : nat;
  pEndLine : nat;
  pContentHash : string;
  pNodeType : string;
  pSymbolName : option string
}.

Record Point : Type := mkPoint {
  pointId : string;
  pointVector : option Vector;
  pointPayload : VectorPayload
}.

Record VectorSearchResult : Type := mkHit {
  hitId : string;
  hitScore : Q;
  hitPayload : VectorPayload
}.

(** CacheEntry (cache.ts). [None] is an [undefined] vector. *)
Record CacheEntry : Type := mkCacheEntry {
  entryVector : option Vector;
  entryTimestamp : Z
}.

(** How an exception prints inside a template literal. *)
Definition showExn (e : Exn) : string :=
  match e with
  | CollectionNotFound => "Error: Not Found"
  | EmbeddingFailed => "Error: embedding failed"
  | IoError message => String.append "Error: " message
  | WriteRefused => "Error: cannot write"
  end.

(** A file that is there: its text, or the message of the error a read
    of it ends in. *)
Inductive FileState : Type :=
| Readable (text : string)
| Unreadable (message : string).

(** Everything a run can observe having been done. *)
Inductive Event : Type :=
| Report (stage detail : string)
| EmbedCall (texts : list string)
| StoreUpsert (points : list Point)
| StoreDelete (paths : list string)
| StoreSearch (limit : nat)
| WriteMerkleState (nodes : list Merkle.MerkleNode)
| WriteCacheFile (entries : JsMap.t CacheEntry).

(** What the code finds under the path of a state file: nothing, text that
    [JSON.parse] rejects, or the value the text parses to. *)
Inductive Stored (A : Type) : Type :=
| Absent
| Unparseable
| Parsed (value : A).

Arguments Absent {A}.
Arguments Unparseable {A}.
Arguments Parsed {A} value.

(** A state file: what is stored under its path, and whether the file
    system accepts a write or a removal there ([fs.mkdirSync] of its
    directory, [fs.writeFileSync], [fs.unlinkSync]). A call it does not
    accept throws and leaves the file as it was. *)
Record StateFile (A : Type) : Type := mkStateFile {
  stored : Stored A;
  writable : bool
}.

Arguments mkStateFile {A} stored writable.
Arguments stored {A} s.
Arguments writable {A} s.

(** [fs.existsSync] on a state file. *)
Definition present {A} (f : StateFile A) : bool :=
  match stored f with
  | Absent => false
  | _ => true
  end.

(** The file system (files other than the two state files), the two state
    files, the in-memory cache of the indexer, the vector store ([None]:
    the collection does not exist), the readings [Date.now()] will give,
    and the log of effects. *)
Record World : Type := mkWorld {
  files : JsMap.t FileState;
  merkleStateFile : StateFile (list Merkle.MerkleNode);
  cacheFile : StateFile (JsMap.t CacheEntry);
  cacheStore : JsMap.t CacheEntry;
  cacheDirty : bool;
  collection : option (list Point);
  clock : list Z;
  log : list Event
}.

Definition M (A : Type) : Type := World -> (Exn + A) * World.

Definition ret {A} (a : A) : M A := fun w => (inr a, w).

Definition throw {A} (e : Exn) : M A := fun w => (inl e, w).

Definition bind {A B} (m : M A) (k : A -> M B) : M B :=
  fun w =>
    match m w with
    | (inl e, w') => (inl e, w')
    | (inr a, w') => k a w'
    end.

(** [try { m } catch { h }]. *)
Definition catch {A} (m : M A) (h : Exn -> M A) : M A :=
  fun w =>
    match m w with
    | (inl e, w') => h e w'
    | (inr a, w') => (inr a, w')
    end.

Definition gets {A} (f : World -> A) : M A := fun w => (inr (f w), w).

Definition modify (f : World -> World) : M unit := fun w => (inr tt, f w).

Definition emit (e : Event) : M unit :=
  modify (fun w => mkWorld (files w) (merkleStateFile w) (cacheFile w)
                           (cacheStore w) (cacheDirty w) (collection w)
                           (clock w) (log w ++ [e])).

Fixpoint forEach {A} (l : list A) (body : A -> M unit) : M unit :=
  match l with
  | [] => ret tt
  | x :: rest => bind (body x) (fun _ => forEach rest body)
  end.

(** [Date.now()]: the next reading of the clock. *)
Definition dateNow : M Z :=
  fun w =>
    match clock w with
    | [] => (inr 0%Z, w)
    | t :: later =>
        (inr t, mkWorld (files w) (merkleStateFile w) (cacheFile w)
                        (cacheStore w) (cacheDirty w) (collection w)
                        later (log w))
    end.

Definition existsSync (p : string) : M bool :=
  gets (fun w => JsMap.has (files w) p).

Definition readFileSync (p : string) : M string :=
  fun w =>
    match JsMap.get (files w) p with
    | Some (Readable text) => (inr text, w)
    | Some (Unreadable message) => (inl (IoError message), w)
    | None =>
        (inl (IoError (String.append "ENOENT: no such file or directory, open '"
                         (String.append p "'"))), w)
    end.

Definition setCollection (c : option (list Point)) : M unit :=
  modify (fun w => mkWorld (files w) (merkleStateFile w) (cacheFile w)
                           (cacheStore w) (cacheDirty w) c (clock w) (log w)).

Definition setCache (store : JsMap.t CacheEntry) (dirty : bool) : M unit :=
  modify (fun w => mkWorld (files w) (merkleStateFile w) (cacheFile w)
                           store dirty (collection w) (clock w) (log w)).

Definition setCacheFile (f : StateFile (JsMap.t CacheEntry)) : M unit :=
  modify (fun w => mkWorld (files w) (merkleStateFile w) f
                           (cacheStore w) (cacheDirty w) (collection w)
                           (clock w) (log w)).

Definition setMerkleStateFile (f : StateFile (list Merkle.MerkleNode)) : M unit :=
  modify (fun w => mkWorld (files w) f (cacheFile w)
                           (cacheStore w) (cacheDirty w) (collection w)
                           (clock w) (log w)).

End Eff.

Declare Scope eff_scope.
Delimit Scope eff_scope with eff.
Notation "x <- m ;; k" := (Eff.bind m (fun x => k))
  (at level 61, m at next level, right associativity) : eff_scope.
Notation "m ;;; k" := (Eff.bind m (fun _ => k))
  (at level 61, right associativity) : eff_scope.

(* ================================================================== *)
(** ** src/storage/vector-store.ts *)
(* ================================================================== *)

Module VectorStore.

Import Eff.
Local Open Scope eff_scope.

(** [parseInt(c, 16)] on a string of at most one character ([None] is
    NaN), as the elements of [uuid.split('')] are. *)
Definition parseHexDigit (c : string) : option N :=
  match c with
  | String a EmptyString =>
      let n := N_of_ascii a in
      if ((48 <=? n) && (n <=? 57))%N then Some (n - 48)%N
      else if ((97 <=? n) && (n <=? 102))%N then Some (n - 87)%N
      else if ((65 <=? n) && (n <=? 70))%N then Some (n - 55)%N
      else None
  | _ => None
  end.

(** [(v & 0x3) | 0x8], NaN reading as 0 under the bitwise operators. *)
Definition variantNibble (v : option N) : N :=
  N.lor (N.land match v with Some n => n | None => 0%N end 3) 8.

(** [chars[i]], [undefined] printing as the text parseInt is given. *)
Definition charAt (chars : list string) (i : nat) : string :=
  match nth_error chars i with
  | Some c => c
  | None => "undefined"
  end.

Definition dashed (hex : string) : string :=
  String.append (Js.substring 0 8 hex)
    (String.append "-"
       (String.append (Js.substring 8 12 hex)
          (String.append "-"
             (String.append (Js.substring 12 16 hex)
                (String.append "-"
                   (String.append (Js.substring 16 20 hex)
                      (String.append "-" (Js.substring 20 32 hex)))))))).

Definition sha256ToUuid (sha256Hex : string) : string :=
  let hex := Js.substring 0 32 sha256Hex in
  let uuid := dashed hex in
  let chars := Js.chars uuid in
  let chars1 := Js.set_index 14 "5" chars in
  let variantChar := parseHexDigit (charAt chars1 19) in
  let chars2 :=
    Js.set_index 19 (String (Sha256.hex_digit (variantNibble variantChar)) "") chars1 in
  Js.join "" chars2.

Section WithRanking.

(** The store's own k-nearest-neighbour answer over the points it holds. *)
Variable rank : list Point -> Vector -> nat -> list VectorSearchResult.

(** The Qdrant client, as far as the wrapper uses it: every call on a
    collection that does not exist is rejected. *)
Definition clientGetCollection : M (list Point) :=
  fun w =>
    match collection w with
    | Some pts => (inr pts, w)
    | None => (inl CollectionNotFound, w)
    end.

Definition upsertPoint (pts : list Point) (p : Point) : list Point :=
  filter (fun q => negb (String.eqb (pointId q) (pointId p))) pts ++ [p].

Definition clientUpsert (points : list Point) : M unit :=
  emit (StoreUpsert points) ;;;
  pts <- clientGetCollection ;;
  setCollection (Some (fold_left upsertPoint points pts)).

Definition clientDeleteByPaths (paths : list string) : M unit :=
  emit (StoreDelete paths) ;;;
  pts <- clientGetCollection ;;
  setCollection
    (Some (filter (fun q => negb (JsSet.has paths (pFilePath (pointPayload q)))) pts)).

Definition clientSearch (v : Vector) (limit : nat) : M (list VectorSearchResult) :=
  emit (StoreSearch limit) ;;;
  pts <- clientGetCollection ;;
  ret (rank pts v limit).

Definition ensureCollection : M unit :=
  catch (_ <- clientGetCollection ;; ret tt)
        (fun _ => setCollection (Some [])).

(** [upsert]: nothing for an empty array, else batches of 100, the ids
    turned into UUIDs. *)
Fixpoint batches_go {A} (fuel size : nat) (l : list A) : list (list A) :=
  match fuel, l with
  | _, [] => []
  | O, _ => []
  | S fuel', _ => firstn size l :: batches_go fuel' size (skipn size l)
  end.

Definition batches {A} (size : nat) (l : list A) : list (list A) :=
  batches_go (List.length l) size l.

Definition upsert (points : list Point) : M unit :=
  forEach (batches 100 points)
          (fun batch =>
             clientUpsert
               (map (fun p => mkPoint (sha256ToUuid (pointId p)) (pointVector p)
                                      (pointPayload p)) batch)).

Definition deleteByFilePaths (filePaths : list string) : M unit :=
  match filePaths with
  | [] => ret tt
  | _ => clientDeleteByPaths filePaths
  end.

Definition search (queryVector : Vector) (topK : nat) : M (list VectorSearchResult) :=
  results <- clientSearch queryVector topK ;;
  ret (map (fun r => mkHit (hitId r) (hitScore r) (hitPayload r)) results).

Definition getInfo : M (nat * string) :=
  catch (pts <- clientGetCollection ;; ret (List.length pts, "green"))
        (fun _ => ret (0, "not_found")).

Definition deleteCollection : M unit :=
  catch (_ <- clientGetCollection ;; setCollection None)
        (fun _ => ret tt).

End WithRanking.

End VectorStore.

(* ================================================================== *)
(** ** src/search/retriever.ts *)
(* ================================================================== *)

Module Retriever.

Import Eff.
Local Open Scope eff_scope.

(** A search result returned from vector search (types.ts). *)
Record SearchResult : Type := mkResult {
  rFilePath : string;
  rStartLine : nat;
  rEndLine : nat;
  rScore : Q;
  rContent : string;
  rNodeType : string;
  rSymbolName : option string
}.

Section WithCollaborators.

Variable rank : list Point -> Vector -> nat -> list VectorSearchResult.
(** [embedder.embed]. *)
Variable embed : string -> Exn + Vector.
(** [path.resolve(rootDir, ·)]. *)
Variable resolveFromRoot : string -> string.

Definition embedQuery (query : string) : M Vector :=
  match embed query with
  | inl e => throw e
  | inr v => ret v
  end.

Definition liveContent (payload : VectorPayload) : M string :=
  let absPath := resolveFromRoot (pFilePath payload) in
  catch
    (present <- existsSync absPath ;;
     if present then
       fileContent <- readFileSync absPath ;;
       let lines := Js.split "010"%char fileContent in
       let a := Nat.max 0 (pStartLine payload - 1) in
       let b := Nat.min (List.length lines) (pEndLine payload) in
       ret (Js.join Chunker.newline (Js.slice a b lines))
     else
       ret (String.append "[File not found: "
              (String.append (pFilePath payload) "]")))
    (fun err => ret (String.append "[Error reading file: "
                       (String.append (showExn err) "]"))).

Fixpoint enrichResults (vectorResults : list VectorSearchResult)
  : M (list SearchResult) :=
  match vectorResults with
  | [] => ret []
  | vr :: rest =>
      text <- liveContent (hitPayload vr) ;;
      others <- enrichResults rest ;;
      let p := hitPayload vr in
      ret (mkResult (pFilePath p) (pStartLine p) (pEndLine p) (hitScore vr) text
                    (pNodeType p) (pSymbolName p) :: others)
  end.

Definition search (query : string) (topK : nat) : M (list SearchResult) :=
  queryVector <- embedQuery query ;;
  vectorResults <- VectorStore.search rank queryVector topK ;;
  enrichResults vectorResults.

End WithCollaborators.

End Retriever.

(* ================================================================== *)
(** ** src/indexer.ts: the indexing pipeline *)
(* ================================================================== *)

Module Indexer.

Import Eff.
Local Open Scope eff_scope.

(** Indexing statistics (types.ts). *)
Record IndexStats : Type := mkStats {
  totalFiles : nat;
  totalChunks : nat;
  newChunks : nat;
  cachedChunks : nat;
  indexTimeMs : Z
}.

Section WithCollaborators.

(** The chunker's configuration and parser. *)
Variable maxChunkTokens : nat.
Variable minChunkTokens : nat.
Variable parse : bool -> string -> Chunker.SyntaxNode.
(** The vector store's ranking, the scanner's answer over the file system,
    [embedder.embedBatch], [path.relative(rootDir, ·)] and
    [path.resolve(rootDir, ·)]. The native module is absent: the
    TypeScript fallbacks run. *)
Variable rank : list Point -> Vector -> nat -> list VectorSearchResult.
Variable scanDirectory : JsMap.t FileState -> list string.
Variable embedBatch : list string -> Exn + list Vector.
Variable relativeToRoot : string -> string.
Variable resolveFromRoot : string -> string.

(** Progress reports. The two characters of their texts that are outside
    ASCII are written as their UTF-8 bytes; no length is taken of a
    report. *)
Definition report (stage detail : string) : M unit := emit (Report stage detail).

Definition cat (parts : list string) : string := String.concat "" parts.

Definition count {A} (l : list A) : string := Chunker.show_nat (List.length l).

(** A number of milliseconds inside a template literal. *)
Definition show_Z (z : Z) : string := NilZero.string_of_int (Z.to_int z).

Definition scanFiles : M (list string) :=
  gets (fun w => scanDirectory (files w)).

Definition tsSha256HashFile (filePath : string) : M string :=
  text <- readFileSync filePath ;;
  ret (Sha256.hex text).

Fixpoint tsSha256HashFiles (filePaths : list string) : M (list (string * string)) :=
  match filePaths with
  | [] => ret []
  | p :: rest =>
      hashed <- catch (h <- tsSha256HashFile p ;; ret (Some (p, h)))
                      (fun _ => ret None) ;;
      others <- tsSha256HashFiles rest ;;
      ret match hashed with
          | Some x => x :: others
          | None => others
          end
  end.

Definition hashFiles (filePaths : list string) : M (list Merkle.FileHashEntry) :=
  hashes <- tsSha256HashFiles filePaths ;;
  ret (map (fun h => Merkle.mkEntry (relativeToRoot (fst h)) (snd h)) hashes).

Definition loadMerkleState : M (list Merkle.MerkleNode) :=
  gets (fun w => match stored (merkleStateFile w) with
                 | Parsed nodes => nodes
                 | _ => []
                 end).

(** [saveMerkleState]: the directory is created when it is missing and
    the file written, both outside any [try]. *)
Definition saveMerkleState (nodes : list Merkle.MerkleNode) : M unit :=
  file <- gets merkleStateFile ;;
  if writable file then
    emit (WriteMerkleState nodes) ;;;
    setMerkleStateFile (mkStateFile (Parsed nodes) true)
  else throw WriteRefused.

(** EmbeddingCache (cache.ts). *)
Definition cacheGet (contentHash : string) : M (option Vector) :=
  gets (fun w => match JsMap.get (cacheStore w) contentHash with
                 | Some e => entryVector e
                 | None => None
                 end).

Definition cacheSet (contentHash : string) (vector : option Vector) : M unit :=
  now <- dateNow ;;
  store <- gets cacheStore ;;
  setCache (JsMap.set store contentHash (mkCacheEntry vector now)) true.

(** [save]: nothing to do for a clean cache whose file exists; otherwise
    the file is written, outside any [try], and the cache is clean. *)
Definition cacheSave : M unit :=
  dirty <- gets cacheDirty ;;
  file <- gets cacheFile ;;
  if negb dirty && present file then ret tt
  else if writable file then
    store <- gets cacheStore ;;
    emit (WriteCacheFile store) ;;;
    setCacheFile (mkStateFile (Parsed store) true) ;;;
    setCache store false
  else throw WriteRefused.

Definition embedTexts (texts : list string) : M (list Vector) :=
  emit (EmbedCall texts) ;;;
  match embedBatch texts with
  | inl e => throw e
  | inr vs => ret vs
  end.

(** Step 6: chunk the selected files; a file that cannot be read is
    reported and skipped. *)
Fixpoint chunkFiles (filesToProcess : list string) : M (list Chunker.CodeChunk) :=
  match filesToProcess with
  | [] => ret []
  | fp :: rest =>
      chunks <- catch
                  (text <- readFileSync fp ;;
                   ret (Chunker.chunkFile maxChunkTokens minChunkTokens parse
                          (relativeToRoot fp) text))
                  (fun err =>
                     report "chunk" (cat ["⚠ Failed to chunk "; fp; ": "; showExn err]) ;;;
                     ret []) ;;
      others <- chunkFiles rest ;;
      ret (chunks ++ others)
  end.

(** Step 7: separate cached from uncached chunks. *)
Definition partitionStep (store : JsMap.t CacheEntry)
           (acc : list Chunker.CodeChunk * list (Chunker.CodeChunk * Vector))
           (chunk : Chunker.CodeChunk)
  : list Chunker.CodeChunk * list (Chunker.CodeChunk * Vector) :=
  let (uncachedChunks, cachedResults) := acc in
  match JsMap.get store (Chunker.contentHash chunk) with
  | Some (mkCacheEntry (Some vector) _) =>
      (uncachedChunks, cachedResults ++ [(chunk, vector)])
  | _ => (uncachedChunks ++ [chunk], cachedResults)
  end.

Definition partitionChunks (allChunks : list Chunker.CodeChunk)
  : M (list Chunker.CodeChunk * list (Chunker.CodeChunk * Vector)) :=
  store <- gets cacheStore ;;
  ret (fold_left (partitionStep store) allChunks ([], [])).

Definition payloadOf (chunk : Chunker.CodeChunk) : VectorPayload :=
  mkPayload (Chunker.filePath chunk) (Chunker.chunkStartLine chunk)
            (Chunker.chunkEndLine chunk) (Chunker.contentHash chunk)
            (Chunker.chunkNodeType chunk) (Chunker.chunkSymbolName chunk).

Definition indexed {A} (l : list A) : list (nat * A) :=
  combine (seq 0 (List.length l)) l.

(** Step 8: embed the uncached chunks and store each vector in the cache. *)
Definition embedUncached (uncachedChunks : list Chunker.CodeChunk) : M (list Vector) :=
  match uncachedChunks with
  | [] => ret []
  | _ =>
      report "embed" (cat ["Generating embeddings for "; count uncachedChunks;
                           " chunks..."]) ;;;
      newEmbeddings <- embedTexts (map Chunker.content uncachedChunks) ;;
      forEach (indexed uncachedChunks)
              (fun ic => cacheSet (Chunker.contentHash (snd ic))
                                  (nth_error newEmbeddings (fst ic))) ;;;
      ret newEmbeddings
  end.

Definition pointsOf (cachedResults : list (Chunker.CodeChunk * Vector))
           (uncachedChunks : list Chunker.CodeChunk) (newEmbeddings : list Vector)
  : list Point :=
  map (fun cv => mkPoint (Chunker.chunkId (fst cv)) (Some (snd cv)) (payloadOf (fst cv)))
      cachedResults
  ++ map (fun ic => mkPoint (Chunker.chunkId (snd ic))
                            (nth_error newEmbeddings (fst ic)) (payloadOf (snd ic)))
         (indexed uncachedChunks).

Definition isEmpty {A} (l : list A) : bool :=
  match l with [] => true | _ => false end.

(** The part of [index] after the no-change early return. *)
Definition reindex (startTime : Z) (filePaths : list string)
           (oldMerkleNodes newMerkleNodes : list Merkle.MerkleNode)
           (diff : Merkle.MerkleDiff) : M IndexStats :=
  let changedFiles := Merkle.added diff ++ Merkle.modified diff in
  let removedFiles := Merkle.removed diff in
  (if negb (isEmpty removedFiles) || negb (isEmpty (Merkle.modified diff)) then
     report "cleanup" "Removing outdated vectors..." ;;;
     VectorStore.deleteByFilePaths (removedFiles ++ Merkle.modified diff)
   else ret tt) ;;;
  let filesToProcess :=
    if isEmpty oldMerkleNodes then filePaths
    else map resolveFromRoot changedFiles in
  report "chunk" (cat ["Chunking "; count filesToProcess; " files..."]) ;;;
  allChunks <- chunkFiles filesToProcess ;;
  report "chunk" (cat ["Generated "; count allChunks; " chunks"]) ;;;
  parts <- partitionChunks allChunks ;;
  let uncachedChunks := fst parts in
  let cachedResults := snd parts in
  report "cache" (cat ["Cache: "; count cachedResults; " hit, ";
                       count uncachedChunks; " miss"]) ;;;
  newEmbeddings <- embedUncached uncachedChunks ;;
  report "store" "Upserting vectors into Qdrant..." ;;;
  let points := pointsOf cachedResults uncachedChunks newEmbeddings in
  VectorStore.upsert points ;;;
  report "store" (cat ["Upserted "; count points; " vectors"]) ;;;
  saveMerkleState newMerkleNodes ;;;
  cacheSave ;;;
  endTime <- dateNow ;;
  let stats := mkStats (List.length filePaths) (List.length allChunks)
                       (List.length uncachedChunks) (List.length cachedResults)
                       (endTime - startTime)%Z in
  report "done" (cat ["Indexing complete in "; show_Z (endTime - startTime);
                      "ms — "; count allChunks; " chunks (";
                      count uncachedChunks; " new, "; count cachedResults;
                      " cached)"]) ;;;
  ret stats.

(** The no-change test of [index]. *)
Definition nothingToDo (oldMerkleNodes : list Merkle.MerkleNode)
           (diff : Merkle.MerkleDiff) : bool :=
  isEmpty (Merkle.added diff ++ Merkle.modified diff)
  && isEmpty (Merkle.removed diff)
  && negb (isEmpty oldMerkleNodes).

Definition index : M IndexStats :=
  startTime <- dateNow ;;
  report "scan" "Scanning directory..." ;;;
  filePaths <- scanFiles ;;
  report "scan" (cat ["Found "; count filePaths; " files"]) ;;;
  report "hash" "Computing file hashes..." ;;;
  fileHashes <- hashFiles filePaths ;;
  report "hash" (cat ["Hashed "; count fileHashes; " files"]) ;;;
  report "merkle" "Building Merkle tree..." ;;;
  let newMerkleNodes := Merkle.tsBuildMerkleTree fileHashes in
  oldMerkleNodes <- loadMerkleState ;;
  let diff := Merkle.tsDiffMerkleTrees oldMerkleNodes newMerkleNodes in
  report "merkle" (cat ["Changes: "; count (Merkle.added diff); " added, ";
                        count (Merkle.modified diff); " modified, ";
                        count (Merkle.removed diff); " removed"]) ;;;
  if nothingToDo oldMerkleNodes diff then
    report "done" "No changes detected, index is up to date" ;;;
    endTime <- dateNow ;;
    ret (mkStats (List.length filePaths) 0 0 0 (endTime - startTime)%Z)
  else reindex startTime filePaths oldMerkleNodes newMerkleNodes diff.

(** [reset]: drop the collection, empty the cache and write it out, and
    remove the saved summary when there is one; only the first of the
    three is inside a [try]. *)
Definition cacheClear : M unit := setCache JsMap.empty true.

Definition reset : M unit :=
  VectorStore.deleteCollection ;;;
  cacheClear ;;;
  cacheSave ;;;
  file <- gets merkleStateFile ;;
  if present file then
    if writable file then setMerkleStateFile (mkStateFile Absent true)
    else throw WriteRefused
  else ret tt.

End WithCollaborators.

End Indexer.

(* ================================================================== *)
(** ** The benchmark dataset loader *)
(* ================================================================== *)

Module DatasetLoader.

(** Rows of the cached JSONL files, by the keys the loader reads; a key
    that is absent is [None]. Scores are integers. *)
Record CorpusRow : Type := mkCorpusRow {
  row_id : option string;
  row_text : option string;
  row_title : option string
}.

Record QrelRow : Type := mkQrelRow {
  query_id : option string;
  query_dash_id : option string;
  corpus_id : option string;
  corpus_dash_id : option string;
  score : option Z
}.

Record CorpusEntry : Type := mkCorpus {
  corpusEntryId : string;
  corpusText : string;
  corpusTitle : option string
}.

Record BenchmarkQuery : Type := mkQuery {
  queryId : string;
  queryText : string
}.

Record BenchmarkDataset : Type := mkDataset {
  name : string;
  queries : list BenchmarkQuery;
  corpus : list CorpusEntry;
  qrels : JsMap.t (JsMap.t Z)
}.

Record Options : Type := mkOptions {
  maxCorpus : option nat;
  maxQueries : option nat
}.

(** [String(a ?? b ?? '')] and [String(row['_id'])]. *)
Definition firstOf (a b : option string) : string :=
  match a, b with
  | Some x, _ => x
  | None, Some y => y
  | None, None => ""
  end.

Definition stringOf (a : option string) : string :=
  match a with
  | Some x => x
  | None => "undefined"
  end.

Definition qrelStep (st : JsMap.t (JsMap.t Z) * JsSet.t) (row : QrelRow)
  : JsMap.t (JsMap.t Z) * JsSet.t :=
  let (rels, relevantCorpusIds) := st in
  let qid := firstOf (query_id row) (query_dash_id row) in
  let cid := firstOf (corpus_id row) (corpus_dash_id row) in
  let sc := match score row with Some z => z | None => 1%Z end in
  let inner := match JsMap.get rels qid with Some m => m | None => JsMap.empty end in
  (JsMap.set rels qid (JsMap.set inner cid sc),
   if (0 <? sc)%Z then JsSet.add relevantCorpusIds cid else relevantCorpusIds).

Definition toEntry (row : CorpusRow) : CorpusEntry :=
  mkCorpus (stringOf (row_id row))
           (match row_text row with Some t => t | None => "" end)
           (if Chunker.truthy (row_title row) then row_title row else None).

Definition addRelevant (relevantCorpusIds : JsSet.t) (m : JsMap.t CorpusEntry)
           (row : CorpusRow) : JsMap.t CorpusEntry :=
  let id := stringOf (row_id row) in
  if JsSet.has relevantCorpusIds id then JsMap.set m id (toEntry row) else m.

(** The fill loop, which breaks once the map holds [cap] entries. *)
Fixpoint fillDistractors (cap : nat) (rows : list CorpusRow) (m : JsMap.t CorpusEntry)
  : JsMap.t CorpusEntry :=
  match rows with
  | [] => m
  | row :: rest =>
      if (cap <=? JsMap.size m)%nat then m
      else
        let id := stringOf (row_id row) in
        fillDistractors cap rest
          (if JsMap.has m id then m else JsMap.set m id (toEntry row))
  end.

Definition buildCorpus (opts : Options) (relevantCorpusIds : JsSet.t)
           (corpusRaw : list CorpusRow) : list CorpusEntry :=
  match maxCorpus opts with
  | Some (S _ as cap) =>
      if (cap <? List.length corpusRaw)%nat then
        JsMap.values
          (fillDistractors cap corpusRaw
             (fold_left (addRelevant relevantCorpusIds) corpusRaw JsMap.empty))
      else map toEntry corpusRaw
  | _ => map toEntry corpusRaw
  end.

Definition survives (rels : JsMap.t (JsMap.t Z)) (corpusIds : JsSet.t)
           (q : BenchmarkQuery) : bool :=
  match JsMap.get rels (queryId q) with
  | None => false
  | Some judged => existsb (JsSet.has corpusIds) (JsMap.keys judged)
  end.

(** [load], from the three cached files on. *)
Definition load (datasetId : string) (opts : Options)
           (corpusRaw : list CorpusRow) (qrelsRaw : list QrelRow)
           (queriesRaw : list CorpusRow) : BenchmarkDataset :=
  let (rels, relevantCorpusIds) :=
    fold_left qrelStep qrelsRaw (JsMap.empty, JsSet.empty) in
  let corpusEntries := buildCorpus opts relevantCorpusIds corpusRaw in
  let allQueries :=
    map (fun row => mkQuery (stringOf (row_id row))
                            (match row_text row with Some t => t | None => "" end))
        queriesRaw in
  let corpusIds := JsSet.of_list (map corpusEntryId corpusEntries) in
  let filteredQueries := filter (survives rels corpusIds) allQueries in
  let finalQueries :=
    match maxQueries opts with
    | Some (S _ as cap) =>
        if (cap <? List.length filteredQueries)%nat
        then Js.slice 0 cap filteredQueries
        else filteredQueries
    | _ => filteredQueries
    end in
  mkDataset datasetId finalQueries corpusEntries rels.

End DatasetLoader.

(* ================================================================== *)
(** ** src/storage/cache.ts: pruning the EmbeddingCache *)
(* ================================================================== *)

Module EmbeddingCache.

Import Eff.
Local Open Scope eff_scope.

(** [get], [set], [save] and [clear] are [Indexer.cacheGet],
    [Indexer.cacheSet], [Indexer.cacheSave] and [Indexer.cacheClear]. *)

(** [prune]: the loop walks the entries of the map and deletes the ones
    it finds too old; deleting the entry under the iterator does not
    disturb the walk over the later ones. *)
Definition pruneStep (now maxAgeMs : Z) (st : JsMap.t CacheEntry * nat)
           (kv : string * CacheEntry) : JsMap.t CacheEntry * nat :=
  let (store, removed) := st in
  if (maxAgeMs <? now - entryTimestamp (snd kv))%Z
  then (JsMap.delete store (fst kv), S removed)
  else (store, removed).

Definition prune (maxAgeMs : Z) : M nat :=
  now <- dateNow ;;
  store <- gets cacheStore ;;
  dirty <- gets cacheDirty ;;
  let (store', removed) := fold_left (pruneStep now maxAgeMs) store (store, 0) in
  setCache store' (if (0 <? removed)%nat then true else dirty) ;;;
  ret removed.

End EmbeddingCache.

(* ================================================================== *)
(** ** src/embedding/embedder.ts: the OpenAI request path *)
(* ================================================================== *)

Module Embedder.

Import Eff.

Definition MAX_CHARS : nat := 24 * 1000.
Definition MAX_TOKENS_PER_REQUEST : nat := 6 * 1000.
Definition MAX_INPUTS_PER_REQUEST : nat := 2048.

(** [_truncateForOpenAI]. *)
Definition truncateForOpenAI (text : string) : string :=
  if (String.length text <=? MAX_CHARS)%nat then text
  else String.substring 0 MAX_CHARS text.

(** [_estimateTokens]: [Math.ceil(text.length / 3)]. *)
Definition estimateTokens (text : string) : nat := (String.length text + 2) / 3.

(** A call that posts requests: its outcome and the input arrays of the
    requests it posted, oldest first. *)
Definition Posting (A : Type) : Type := (Exn + A) * list (list string).

Section WithEndpoint.

(** The embeddings endpoint: the answer to a request with the given
    inputs, sorted by index, or the error of a response that is not ok. *)
Variable endpoint : list string -> Exn + list Vector.

(** [_openaiEmbed]. *)
Definition openaiEmbed (texts : list string) : Posting (list Vector) :=
  let safeTexts := map truncateForOpenAI texts in
  (endpoint safeTexts, [safeTexts]).

(** The inner [for] loop of [_openaiBatchEmbed], from [texts[i]] on. *)
Fixpoint packBatch (rest : list string) (batch : list string) (batchTokens : nat)
  : list string :=
  match rest with
  | [] => batch
  | text :: later =>
      let tokensForThis := estimateTokens text in
      match batch with
      | [] => packBatch later (batch ++ [text]) (batchTokens + tokensForThis)
      | _ =>
          if (MAX_TOKENS_PER_REQUEST <? batchTokens + tokensForThis)%nat
             || (MAX_INPUTS_PER_REQUEST <=? List.length batch)%nat
          then batch
          else packBatch later (batch ++ [text]) (batchTokens + tokensForThis)
      end
  end.

(** The [while] loop over [batchStart]; [texts] is what lies at and after
    [batchStart]. Every round takes at least one text, so the number of
    texts is enough fuel. *)
Fixpoint openaiBatchEmbed_go (fuel : nat) (texts : list string)
         (all : list Vector) (posted : list (list string)) : Posting (list Vector) :=
  match texts, fuel with
  | [], _ => (inr all, posted)
  | _, O => (inr all, posted)
  | _, S fuel' =>
      let batch := packBatch texts [] 0 in
      match openaiEmbed batch with
      | (inl e, sent) => (inl e, posted ++ sent)
      | (inr embeddings, sent) =>
          openaiBatchEmbed_go fuel' (skipn (List.length batch) texts)
                              (all ++ embeddings) (posted ++ sent)
      end
  end.

Definition openaiBatchEmbed (texts : list string) : Posting (list Vector) :=
  openaiBatchEmbed_go (List.length texts) texts [] [].

End WithEndpoint.

End Embedder.

(* ================================================================== *)
(** * Specification-side definitions and worked inputs *)
(* ================================================================== *)

(** ** Record ids (vector-store.ts, [sha256ToUuid]) *)

Definition isLowerHex (c : ascii) : bool :=
  let n := N_of_ascii c in
  (((48 <=? n) && (n <=? 57)) || ((97 <=? n) && (n <=? 102)))%N.

(** A SHA-256 digest in lowercase hexadecimal: 64 characters of 0-9a-f. *)
Definition isSha256Hex (h : string) : bool :=
  (String.length h =? 64)%nat && forallb isLowerHex (list_ascii_of_string h).

(** The 8-4-4-4-12 layout: where the dashes stand, and which character of
    the hash stands at each other index of the id. *)
Definition isDashIndex (i : nat) : bool :=
  (i =? 8)%nat || (i =? 13)%nat || (i =? 18)%nat || (i =? 23)%nat.

Definition hashIndex (i : nat) : nat :=
  i - (if (23 <? i)%nat then 4 else if (18 <? i)%nat then 3
       else if (13 <? i)%nat then 2 else if (8 <? i)%nat then 1 else 0).

Definition layoutChar (h : string) (i : nat) : option ascii :=
  if isDashIndex i then Some "-"%char else String.get (hashIndex i) h.

(** ** Chunk materialisation and the merge pass (ast-chunker.ts) *)

(** The lines at the 0-based indices [lo..hi], those that exist. *)
Definition linesRange (lines : list string) (lo hi : nat) : list string :=
  flat_map (fun j => match nth_error lines j with
                     | Some l => [l]
                     | None => []
                     end)
           (seq lo (S hi - lo)).

(** The cached token count of the merge loop is the estimate of the
    current segment. *)
Definition coherent (lines : list string) (st : Chunker.MergeState) : Prop :=
  Chunker.currentTokens st
  = Chunker.estimateTokens lines (Chunker.startLine (Chunker.current st))
                           (Chunker.endLine (Chunker.current st)).

Definition tokensOf (lines : list string) (seg : Chunker.Segment) : nat :=
  Chunker.estimateTokens lines (Chunker.startLine seg) (Chunker.endLine seg).

(** Two segments share a line. *)
Definition overlap (s1 s2 : Chunker.Segment) : Prop :=
  Chunker.startLine s1 <= Chunker.endLine s2
  /\ Chunker.startLine s2 <= Chunker.endLine s1.

(** A worked input: a class whose first field is long enough to push the
    class over the default ceiling of 512 tokens, with a trailing comment
    on the line of that field.
<<
class A {
  x = 'aaa...a'; // note
  y = 2;
}
>>
    [demoTree] is the tree the TypeScript grammar gives for it; the text of
    a node is filled in where the chunker reads it (names). *)
Definition longLiteral : string := String.concat "" (repeat "a" 2100).

Definition demoLines : list string :=
  [ "class A {";
    String.append "  x = '" (String.append longLiteral "'; // note");
    "  y = 2;";
    "}" ].

Definition demoSource : string := Js.join Chunker.newline demoLines.

Definition demoBody : Chunker.SyntaxNode :=
  Chunker.mkNode (Some "body") "class_body" 0 3 ""
    [ Chunker.mkNode None "{" 0 0 "{" [];
      Chunker.mkNode None "public_field_definition" 1 1 ""
        [ Chunker.mkNode (Some "name") "property_identifier" 1 1 "x" [];
          Chunker.mkNode None "=" 1 1 "=" [];
          Chunker.mkNode (Some "value") "string" 1 1 "" [] ];
      Chunker.mkNode None ";" 1 1 ";" [];
      Chunker.mkNode None "comment" 1 1 "// note" [];
      Chunker.mkNode None "public_field_definition" 2 2 "y = 2"
        [ Chunker.mkNode (Some "name") "property_identifier" 2 2 "y" [];
          Chunker.mkNode None "=" 2 2 "=" [];
          Chunker.mkNode (Some "value") "number" 2 2 "2" [] ];
      Chunker.mkNode None ";" 2 2 ";" [];
      Chunker.mkNode None "}" 3 3 "}" [] ].

Definition demoTree : Chunker.SyntaxNode :=
  Chunker.mkNode None "program" 0 3 ""
    [ Chunker.mkNode None "class_declaration" 0 3 ""
        [ Chunker.mkNode None "class" 0 0 "class" [];
          Chunker.mkNode (Some "name") "type_identifier" 0 0 "A" [];
          demoBody ] ].

Definition demoParse (tsx : bool) (text : string) : Chunker.SyntaxNode := demoTree.

(** The class as a segment with its two recorded children. *)
Definition demoClass : Chunker.Segment :=
  Chunker.mkSegment 0 3 "class_declaration" (Some "A")
    [ Chunker.mkSegment 1 1 "public_field_definition" (Some "x") [] None;
      Chunker.mkSegment 1 2 "public_field_definition" (Some "y") [] None ]
    None.

Definition demoChunks : list Chunker.CodeChunk :=
  Chunker.chunkFile 512 30 demoParse "demo.ts" demoSource.

(** ** The indexing pipeline (indexer.ts) *)

(** What [hashFiles] answers, read off the file system: the files that can
    be read, each with the digest of its content. *)
Definition hashesOf (fs : JsMap.t Eff.FileState) (filePaths : list string)
  : list (string * string) :=
  flat_map (fun p => match JsMap.get fs p with
                     | Some (Eff.Readable text) => [(p, Sha256.hex text)]
                     | _ => []
                     end) filePaths.

(** The summary a run builds, and the one it loads. *)
Definition newSummary (scanDirectory : JsMap.t Eff.FileState -> list string)
           (relativeToRoot : string -> string) (w : Eff.World)
  : list Merkle.MerkleNode :=
  Merkle.tsBuildMerkleTree
    (map (fun h => Merkle.mkEntry (relativeToRoot (fst h)) (snd h))
         (hashesOf (Eff.files w) (scanDirectory (Eff.files w)))).

Definition previousSummary (w : Eff.World) : list Merkle.MerkleNode :=
  match Eff.stored (Eff.merkleStateFile w) with
  | Eff.Parsed nodes => nodes
  | _ => []
  end.

Definition isReport (e : Eff.Event) : Prop :=
  match e with
  | Eff.Report _ _ => True
  | _ => False
  end.

(** ** The retriever and the benchmark loader *)

(** A query has a judged corpus id of positive relevance that is in the
    loaded corpus. *)
Definition hasPositiveInCorpus (ds : DatasetLoader.BenchmarkDataset)
           (q : DatasetLoader.BenchmarkQuery) : bool :=
  match JsMap.get (DatasetLoader.qrels ds) (DatasetLoader.queryId q) with
  | None => false
  | Some judged =>
      existsb (fun cs => (0 <? snd cs)%Z
                         && existsb (String.eqb (fst cs))
                                    (map DatasetLoader.corpusEntryId
                                         (DatasetLoader.corpus ds)))
              judged
  end.

(** A worked input for the loader: three corpus rows capped at two, one
    query judged only at relevance 0, one judged at relevance 1. *)
Definition benchCorpus : list DatasetLoader.CorpusRow :=
  [ DatasetLoader.mkCorpusRow (Some "c1") (Some "add two numbers") None;
    DatasetLoader.mkCorpusRow (Some "c2") (Some "subtract") None;
    DatasetLoader.mkCorpusRow (Some "c3") (Some "sort an array") None ].

Definition benchQrels : list DatasetLoader.QrelRow :=
  [ DatasetLoader.mkQrelRow (Some "q1") None (Some "c1") None (Some 0%Z);
    DatasetLoader.mkQrelRow (Some "q2") None (Some "c3") None (Some 1%Z) ].

Definition benchQueries : list DatasetLoader.CorpusRow :=
  [ DatasetLoader.mkCorpusRow (Some "q1") (Some "addition") None;
    DatasetLoader.mkCorpusRow (Some "q2") (Some "sorting") None ].

Definition benchLoaded : DatasetLoader.BenchmarkDataset :=
  DatasetLoader.load "demo" (DatasetLoader.mkOptions (Some 2) None)
                     benchCorpus benchQrels benchQueries.

(** A state file that was never written, where writing is possible. *)
Definition unwritten {A : Type} : Eff.StateFile A := Eff.mkStateFile Eff.Absent true.

(** A world in which the collection was never created. *)
Definition noCollection : Eff.World :=
  Eff.mkWorld [] unwritten unwritten [] false None [] [].

Definition noRank (pts : list Eff.Point) (v : Eff.Vector) (k : nat)
  : list Eff.VectorSearchResult := [].

Definition unitEmbed (query : string) : Eff.Exn + Eff.Vector := inr [1%Q].

(** Worked runs of the pipeline over one file, [demo.ts], with stand-ins
    for the collaborators: the scanner lists every file of the table, the
    root is the current directory, every text embeds to the same vector. *)
Definition demoScan (fs : JsMap.t Eff.FileState) : list string := JsMap.keys fs.

Definition demoEmbedBatch (texts : list string) : Eff.Exn + list Eff.Vector :=
  inr (map (fun _ => [1%Q]) texts).

Definition samePath (p : string) : string := p.

Definition demoSummary : list Merkle.MerkleNode :=
  Merkle.tsBuildMerkleTree [Merkle.mkEntry "demo.ts" (Sha256.hex demoSource)].

(** Before the first run, and with the summary of a finished run. *)
Definition freshWorld : Eff.World :=
  Eff.mkWorld [("demo.ts", Eff.Readable demoSource)] unwritten unwritten [] false
              (Some []) [100%Z; 250%Z; 260%Z; 900%Z] [].

Definition indexedWorld : Eff.World :=
  Eff.mkWorld [("demo.ts", Eff.Readable demoSource)]
              (Eff.mkStateFile (Eff.Parsed demoSummary) true) unwritten [] false
              (Some []) [100%Z; 250%Z] [].

(** ** The Merkle summary (indexer.ts) *)

(** The directories the builder registers for a path: its chain of parents
    up to the root ["."]. *)
Fixpoint ancestors (fuel : nat) (p : string) : list string :=
  match fuel with
  | O => []
  | S fuel' =>
      let parent := Merkle.tsParentPath p in
      if String.eqb parent p || String.eqb parent "." then [parent]
      else parent :: ancestors fuel' parent
  end.

Definition directoriesOf (fileHashes : list Merkle.FileHashEntry) : list string :=
  flat_map (fun fh => ancestors (S (String.length (Merkle.entryPath fh)))
                                (Merkle.entryPath fh))
           fileHashes.

Fixpoint distinct (l : list string) : bool :=
  match l with
  | [] => true
  | x :: rest => negb (existsb (String.eqb x) rest) && distinct rest
  end.

(** A file set: the paths are distinct and none of them is a directory of
    the set (a parent of one of its files, the root included). *)
Definition fileSet (fileHashes : list Merkle.FileHashEntry) : bool :=
  distinct (map Merkle.entryPath fileHashes)
  && forallb (fun fh => negb (existsb (String.eqb (Merkle.entryPath fh))
                                      (directoriesOf fileHashes)))
             fileHashes.

(** The hash a summary gives a path (the empty string when it has none). *)
Definition hashIn (nodes : list Merkle.MerkleNode) (p : string) : string :=
  match find (fun n => String.eqb (Merkle.path n) p) nodes with
  | Some n => Merkle.hash n
  | None => ""
  end.


Definition hashOrderHash (nodes : list Merkle.MerkleNode) (d : Merkle.MerkleNode)
  : string :=
  Sha256.hex (Js.join "" (Js.sort (map (hashIn nodes) (Merkle.children d)))).

(** The file-only projection of a summary. *)
Definition fileEntries (nodes : list Merkle.MerkleNode) : list (string * string) :=
  map (fun n => (Merkle.path n, Merkle.hash n)) (filter Merkle.isFile nodes).

Definition noDiff : Merkle.MerkleDiff := Merkle.mkDiff [] [] [].

(** Two files of one directory, with the digests of their contents. *)
Definition srcFiles : list Merkle.FileHashEntry :=
  [ Merkle.mkEntry "src/a.ts" (Sha256.hex "a");
    Merkle.mkEntry "src/b.ts" (Sha256.hex "b") ].

(** A file beside a directory: the root is hashed before [src] is. *)
Definition rootFiles : list Merkle.FileHashEntry :=
  [ Merkle.mkEntry "a.ts" (Sha256.hex "a");
    Merkle.mkEntry "src/b.ts" (Sha256.hex "b") ].


Definition descendingBy {A} (key : A -> nat) : list A -> Prop :=
  StronglySorted (fun a b => key b <= key a).

(** The paths and the path-to-hash entries of a list of files. *)
Definition pathsOf (X : list Merkle.FileHashEntry) : list string :=
  map Merkle.entryPath X.

Definition entriesOf (X : list Merkle.FileHashEntry) : list (string * string) :=
  map (fun fh => (Merkle.entryPath fh, Merkle.entryHash fh)) X.

Definition FileSet (X : list Merkle.FileHashEntry) : Prop :=
  NoDup (pathsOf X) /\ forall p, In p (pathsOf X) -> ~ In p (directoriesOf X).

Definition setLeaf (n : JsMap.t Merkle.MerkleNode) (fh : Merkle.FileHashEntry) :=
  JsMap.set n (Merkle.entryPath fh) (Merkle.leaf fh).

Definition register (d : JsMap.t JsSet.t) (fh : Merkle.FileHashEntry) :=
  Merkle.registerParents (S (String.length (Merkle.entryPath fh))) d
                         (Merkle.entryPath fh).

Definition addedOf (O N : JsMap.t string) : list string :=
  map fst (filter (fun e => negb (JsMap.has O (fst e))) N).

Definition modifiedOf (O N : JsMap.t string) : list string :=
  map fst (filter (fun e => match JsMap.get O (fst e) with
                            | Some o => negb (String.eqb o (snd e))
                            | None => false
                            end) N).

Fixpoint countChar (c : ascii) (s : string) : nat :=
  match s with
  | EmptyString => 0
  | String d rest => (if Ascii.eqb d c then 1 else 0) + countChar c rest
  end.


Definition keyed (m : JsMap.t Merkle.MerkleNode) : Prop :=
  forall k v, In (k, v) m -> Merkle.path v = k.

(** ** Container expansion and the loader (ast-chunker.ts, dataset loader) *)

(** One segment ends before the other starts. *)
Definition before (a b : Chunker.Segment) : Prop :=
  Chunker.endLine a < Chunker.startLine b.

(** The recorded children lie on rows of their own: the first starts at or
    after row [from], each ends at or after its start, and each starts
    after the row its predecessor ends on. *)
Fixpoint rowsSeparated (from : nat) (kids : list Chunker.Segment) : Prop :=
  match kids with
  | [] => True
  | c :: rest =>
      from <= Chunker.startLine c
      /\ Chunker.startLine c <= Chunker.endLine c
      /\ rowsSeparated (S (Chunker.endLine c)) rest
  end.

(** What the loop of [splitContainer] maintains: the segments pushed so
    far are in order, pairwise apart, and end before row [lastEnd]. *)
Definition apart (st : list Chunker.Segment * nat) : Prop :=
  StronglySorted before (fst st)
  /\ Forall (fun s => Chunker.endLine s < snd st) (fst st).

Definition positiveScores (rels : JsMap.t (JsMap.t Z)) : Prop :=
  forall qid judged cid sc,
    JsMap.get rels qid = Some judged -> In (cid, sc) judged -> (0 < sc)%Z.

(* ================================================================== *)
(** * Definitions for the further properties *)
(* ================================================================== *)

(** ** Expansion and merging, row by row (ast-chunker.ts) *)

(** The segments of [l], in order, tile the rows [from .. to - 1]: each
    starts on the row after its predecessor's last, and none is empty. *)
Fixpoint tiles (from : nat) (l : list Chunker.Segment) (to : nat) : Prop :=
  match l with
  | [] => from = to
  | s :: rest =>
      Chunker.startLine s = from
      /\ from <= Chunker.endLine s
      /\ tiles (S (Chunker.endLine s)) rest to
  end.

(** A segment is within the token ceiling, or it is a single row. *)
Definition withinBudget (maxChunkTokens : nat) (lines : list string)
           (p : Chunker.Segment) : Prop :=
  Chunker.startLine p = Chunker.endLine p
  \/ tokensOf lines p <= maxChunkTokens.

(** The characters [splitByLineCount] counts for the rows [a .. i - 1]. *)
Definition roughChars (lines : list string) (a i : nat) : nat :=
  list_sum (map (Chunker.lineCharsOrZero lines) (seq a (i - a))).

(** What the loop of [splitByLineCount] maintains when it is about to
    read row [i]. *)
Definition lineSplitInv (maxChunkTokens : nat) (seg : Chunker.Segment)
           (lines : list string) (result : list Chunker.Segment)
           (i : nat) (st : Chunker.LineSplit) : Prop :=
  exists ps,
    Chunker.parts st = result ++ ps
    /\ tiles (Chunker.startLine seg) ps (Chunker.chunkStart st)
    /\ Chunker.chunkStart st <= i
    /\ Forall (withinBudget maxChunkTokens lines) ps
    /\ Chunker.chunkChars st = roughChars lines (Chunker.chunkStart st) i
    /\ (Chunker.chunkChars st <= maxChunkTokens * 4 \/ i <= S (Chunker.chunkStart st)).

(** The end rows of the blocks grow strictly, from [last] on. *)
Fixpoint endsIncrease (last : nat) (blocks : list Chunker.Segment) : Prop :=
  match blocks with
  | [] => True
  | b :: rest => last < Chunker.endLine b /\ endsIncrease (Chunker.endLine b) rest
  end.

(** The end rows of the segments never decrease, from [last] on. *)
Fixpoint endsAscend (last : nat) (l : list Chunker.Segment) : Prop :=
  match l with
  | [] => True
  | s :: rest => last <= Chunker.endLine s /\ endsAscend (Chunker.endLine s) rest
  end.

(** Row [r] lies in one of the segments. *)
Definition covered (r : nat) (l : list Chunker.Segment) : Prop :=
  exists s, In s l /\ Chunker.startLine s <= r <= Chunker.endLine s.

(** The top-level children the chunker turns into segments. *)
Definition recognised (c : Chunker.SyntaxNode) : bool :=
  JsSet.has Chunker.SEMANTIC_NODE_TYPES (Chunker.node_type c).

(** ** The shape of a summary and the diff of two (indexer.ts) *)

(** The hash a summary records for a file path: that of the last file
    node with the path, if there is one. *)
Definition fileHash (nodes : list Merkle.MerkleNode) (p : string) : option string :=
  option_map Merkle.hash
    (find (fun n => Merkle.isFile n && String.eqb (Merkle.path n) p) (rev nodes)).

(** In the directory table, [k] is listed as a child of its parent path. *)
Definition linked (dc : JsMap.t JsSet.t) (k : string) : Prop :=
  exists s, JsMap.get dc (Merkle.tsParentPath k) = Some s /\ In k s.

(** Every directory of the table other than the root is linked to its
    parent; [closedBut] leaves out the one the loop is about to link. *)
Definition closed (dc : JsMap.t JsSet.t) : Prop :=
  forall k, In k (JsMap.keys dc) -> k <> "." -> linked dc k.

Definition closedBut (dc : JsMap.t JsSet.t) (cur : string) : Prop :=
  forall k, In k (JsMap.keys dc) -> k <> "." -> k <> cur -> linked dc k.

(** Three files under two directories, and the same after an edit, a
    deletion and an addition. *)
Definition treeFiles : list Merkle.FileHashEntry :=
  [ Merkle.mkEntry "src/a.ts" "h1";
    Merkle.mkEntry "src/lib/b.ts" "h2";
    Merkle.mkEntry "README.md" "h3" ].

Definition treeFilesLater : list Merkle.FileHashEntry :=
  [ Merkle.mkEntry "src/a.ts" "h1x";
    Merkle.mkEntry "README.md" "h3";
    Merkle.mkEntry "src/c.ts" "h4" ].

(** ** Runs of the pipeline (indexer.ts, vector-store.ts, cache.ts) *)

(** What a run leaves on disk besides the collection: the indexed files
    and the two state files. *)
Definition onDisk (w : Eff.World)
  : JsMap.t Eff.FileState * Eff.StateFile (list Merkle.MerkleNode)
    * Eff.StateFile (JsMap.t Eff.CacheEntry) :=
  (Eff.files w, Eff.merkleStateFile w, Eff.cacheFile w).

(** A computation leaves the disk as it found it, whether it returns or
    throws; it never throws. *)
Definition keeps {A} (m : Eff.M A) : Prop :=
  forall w r w', m w = (r, w') -> onDisk w' = onDisk w.

Definition total {A} (m : Eff.M A) : Prop :=
  forall w, exists a w', m w = (inr a, w').

(** The only thing it throws is a write the file system refused. *)
Definition refusals {A} (m : Eff.M A) : Prop :=
  forall w e w', m w = (inl e, w') -> e = Eff.WriteRefused.

(** When it throws anything but a refused write, the disk is as it found
    it. *)
Definition failsafe {A} (m : Eff.M A) : Prop :=
  forall w e w', m w = (inl e, w') -> e <> Eff.WriteRefused -> onDisk w' = onDisk w.


(** An embedding provider that is down. *)
Definition failingEmbedBatch (texts : list string) : Eff.Exn + list Eff.Vector :=
  inl Eff.EmbeddingFailed.

(** The world before the first run, with a cache file that cannot be
    written. *)
Definition lockedCacheWorld : Eff.World :=
  Eff.mkWorld [("demo.ts", Eff.Readable demoSource)] unwritten
              (Eff.mkStateFile Eff.Absent false) [] false
              (Some []) [100%Z; 250%Z; 260%Z; 900%Z] [].

(** A cache entry is older than [maxAgeMs] at time [now]. *)
Definition stale (now maxAgeMs : Z) (kv : string * Eff.CacheEntry) : bool :=
  (maxAgeMs <? now - Eff.entryTimestamp (snd kv))%Z.

(** A world with three cached vectors of different ages. *)
Definition agedCache : Eff.World :=
  Eff.mkWorld [] unwritten unwritten
              [ ("h1", Eff.mkCacheEntry (Some [1%Q]) 100%Z);
                ("h2", Eff.mkCacheEntry (Some [2%Q]) 900%Z);
                ("h3", Eff.mkCacheEntry (Some [3%Q]) 200%Z) ]
              false None [1000%Z] [].

(** ** The retriever, the loader and the embedder *)

(** What a search result carries over from a hit, besides the text. *)
Definition hitFacts (h : Eff.VectorSearchResult)
  : string * nat * nat * Q * string * option string :=
  (Eff.pFilePath (Eff.hitPayload h), Eff.pStartLine (Eff.hitPayload h),
   Eff.pEndLine (Eff.hitPayload h), Eff.hitScore h,
   Eff.pNodeType (Eff.hitPayload h), Eff.pSymbolName (Eff.hitPayload h)).

Definition resultFacts (r : Retriever.SearchResult)
  : string * nat * nat * Q * string * option string :=
  (Retriever.rFilePath r, Retriever.rStartLine r, Retriever.rEndLine r,
   Retriever.rScore r, Retriever.rNodeType r, Retriever.rSymbolName r).

(** A world holding the worked file, and two hits: one into it, one into
    a file that is gone. *)
Definition demoHits : list Eff.VectorSearchResult :=
  [ Eff.mkHit "id1" 1%Q (Eff.mkPayload "demo.ts" 3 4 "h" "class_declaration" (Some "A"));
    Eff.mkHit "id2" 0%Q (Eff.mkPayload "gone.ts" 1 1 "g" "function_declaration" None) ].

(** Some judgment of positive relevance names the corpus id; a judgment
    without a score counts as relevance 1. *)
Definition judgedPositive (qrelsRaw : list DatasetLoader.QrelRow) (cid : string) : Prop :=
  exists row,
    In row qrelsRaw
    /\ DatasetLoader.firstOf (DatasetLoader.corpus_id row)
                             (DatasetLoader.corpus_dash_id row) = cid
    /\ (0 < match DatasetLoader.score row with Some z => z | None => 1 end)%Z.

(** Each entry of the corpus map sits under its own id. *)
Definition selfKeyed (m : JsMap.t DatasetLoader.CorpusEntry) : Prop :=
  forall k e, In (k, e) m -> DatasetLoader.corpusEntryId e = k.

(** The estimated tokens of a request, and what [_openaiBatchEmbed]
    allows in one. *)
Definition requestTokens (inputs : list string) : nat :=
  list_sum (map Embedder.estimateTokens inputs).

Definition withinLimits (inputs : list string) : Prop :=
  1 <= List.length inputs <= Embedder.MAX_INPUTS_PER_REQUEST
  /\ (List.length inputs = 1
      \/ requestTokens inputs <= Embedder.MAX_TOKENS_PER_REQUEST).

(** A stand-in for the embeddings endpoint that answers every request
    with one vector per input. *)
Definition echoEndpoint (inputs : list string) : Eff.Exn + list Eff.Vector :=
  inr (map (fun _ => [1%Q]) inputs).

(** ** Worked inputs for the properties below *)

(** Six short rows, a function over them with three logical blocks, a
    class over them with two methods, and three top-level segments. *)
Definition rowsLines : list string :=
  ["aaaa"; "bbbb"; "cccc"; "dddd"; "eeee"; "ffff"].

Definition rowsFunction : Chunker.Segment :=
  Chunker.mkSegment 0 5 "function_declaration" (Some "f") [] None.

Definition rowsFirstBlock : Chunker.Segment :=
  Chunker.mkSegment 1 2 "if_statement" None [] None.

Definition rowsOtherBlocks : list Chunker.Segment :=
  [ Chunker.mkSegment 3 3 "expression_statement" None [] None;
    Chunker.mkSegment 4 4 "return_statement" None [] None ].

Definition rowsClass : Chunker.Segment :=
  Chunker.mkSegment 0 5 "class_declaration" (Some "A")
    [ Chunker.mkSegment 1 2 "method_definition" (Some "m") [] None;
      Chunker.mkSegment 3 4 "method_definition" (Some "n") [] None ]
    None.

Definition rowsSegments : list Chunker.Segment :=
  [ Chunker.mkSegment 0 1 "import_statement" None [] None;
    Chunker.mkSegment 2 3 "function_declaration" (Some "f") [] None;
    Chunker.mkSegment 4 5 "lexical_declaration" (Some "x") [] None ].

(** One point to store, under the digest of its text. *)
Definition demoPoints : list Eff.Point :=
  [ Eff.mkPoint (Sha256.hex "a") (Some [1%Q])
                (Eff.mkPayload "demo.ts" 1 1 (Sha256.hex "a") "import_statement" None) ].

(** Judgments that are all of positive relevance. *)
Definition positiveQrels : list DatasetLoader.QrelRow :=
  [ DatasetLoader.mkQrelRow (Some "q1") None (Some "c1") None (Some 2%Z);
    DatasetLoader.mkQrelRow (Some "q2") None (Some "c3") None None ].

(* ================================================================== *)
(** * Properties *)
(* ================================================================== *)

(** ** Insertion-ordered maps *)

Lemma get_set_same {V} (m : JsMap.t V) (k : string) (v : V) :
  JsMap.get (JsMap.set m k v) k = Some v.
Proof.
  induction m as [|[k' v'] m IH]; simpl.
  - now rewrite String.eqb_refl.
  - destruct (String.eqb k k') eqn:E; simpl.
    + now rewrite String.eqb_refl.
    + now rewrite E.
Qed.

Lemma get_set_other {V} (m : JsMap.t V) (k k' : string) (v : V) :
  k <> k' -> JsMap.get (JsMap.set m k v) k' = JsMap.get m k'.
Proof.
  intros N. induction m as [|[k0 v0] m IH]; simpl.
  - apply String.eqb_neq in N. rewrite String.eqb_sym in N. now rewrite N.
  - destruct (String.eqb k k0) eqn:E; simpl.
    + apply String.eqb_eq in E. subst k0.
      apply String.eqb_neq in N. rewrite String.eqb_sym in N. now rewrite N.
    + now rewrite IH.
Qed.

Lemma get_none_keys {V} (m : JsMap.t V) (k : string) :
  JsMap.get m k = None <-> ~ In k (JsMap.keys m).
Proof.
  induction m as [|[k' v'] m IH]; simpl.
  - tauto.
  - destruct (String.eqb k k') eqn:E.
    + apply String.eqb_eq in E. subst. split; [discriminate|intuition congruence].
    + apply String.eqb_neq in E. rewrite IH. intuition congruence.
Qed.

Lemma get_some_keys {V} (m : JsMap.t V) (k : string) (v : V) :
  JsMap.get m k = Some v -> In k (JsMap.keys m).
Proof.
  intros H. destruct (in_dec string_dec k (JsMap.keys m)) as [I|N]; [exact I|].
  apply get_none_keys in N. congruence.
Qed.

Lemma set_new {V} (m : JsMap.t V) (k : string) (v : V) :
  ~ In k (JsMap.keys m) -> JsMap.set m k v = m ++ [(k, v)].
Proof.
  induction m as [|[k' v'] m IH]; simpl; intros N; [reflexivity|].
  destruct (String.eqb k k') eqn:E.
  - apply String.eqb_eq in E. intuition congruence.
  - rewrite IH; [reflexivity|tauto].
Qed.

Lemma keys_set_old {V} (m : JsMap.t V) (k : string) (v : V) :
  In k (JsMap.keys m) -> JsMap.keys (JsMap.set m k v) = JsMap.keys m.
Proof.
  induction m as [|[k' v'] m IH]; simpl; intros I; [tauto|].
  destruct (String.eqb k k') eqn:E; simpl.
  - apply String.eqb_eq in E. now subst.
  - apply String.eqb_neq in E. f_equal. apply IH. destruct I; congruence.
Qed.

Lemma keys_set_in {V} (m : JsMap.t V) (k k' : string) (v : V) :
  In k' (JsMap.keys (JsMap.set m k v)) <-> k' = k \/ In k' (JsMap.keys m).
Proof.
  destruct (in_dec string_dec k (JsMap.keys m)) as [I|N].
  - rewrite keys_set_old by exact I. split; [tauto|]. intros [->|?]; tauto.
  - rewrite set_new by exact N. unfold JsMap.keys. rewrite map_app, in_app_iff.
    simpl. intuition congruence.
Qed.

Lemma keys_set_nodup {V} (m : JsMap.t V) (k : string) (v : V) :
  NoDup (JsMap.keys m) -> NoDup (JsMap.keys (JsMap.set m k v)).
Proof.
  intros H. destruct (in_dec string_dec k (JsMap.keys m)) as [I|N].
  - now rewrite keys_set_old.
  - rewrite set_new by exact N. unfold JsMap.keys. rewrite map_app. simpl.
    apply NoDup_app_remove_l with (l := []). simpl.
    apply Permutation_NoDup with (l := k :: map fst m).
    + apply Permutation_cons_append.
    + now constructor.
Qed.

Lemma get_in {V} (m : JsMap.t V) (k : string) (v : V) :
  NoDup (JsMap.keys m) -> In (k, v) m -> JsMap.get m k = Some v.
Proof.
  induction m as [|[k' v'] m IH]; simpl; intros D I; [tauto|].
  inversion D as [|? ? Hn Hd]; subst.
  destruct I as [E|I].
  - inversion E; subst. now rewrite String.eqb_refl.
  - destruct (String.eqb k k') eqn:E.
    + apply String.eqb_eq in E. subst k'. exfalso. apply Hn.
      change k with (fst (k, v)). now apply in_map.
    + now apply IH.
Qed.

Lemma get_in_inv {V} (m : JsMap.t V) (k : string) (v : V) :
  JsMap.get m k = Some v -> In (k, v) m.
Proof.
  induction m as [|[k' v'] m IH]; simpl; [discriminate|].
  destruct (String.eqb k k') eqn:E.
  - apply String.eqb_eq in E. intros H. inversion H; subst. now left.
  - intros H. right. now apply IH.
Qed.

Lemma of_list_acc {V} (l : list (string * V)) (m : JsMap.t V) :
  NoDup (JsMap.keys m ++ map fst l) ->
  fold_left (fun m kv => JsMap.set m (fst kv) (snd kv)) l m = m ++ l.
Proof.
  revert m. induction l as [|[k v] l IH]; intros m D; simpl.
  - now rewrite app_nil_r.
  - simpl in D. rewrite set_new.
    + rewrite IH.
      * now rewrite <- app_assoc.
      * unfold JsMap.keys in *. rewrite map_app. simpl. now rewrite <- app_assoc.
    + apply NoDup_remove_2 in D. intros I. apply D. apply in_app_iff. now left.
Qed.

Lemma of_list_nodup {V} (l : list (string * V)) :
  NoDup (map fst l) -> JsMap.of_list l = l.
Proof. intros D. unfold JsMap.of_list. now rewrite of_list_acc. Qed.

Lemma of_list_keys_nodup {V} (l : list (string * V)) :
  NoDup (JsMap.keys (JsMap.of_list l)).
Proof.
  unfold JsMap.of_list.
  assert (G : forall m : JsMap.t V, NoDup (JsMap.keys m) ->
              NoDup (JsMap.keys
                       (fold_left (fun m kv => JsMap.set m (fst kv) (snd kv)) l m))).
  { induction l as [|kv l IH]; intros m D; simpl; [exact D|].
    apply IH. now apply keys_set_nodup. }
  apply G. constructor.
Qed.

(** ** Sorting *)

Lemma insert_sorted_perm (x : string) (l : list string) :
  Permutation (x :: l) (Js.insert_sorted x l).
Proof.
  induction l as [|y l IH]; simpl; [reflexivity|].
  destruct (String.leb x y); [reflexivity|].
  rewrite perm_swap. now constructor.
Qed.

Lemma sort_perm (l : list string) : Permutation l (Js.sort l).
Proof.
  induction l as [|x l IH]; simpl; [reflexivity|].
  rewrite <- insert_sorted_perm. now constructor.
Qed.

Lemma sort_in (l : list string) (x : string) : In x (Js.sort l) <-> In x l.
Proof.
  split; apply Permutation_in; [symmetry|]; apply sort_perm.
Qed.





Lemma insert_desc_perm {A} (key : A -> nat) (x : A) (l : list A) :
  Permutation (x :: l) (Js.insert_desc key x l).
Proof.
  induction l as [|y l IH]; simpl; [reflexivity|].
  destruct (key x <=? key y)%nat; [|reflexivity].
  rewrite perm_swap. now constructor.
Qed.

Lemma insert_desc_descending {A} (key : A -> nat) (x : A) (l : list A) :
  descendingBy key l -> descendingBy key (Js.insert_desc key x l).
Proof.
  unfold descendingBy. induction l as [|y l IH]; intros S; simpl.
  - repeat constructor.
  - inversion S as [|? ? S' F]; subst.
    destruct (key x <=? key y)%nat eqn:E.
    + apply Nat.leb_le in E. constructor; [now apply IH|].
      apply Forall_forall. intros z Hz.
      apply (Permutation_in _ (Permutation_sym (insert_desc_perm key x l))) in Hz.
      destruct Hz as [<-|Hz]; [exact E|].
      rewrite Forall_forall in F. now apply F.
    + apply Nat.leb_gt in E. constructor; [exact S|].
      constructor; [lia|].
      rewrite Forall_forall in *. intros z Hz. specialize (F z Hz). lia.
Qed.

Lemma sortByDesc_spec {A} (key : A -> nat) (l : list A) :
  Permutation l (Js.sortByDesc key l) /\ descendingBy key (Js.sortByDesc key l).
Proof.
  unfold Js.sortByDesc.
  assert (G : forall acc,
             descendingBy key acc ->
             Permutation (acc ++ l) (fold_left (fun a x => Js.insert_desc key x a) l acc)
             /\ descendingBy key (fold_left (fun a x => Js.insert_desc key x a) l acc)).
  { induction l as [|x l IH]; intros acc S; simpl.
    - rewrite app_nil_r. now split.
    - destruct (IH (Js.insert_desc key x acc) (insert_desc_descending key x acc S))
        as [P D].
      split; [|exact D].
      rewrite <- P. rewrite <- insert_desc_perm.
      rewrite <- Permutation_middle. reflexivity. }
  apply (G []). constructor.
Qed.

(** ** Record ids (vector-store.ts, [sha256ToUuid]) *)

Ltac peel_string h H :=
  let c := fresh "c" in
  destruct h as [|c h]; [discriminate H|]; simpl in H.

Lemma isSha256Hex_length (h : string) :
  isSha256Hex h = true -> String.length h = 64.
Proof.
  unfold isSha256Hex. intros H.
  apply andb_true_iff in H. destruct H as [H _].
  now apply Nat.eqb_eq in H.
Qed.

Lemma lowerHex_variant (c : ascii) :
  isLowerHex c = true ->
  In (Sha256.hex_digit
        (VectorStore.variantNibble (VectorStore.parseHexDigit (String c ""))))
     ["8"; "9"; "a"; "b"]%char.
Proof.
  destruct c as [[] [] [] [] [] [] [] []]; intros H;
    try discriminate H; vm_compute; tauto.
Qed.

(** C8. For a 64-character lowercase-hex digest, the record id has the
    36 characters of the 8-4-4-4-12 layout over the first 32 characters of
    the digest, except that index 14 holds '5' and index 19 holds one of
    '8', '9', 'a', 'b'. *)
Theorem sha256ToUuid_shape (h : string) :
  isSha256Hex h = true ->
  String.length (VectorStore.sha256ToUuid h) = 36 /\
  (forall i, i < 36 -> i <> 14 -> i <> 19 ->
             String.get i (VectorStore.sha256ToUuid h) = layoutChar h i) /\
  String.get 14 (VectorStore.sha256ToUuid h) = Some "5"%char /\
  (exists v, String.get 19 (VectorStore.sha256ToUuid h) = Some v /\
             In v ["8"; "9"; "a"; "b"]%char).
Proof.
  intros H.
  pose proof (isSha256Hex_length h H) as L.
  assert (Hex : forall c, In c (list_ascii_of_string h) -> isLowerHex c = true).
  { unfold isSha256Hex in H. apply andb_true_iff in H. destruct H as [_ H].
    intros c. now apply forallb_forall. }
  clear H.
  do 64 peel_string h L.
  destruct h; [clear L|discriminate L].
  assert (H16 : isLowerHex c15 = true).
  { apply Hex. simpl. do 16 right. now left. }
  clear Hex.
  pose proof (lowerHex_variant c15 H16) as V.
  set (id := VectorStore.sha256ToUuid _).
  cbv - [Sha256.hex_digit VectorStore.variantNibble VectorStore.parseHexDigit] in id.
  subst id.
  split; [reflexivity|].
  split; [|split; [reflexivity|]].
  - intros i Hi H14 H19.
    do 36 (destruct i as [|i]; [first [reflexivity | congruence]|]).
    exfalso. lia.
  - eexists. split; [reflexivity|exact V].
Qed.

Example sha256ToUuid_shape_witness :
  isSha256Hex "ba7816bf8f01cfea414140de5dae2223b00361a396177a9cb410ff61f20015ad" = true /\
  String.get 14 (VectorStore.sha256ToUuid
                   "ba7816bf8f01cfea414140de5dae2223b00361a396177a9cb410ff61f20015ad")
  = Some "5"%char.
Proof.
  split; [reflexivity|].
  apply (sha256ToUuid_shape
           "ba7816bf8f01cfea414140de5dae2223b00361a396177a9cb410ff61f20015ad").
  reflexivity.
Defined.

(** ** Digests *)

Lemma hex_digit_lower (n : N) : (n < 16)%N -> isLowerHex (Sha256.hex_digit n) = true.
Proof.
  intros H.
  assert (C : In n (map N.of_nat (seq 0 16))).
  { apply in_map_iff. exists (N.to_nat n). split; [apply N2Nat.id|].
    apply in_seq. lia. }
  simpl in C.
  repeat (destruct C as [<-|C]; [reflexivity|]). destruct C.
Qed.

Lemma nibble_bound (x : N) : (N.land x 0xF < 16)%N.
Proof.
  change 0xF%N with (N.ones 4). rewrite N.land_ones.
  apply N.mod_lt. discriminate.
Qed.

Lemma hex_of_word_shape (w : N) :
  String.length (Sha256.hex_of_word w) = 8
  /\ forallb isLowerHex (list_ascii_of_string (Sha256.hex_of_word w)) = true.
Proof.
  unfold Sha256.hex_of_word. cbn [seq map string_of_list_ascii].
  split; [reflexivity|].
  cbn [list_ascii_of_string forallb].
  rewrite !hex_digit_lower by apply nibble_bound. reflexivity.
Qed.

Lemma list_ascii_of_append (s t : string) :
  list_ascii_of_string (String.append s t)
  = list_ascii_of_string s ++ list_ascii_of_string t.
Proof. induction s as [|c s IH]; simpl; [reflexivity|now rewrite IH]. Qed.

Lemma append_length (s t : string) :
  String.length (String.append s t) = String.length s + String.length t.
Proof. induction s as [|c s IH]; simpl; [reflexivity|now rewrite IH]. Qed.

Lemma hex_words_shape (ws : list N) :
  String.length (String.concat "" (map Sha256.hex_of_word ws)) = 8 * List.length ws
  /\ forallb isLowerHex
       (list_ascii_of_string (String.concat "" (map Sha256.hex_of_word ws))) = true.
Proof.
  induction ws as [|w ws [L F]]; [now split|].
  destruct (hex_of_word_shape w) as [Lw Fw].
  cbn [map String.concat].
  destruct (map Sha256.hex_of_word ws) as [|x xs] eqn:E.
  - destruct ws; [|discriminate E]. cbv beta iota. rewrite Lw, Fw.
    split; reflexivity.
  - cbv beta iota.
    change (String.append "" ?t) with t.
    rewrite append_length, list_ascii_of_append, forallb_app.
    rewrite Lw, Fw, L, F.
    split; [cbn [List.length]; lia|reflexivity].
Qed.

(** Every digest is 64 characters of lowercase hexadecimal, so every
    content hash of a chunk is an input [sha256ToUuid] is specified on. *)
Lemma hex_is_sha256Hex (s : string) : isSha256Hex (Sha256.hex s) = true.
Proof.
  unfold isSha256Hex, Sha256.hex, Sha256.digest_words.
  set (st := fold_left _ _ _).
  destruct (hex_words_shape
              [Sha256.sa st; Sha256.sb st; Sha256.sc st; Sha256.sd st;
               Sha256.se st; Sha256.sf st; Sha256.sg st; Sha256.sh st]) as [L F].
  rewrite L, F. reflexivity.
Qed.
(** ** Chunk materialisation and the merge pass (ast-chunker.ts) *)

Lemma firstn_skipn_range {A} (n a : nat) (l : list A) :
  firstn n (skipn a l)
  = flat_map (fun j => match nth_error l j with
                       | Some x => [x]
                       | None => []
                       end) (seq a n).
Proof.
  revert a l. induction n as [|n IH]; intros a l; [reflexivity|].
  simpl seq. simpl flat_map.
  rewrite <- IH.
  revert l. induction a as [|a IHa]; intros [|x l]; simpl;
    try reflexivity; try (now destruct n).
  apply IHa.
Qed.

Lemma slice_linesRange (lines : list string) (a b : nat) :
  Js.slice a (b + 1) lines = linesRange lines a b.
Proof.
  unfold Js.slice, linesRange.
  replace (b + 1 - a) with (S b - a) by lia.
  apply firstn_skipn_range.
Qed.

Section ChunkerProperties.

Variable maxChunkTokens : nat.
Variable minChunkTokens : nat.
Variable parse : bool -> string -> Chunker.SyntaxNode.

Lemma toChunk_faithful (path : string) (lines : list string) (seg : Chunker.Segment) :
  let ch := Chunker.toChunk path lines seg in
  1 <= Chunker.chunkStartLine ch /\
  Chunker.content ch
  = Js.join Chunker.newline
      (linesRange lines (Chunker.chunkStartLine ch - 1) (Chunker.chunkEndLine ch - 1)) /\
  Chunker.contentHash ch = Sha256.hex (Chunker.content ch) /\
  Chunker.chunkId ch = Chunker.contentHash ch.
Proof.
  unfold Chunker.toChunk. simpl.
  rewrite slice_linesRange.
  replace (Chunker.startLine seg + 1 - 1) with (Chunker.startLine seg) by lia.
  replace (Chunker.endLine seg + 1 - 1) with (Chunker.endLine seg) by lia.
  repeat split. lia.
Qed.

(** C1. Every chunk [chunkFile] produces holds the lines of the content at
    the 0-based indices [startLine-1 .. endLine-1] joined by newlines
    (lines being 1-based), its contentHash is the SHA-256 hex digest of
    that text, and its chunkId is its contentHash. *)
Theorem chunkFile_text_and_hash (path text : string) (ch : Chunker.CodeChunk) :
  In ch (Chunker.chunkFile maxChunkTokens minChunkTokens parse path text) ->
  1 <= Chunker.chunkStartLine ch /\
  Chunker.content ch
  = Js.join Chunker.newline
      (linesRange (Js.split "010"%char text)
                  (Chunker.chunkStartLine ch - 1) (Chunker.chunkEndLine ch - 1)) /\
  Chunker.contentHash ch = Sha256.hex (Chunker.content ch) /\
  Chunker.chunkId ch = Chunker.contentHash ch.
Proof.
  unfold Chunker.chunkFile. intros H.
  apply in_map_iff in H. destruct H as [seg [<- _]].
  apply toChunk_faithful.
Qed.

Lemma mergeStep_coherent (lines : list string) (st : Chunker.MergeState)
      (next : Chunker.Segment) :
  coherent lines (Chunker.mergeStep minChunkTokens lines st next).
Proof.
  unfold coherent, Chunker.mergeStep.
  destruct (_ || _); reflexivity.
Qed.

Lemma merge_pass_coherent (lines : list string) (first : Chunker.Segment)
      (others : list Chunker.Segment) :
  coherent lines
    (fold_left (Chunker.mergeStep minChunkTokens lines) others
       (Chunker.mkMerge [] first (tokensOf lines first))).
Proof.
  destruct others as [|x others] using rev_ind; [reflexivity|].
  rewrite fold_left_app. simpl. apply mergeStep_coherent.
Qed.

(** C9. When the merge pass merges the next segment into the current one,
    the merged segment takes the next segment's node kind and symbol name
    exactly when the current estimate is strictly smaller than the next
    one; on equal estimates it keeps the current (left) ones. *)
Theorem mergeStep_label (lines : list string) (st : Chunker.MergeState)
        (next : Chunker.Segment) :
  coherent lines st ->
  tokensOf lines (Chunker.current st) < minChunkTokens
  \/ tokensOf lines next < minChunkTokens ->
  let cur := Chunker.current st in
  let merged := Chunker.current (Chunker.mergeStep minChunkTokens lines st next) in
  Chunker.flushed (Chunker.mergeStep minChunkTokens lines st next) = Chunker.flushed st /\
  Chunker.startLine merged = Chunker.startLine cur /\
  Chunker.endLine merged = Chunker.endLine next /\
  (tokensOf lines cur = tokensOf lines next ->
   Chunker.nodeType merged = Chunker.nodeType cur /\
   Chunker.symbolName merged = Chunker.symbolName cur) /\
  (tokensOf lines cur < tokensOf lines next ->
   Chunker.nodeType merged = Chunker.nodeType next /\
   Chunker.symbolName merged = Chunker.symbolName next) /\
  (tokensOf lines next <= tokensOf lines cur ->
   Chunker.nodeType merged = Chunker.nodeType cur /\
   Chunker.symbolName merged = Chunker.symbolName cur).
Proof.
  intros Hc Hm cur merged. subst cur merged.
  unfold coherent in Hc. unfold tokensOf in *.
  unfold Chunker.mergeStep. rewrite Hc.
  set (ct := Chunker.estimateTokens lines _ _) in *.
  set (nt := Chunker.estimateTokens lines (Chunker.startLine next) _) in *.
  assert (Hb : ((ct <? minChunkTokens) || (nt <? minChunkTokens) = true)%nat).
  { apply orb_true_iff. destruct Hm; [left|right]; now apply Nat.ltb_lt. }
  rewrite Hb.
  destruct (Chunker.current st) as [a b t n cs fb].
  destruct (ct <? nt)%nat eqn:E; simpl.
  - apply Nat.ltb_lt in E. repeat split; intros; try reflexivity; lia.
  - apply Nat.ltb_ge in E. repeat split; intros; try reflexivity; lia.
Qed.

(** On a tie below the floor, a pass over two segments returns the left
    one extended to the end of the right one. *)
Lemma merge_pair_tie (lines : list string) (a b : Chunker.Segment) :
  tokensOf lines a = tokensOf lines b ->
  tokensOf lines a < minChunkTokens ->
  Chunker.mergeSmallSegments minChunkTokens [a; b] lines
  = [Chunker.set_endLine (Chunker.endLine b) a].
Proof.
  unfold tokensOf. intros E L.
  unfold Chunker.mergeSmallSegments, Chunker.mergeStep. simpl.
  rewrite <- E. apply Nat.ltb_lt in L. rewrite L. simpl.
  now rewrite Nat.ltb_irrefl.
Qed.

(** The id of every chunk is a digest [sha256ToUuid] is specified on. *)
Lemma chunk_ids_are_digests (path text : string) (ch : Chunker.CodeChunk) :
  In ch (Chunker.chunkFile maxChunkTokens minChunkTokens parse path text) ->
  isSha256Hex (Chunker.chunkId ch) = true.
Proof.
  unfold Chunker.chunkFile. intros H.
  apply in_map_iff in H. destruct H as [seg [<- _]].
  apply hex_is_sha256Hex.
Qed.

End ChunkerProperties.

Example chunkFile_text_and_hash_witness :
  In (nth 0 demoChunks (Chunker.mkChunk "" "" 0 0 "" "" "" None)) demoChunks /\
  Chunker.chunkId (nth 0 demoChunks (Chunker.mkChunk "" "" 0 0 "" "" "" None))
  = Chunker.contentHash (nth 0 demoChunks (Chunker.mkChunk "" "" 0 0 "" "" "" None)).
Proof.
  split.
  - vm_compute. left. reflexivity.
  - apply (chunkFile_text_and_hash 512 30 demoParse "demo.ts" demoSource).
    vm_compute. left. reflexivity.
Defined.

Example mergeStep_label_witness :
  coherent ["aaaa"; "bbbb"]
           (Chunker.mkMerge [] (Chunker.mkSegment 0 0 "import_statement" (Some "left") [] None) 2) /\
  Chunker.nodeType
    (Chunker.current
       (Chunker.mergeStep 30 ["aaaa"; "bbbb"]
          (Chunker.mkMerge [] (Chunker.mkSegment 0 0 "import_statement" (Some "left") [] None) 2)
          (Chunker.mkSegment 1 1 "lexical_declaration" (Some "right") [] None)))
  = "import_statement".
Proof.
  split; [reflexivity|].
  apply (mergeStep_label 30 ["aaaa"; "bbbb"]
           (Chunker.mkMerge [] (Chunker.mkSegment 0 0 "import_statement" (Some "left") [] None) 2)
           (Chunker.mkSegment 1 1 "lexical_declaration" (Some "right") [] None)).
  - reflexivity.
  - left. vm_compute. lia.
  - reflexivity.
Defined.

(** *** The recursion of [expandSegment] *)

Lemma setLastEndLine_children (e : nat) (l : list Chunker.Segment) :
  Forall (fun s => Chunker.children s = []) l ->
  Forall (fun s => Chunker.children s = []) (Chunker.setLastEndLine e l).
Proof.
  intros H. unfold Chunker.setLastEndLine.
  destruct (rev l) as [|x before] eqn:E; [exact H|].
  assert (Hr : Forall (fun s => Chunker.children s = []) (rev l))
    by now apply Forall_rev.
  rewrite E in Hr. inversion Hr as [|? ? Hx Hb]; subst.
  apply Forall_app. split.
  - now apply Forall_rev.
  - constructor; [|constructor]. now destruct x.
Qed.

Lemma splitContainer_children (minChunkTokens : nat) (seg : Chunker.Segment)
      (lines : list string) :
  Forall (fun s => Chunker.children s = [])
         (Chunker.splitContainer minChunkTokens seg lines []).
Proof.
  unfold Chunker.splitContainer.
  assert (G : forall kids st,
             Forall (fun s => Chunker.children s = []) (fst st) ->
             Forall (fun s => Chunker.children s = [])
                    (fst (fold_left (Chunker.splitContainer_step minChunkTokens seg lines)
                                    kids st))).
  { induction kids as [|c kids IH]; intros [r e] H; [exact H|].
    simpl fold_left. apply IH. simpl.
    apply Forall_app. split; [exact H|].
    repeat match goal with |- context [if ?b then _ else _] => destruct b end;
      repeat constructor. }
  specialize (G (Chunker.children seg) ([], Chunker.startLine seg) (Forall_nil _)).
  destruct (fold_left _ _ _) as [r e]. simpl in G.
  repeat match goal with |- context [if ?b then _ else _] => destruct b end;
    try exact G.
  - apply Forall_app. split; [exact G|]. repeat constructor.
  - now apply setLastEndLine_children.
Qed.

(** Any positive fuel gives the result of [expandSegment]. *)
Lemma expandSegment_go_fuel (maxChunkTokens minChunkTokens fuel : nat)
      (seg : Chunker.Segment) (lines : list string) (result : list Chunker.Segment) :
  Chunker.expandSegment_go maxChunkTokens minChunkTokens (S fuel) seg lines result
  = Chunker.expandSegment maxChunkTokens minChunkTokens seg lines result.
Proof.
  unfold Chunker.expandSegment. simpl.
  destruct (_ && _); [|reflexivity].
  pose proof (splitContainer_children minChunkTokens seg lines) as H.
  revert result. induction H as [|sub subs Hsub _ IH]; intros result; [reflexivity|].
  simpl fold_left. rewrite <- IH. f_equal.
  destruct fuel; [reflexivity|]. simpl. now rewrite Hsub.
Qed.

(** C4. On the worked input, a class whose first field is followed by a
    comment on the same line, the two child segments [splitContainer]
    emits share a line: the container expansion does not keep child
    ranges disjoint when a child starts on the row the previous one
    ends on. *)
Theorem splitContainer_children_overlap :
  Chunker.extractTopLevelSegments demoTree = [demoClass] /\
  Chunker.oversized 512 demoLines demoClass = true /\
  exists s1 s2,
    Chunker.splitContainer 30 demoClass demoLines [] = [s1; s2] /\
    Chunker.nodeType s1 = "public_field_definition" /\
    Chunker.nodeType s2 = "public_field_definition" /\
    overlap s1 s2.
Proof.
  split; [reflexivity|]. split; [vm_compute; reflexivity|].
  eexists. eexists. split; [vm_compute; reflexivity|].
  split; [reflexivity|]. split; [reflexivity|].
  unfold overlap. simpl. lia.
Qed.

(** The overlap reaches the chunks: line 2 of the file lies in both. *)
Example demoChunks_share_a_line :
  map (fun c => (Chunker.chunkStartLine c, Chunker.chunkEndLine c)) demoChunks
  = [(1, 2); (2, 4)].
Proof. vm_compute. reflexivity. Qed.

(** *** The fuel of the tree walkers *)

Lemma height_child (n c : Chunker.SyntaxNode) :
  In c (Chunker.node_children n) -> Chunker.height c < Chunker.height n.
Proof.
  destruct n as [f t a b x cs]. simpl.
  induction cs as [|y cs IH]; simpl; intros I; [destruct I|].
  destruct I as [->|I]; [lia|]. specialize (IH I). lia.
Qed.

Lemma height_field (n c : Chunker.SyntaxNode) (f : string) :
  Chunker.childForFieldName n f = Some c -> Chunker.height c < Chunker.height n.
Proof.
  unfold Chunker.childForFieldName. intros H. apply find_some in H.
  apply height_child. tauto.
Qed.

Lemma extractSymbolName_go_stable (f1 : nat) :
  forall f2 node,
    Chunker.height node <= f1 -> Chunker.height node <= f2 ->
    Chunker.extractSymbolName_go f1 node = Chunker.extractSymbolName_go f2 node.
Proof.
  induction f1 as [|f1 IH]; intros [|f2] node H1 H2;
    try (destruct node; simpl in *; lia).
  simpl.
  destruct (Chunker.childForFieldName node "name"); [reflexivity|].
  destruct (String.eqb _ _); [|reflexivity].
  destruct (Chunker.childForFieldName node "declaration") as [decl|] eqn:E;
    [|reflexivity].
  apply height_field in E. apply IH; lia.
Qed.

(** Any fuel from the height of the node on gives [extractSymbolName]. *)
Lemma extractSymbolName_fuel (fuel : nat) (node : Chunker.SyntaxNode) :
  Chunker.height node <= fuel ->
  Chunker.extractSymbolName_go fuel node = Chunker.extractSymbolName node.
Proof.
  intros H. unfold Chunker.extractSymbolName.
  now apply extractSymbolName_go_stable.
Qed.

Lemma firstDeclaratorValue_height (node v : Chunker.SyntaxNode) :
  Chunker.firstDeclaratorValue node = Some v ->
  Chunker.height v < Chunker.height node.
Proof.
  unfold Chunker.firstDeclaratorValue.
  assert (G : forall cs acc,
             (forall c, In c cs -> Chunker.height c < Chunker.height node) ->
             (forall a, acc = Some a -> Chunker.height a < Chunker.height node) ->
             fold_left
               (fun (found : option Chunker.SyntaxNode) child =>
                  match found with
                  | Some v0 => Some v0
                  | None =>
                      if String.eqb (Chunker.node_type child) "variable_declarator"
                      then Chunker.childForFieldName child "value"
                      else None
                  end) cs acc = Some v ->
             Chunker.height v < Chunker.height node).
  { induction cs as [|c cs IH]; intros acc Hc Ha; simpl.
    - intros E. now apply Ha.
    - apply IH.
      + intros c' I. apply Hc. now right.
      + intros a. destruct acc as [a0|].
        * intros E. apply Ha. exact E.
        * destruct (String.eqb _ _); [|discriminate].
          intros E. apply height_field in E.
          specialize (Hc c (or_introl eq_refl)). lia. }
  apply G.
  - apply height_child.
  - discriminate.
Qed.

Lemma findObjectLiteral_go_stable (f1 : nat) :
  forall f2 node,
    Chunker.height node <= f1 -> Chunker.height node <= f2 ->
    Chunker.findObjectLiteral_go f1 node = Chunker.findObjectLiteral_go f2 node.
Proof.
  induction f1 as [|f1 IH]; intros [|f2] node H1 H2;
    try (destruct node; simpl in *; lia).
  simpl.
  destruct (String.eqb (Chunker.node_type node) "export_statement").
  - destruct (Chunker.childForFieldName node "declaration") as [decl|] eqn:E.
    + apply height_field in E. apply IH; lia.
    + destruct (Chunker.childForFieldName node "value") as [value|] eqn:E';
        [|reflexivity].
      apply height_field in E'. apply IH; lia.
  - destruct (Chunker.isDeclaration node); [|reflexivity].
    destruct (Chunker.firstDeclaratorValue node) as [value|] eqn:E; [|reflexivity].
    apply firstDeclaratorValue_height in E. apply IH; lia.
Qed.

(** Any fuel from the height of the node on gives [findObjectLiteral]. *)
Lemma findObjectLiteral_fuel (fuel : nat) (node : Chunker.SyntaxNode) :
  Chunker.height node <= fuel ->
  Chunker.findObjectLiteral_go fuel node = Chunker.findObjectLiteral node.
Proof.
  intros H. unfold Chunker.findObjectLiteral.
  now apply findObjectLiteral_go_stable.
Qed.

(** Induction over a syntax tree with the children as a list. *)
Fixpoint node_induction (P : Chunker.SyntaxNode -> Prop)
         (step : forall f t a b x cs, Forall P cs -> P (Chunker.mkNode f t a b x cs))
         (n : Chunker.SyntaxNode) : P n :=
  match n with
  | Chunker.mkNode f t a b x cs =>
      step f t a b x cs
           ((fix all (l : list Chunker.SyntaxNode) : Forall P l :=
               match l with
               | [] => Forall_nil P
               | c :: rest => Forall_cons c (node_induction P step c) (all rest)
               end) cs)
  end.

Lemma findInnerFunction_height (node found : Chunker.SyntaxNode) :
  Chunker.findInnerFunction node = Some found ->
  Chunker.height found < Chunker.height node.
Proof.
  revert found. induction node as [f t a b x cs IH] using node_induction.
  intros found. simpl.
  induction IH as [|c cs Hc _ IHcs]; [discriminate|].
  cbn [fold_right] in *.
  match goal with |- (if ?b then _ else _) = _ -> _ => destruct b end.
  - intros E. inversion E; subst. lia.
  - match goal with |- (if ?b then _ else _) = _ -> _ => destruct b end.
    + destruct (Chunker.findInnerFunction c) as [g|] eqn:G.
      * intros E. inversion E; subst. specialize (Hc found eq_refl). lia.
      * intros E. specialize (IHcs E). lia.
    + intros E. specialize (IHcs E). lia.
Qed.

Lemma extractFunctionBlocks_go_stable (f1 : nat) :
  forall f2 node,
    Chunker.height node <= f1 -> Chunker.height node <= f2 ->
    Chunker.extractFunctionBlocks_go f1 node = Chunker.extractFunctionBlocks_go f2 node.
Proof.
  induction f1 as [|f1 IH]; intros [|f2] node H1 H2;
    try (destruct node; simpl in *; lia).
  simpl.
  destruct (Chunker.childForFieldName node "body") as [body|] eqn:B; [|reflexivity].
  destruct (negb _); [reflexivity|].
  destruct (Chunker.blockStatements body) as [|only [|more]] eqn:S; try reflexivity.
  destruct (String.eqb _ _); [|reflexivity].
  destruct (Chunker.findInnerFunction only) as [inner|] eqn:F; [|reflexivity].
  apply findInnerFunction_height in F. apply height_field in B.
  assert (I : In only (Chunker.node_children body)).
  { assert (I : In only (Chunker.blockStatements body)) by (rewrite S; now left).
    unfold Chunker.blockStatements in I. apply filter_In in I. tauto. }
  apply height_child in I. apply IH; lia.
Qed.

(** Any fuel from the height of the node on gives [extractFunctionBlocks]. *)
Lemma extractFunctionBlocks_fuel (fuel : nat) (node : Chunker.SyntaxNode) :
  Chunker.height node <= fuel ->
  Chunker.extractFunctionBlocks_go fuel node = Chunker.extractFunctionBlocks node.
Proof.
  intros H. unfold Chunker.extractFunctionBlocks.
  now apply extractFunctionBlocks_go_stable.
Qed.

(** *** Container expansion when the children lie on rows of their own *)

Lemma before_no_overlap (a b : Chunker.Segment) : before a b -> ~ overlap a b.
Proof. unfold before, overlap. lia. Qed.

Lemma sorted_snoc {A} (R : A -> A -> Prop) (l : list A) (x : A) :
  StronglySorted R l -> Forall (fun a => R a x) l -> StronglySorted R (l ++ [x]).
Proof.
  induction l as [|y l IH]; simpl; intros S F.
  - repeat constructor.
  - inversion S as [|? ? S' Fy]; subst. inversion F as [|? ? Ry F']; subst.
    constructor; [now apply IH|].
    apply Forall_app. split; [exact Fy|]. now repeat constructor.
Qed.

Lemma sorted_snoc_inv {A} (R : A -> A -> Prop) (l : list A) (x : A) :
  StronglySorted R (l ++ [x]) -> StronglySorted R l /\ Forall (fun a => R a x) l.
Proof.
  induction l as [|y l IH]; simpl; intros S.
  - split; constructor.
  - inversion S as [|? ? S' Fy]; subst. destruct (IH S') as [Sl Fl].
    apply Forall_app in Fy. destruct Fy as [Fy Fx].
    split; constructor; try assumption. now inversion Fx.
Qed.

Section ContainerExpansion.

Variable minChunkTokens : nat.
Variable seg : Chunker.Segment.
Variable lines : list string.

Lemma apart_push (result : list Chunker.Segment) (lastEnd : nat)
      (s : Chunker.Segment) (next : nat) :
  apart (result, lastEnd) ->
  lastEnd <= Chunker.startLine s -> Chunker.endLine s < next -> lastEnd <= next ->
  apart (result ++ [s], next).
Proof.
  unfold apart. simpl. intros [S F] Hs He Hn. split.
  - apply sorted_snoc; [exact S|].
    rewrite Forall_forall in *. intros a I. specialize (F a I). unfold before. lia.
  - apply Forall_app. split.
    + rewrite Forall_forall in *. intros a I. specialize (F a I). lia.
    + now repeat constructor.
Qed.

Lemma splitContainer_step_apart (st : list Chunker.Segment * nat)
      (child : Chunker.Segment) :
  apart st ->
  snd st <= Chunker.startLine child ->
  Chunker.startLine child <= Chunker.endLine child ->
  apart (Chunker.splitContainer_step minChunkTokens seg lines st child)
  /\ snd (Chunker.splitContainer_step minChunkTokens seg lines st child)
     = S (Chunker.endLine child).
Proof.
  destruct st as [result lastEnd]. simpl snd. intros A Hs He.
  unfold Chunker.splitContainer_step.
  split; [|simpl; lia].
  replace (Chunker.endLine child + 1) with (S (Chunker.endLine child)) by lia.
  destruct (lastEnd <? Chunker.startLine child)%nat eqn:Gap.
  - apply Nat.ltb_lt in Gap.
    destruct (minChunkTokens <=? _)%nat.
    + change (result ++ [?h; ?c]) with (result ++ [h] ++ [c]).
      rewrite app_assoc.
      apply (apart_push _ (Chunker.startLine child)); simpl; try lia.
      apply (apart_push _ lastEnd); simpl; try lia. exact A.
    + apply (apart_push _ lastEnd); simpl; try lia. exact A.
  - apply Nat.ltb_ge in Gap.
    apply (apart_push _ lastEnd); simpl; try lia. exact A.
Qed.

Lemma splitContainer_loop_apart (kids : list Chunker.Segment)
      (st : list Chunker.Segment * nat) :
  apart st -> rowsSeparated (snd st) kids ->
  apart (fold_left (Chunker.splitContainer_step minChunkTokens seg lines) kids st).
Proof.
  revert st. induction kids as [|c kids IH]; intros st A R; simpl; [exact A|].
  destruct R as (Hs & He & R).
  destruct (splitContainer_step_apart st c A Hs He) as [A' E].
  apply IH; [exact A'|]. now rewrite E.
Qed.

Lemma setLastEndLine_sorted (e : nat) (result : list Chunker.Segment) :
  StronglySorted before result ->
  StronglySorted before (Chunker.setLastEndLine e result).
Proof.
  intros S. unfold Chunker.setLastEndLine.
  destruct (rev result) as [|last init] eqn:E; [exact S|].
  assert (R : result = rev init ++ [last]).
  { rewrite <- (rev_involutive result), E. reflexivity. }
  rewrite R in S. apply sorted_snoc_inv in S. destruct S as [S F].
  apply sorted_snoc; [exact S|]. destruct last. exact F.
Qed.

(** When the children of a container lie on rows of their own, the
    segments [splitContainer] emits (headers, children, footer) are in
    order and pairwise apart. *)
Lemma splitContainer_apart :
  rowsSeparated (Chunker.startLine seg) (Chunker.children seg) ->
  StronglySorted before (Chunker.splitContainer minChunkTokens seg lines []).
Proof.
  intros R. unfold Chunker.splitContainer.
  pose proof (splitContainer_loop_apart (Chunker.children seg)
                ([], Chunker.startLine seg)) as A.
  destruct (fold_left _ _ _) as [result lastEnd].
  destruct A as [S F]; [split; constructor|exact R|]. simpl in S, F.
  destruct (lastEnd <=? Chunker.endLine seg)%nat eqn:T; [|exact S].
  destruct (minChunkTokens <=? _)%nat.
  - apply sorted_snoc; [exact S|].
    rewrite Forall_forall in *. intros a I. specialize (F a I).
    unfold before. simpl. lia.
  - destruct (0 <? List.length result)%nat; [|exact S].
    now apply setLastEndLine_sorted.
Qed.

End ContainerExpansion.

(** ** Building the summary of a file set *)

Lemma existsb_eqb_in (x : string) (l : list string) :
  existsb (String.eqb x) l = true <-> In x l.
Proof.
  rewrite existsb_exists. split.
  - intros [y [I E]]. apply String.eqb_eq in E. now subst.
  - intros I. exists x. split; [exact I|apply String.eqb_refl].
Qed.

Lemma distinct_NoDup (l : list string) : distinct l = true -> NoDup l.
Proof.
  induction l as [|x l IH]; simpl; intros H; [constructor|].
  apply andb_true_iff in H. destruct H as [H1 H2].
  constructor; [|now apply IH].
  intros I. apply existsb_eqb_in in I. rewrite I in H1. discriminate.
Qed.

Lemma fileSet_spec (X : list Merkle.FileHashEntry) : fileSet X = true -> FileSet X.
Proof.
  unfold fileSet, FileSet. intros H. apply andb_true_iff in H. destruct H as [D F].
  split; [now apply distinct_NoDup|].
  intros p I Hd. unfold pathsOf in I. apply in_map_iff in I.
  destruct I as [fh [<- I]].
  rewrite forallb_forall in F. specialize (F fh I).
  apply existsb_eqb_in in Hd. rewrite Hd in F. discriminate.
Qed.

Lemma directoriesOf_paths (X : list Merkle.FileHashEntry) :
  directoriesOf X
  = flat_map (fun p => ancestors (S (String.length p)) p) (pathsOf X).
Proof.
  unfold directoriesOf, pathsOf. induction X as [|fh X IH]; [reflexivity|].
  cbn [flat_map map]. now rewrite IH.
Qed.

Lemma FileSet_remove (X1 X2 : list Merkle.FileHashEntry) (f : Merkle.FileHashEntry) :
  FileSet (X1 ++ f :: X2) -> FileSet (X1 ++ X2).
Proof.
  unfold FileSet. rewrite !directoriesOf_paths. unfold pathsOf.
  rewrite !map_app. simpl. rewrite !flat_map_app. simpl.
  intros [D F]. split; [now apply NoDup_remove_1 in D|].
  intros p I Hd. apply (F p).
  - rewrite in_app_iff in *. simpl. tauto.
  - rewrite !in_app_iff in *. tauto.
Qed.

Lemma FileSet_rehash (X1 X2 : list Merkle.FileHashEntry) (p h h' : string) :
  FileSet (X1 ++ Merkle.mkEntry p h :: X2) ->
  FileSet (X1 ++ Merkle.mkEntry p h' :: X2).
Proof.
  unfold FileSet. rewrite !directoriesOf_paths. unfold pathsOf.
  now rewrite !map_app.
Qed.

Lemma fold_insertFile (X : list Merkle.FileHashEntry)
      (n : JsMap.t Merkle.MerkleNode) (d : JsMap.t JsSet.t) :
  fold_left Merkle.insertFile X (n, d)
  = (fold_left setLeaf X n, fold_left register X d).
Proof.
  revert n d. induction X as [|fh X IH]; intros n d; simpl; [reflexivity|].
  apply IH.
Qed.

Lemma leaves_fold (X : list Merkle.FileHashEntry) (n : JsMap.t Merkle.MerkleNode) :
  NoDup (JsMap.keys n ++ pathsOf X) ->
  fold_left setLeaf X n
  = n ++ map (fun fh => (Merkle.entryPath fh, Merkle.leaf fh)) X.
Proof.
  revert n. induction X as [|fh X IH]; intros n D; simpl.
  - now rewrite app_nil_r.
  - simpl in D. unfold setLeaf at 2. rewrite set_new.
    + rewrite IH.
      * now rewrite <- app_assoc.
      * unfold JsMap.keys in *. rewrite map_app. simpl. now rewrite <- app_assoc.
    + apply NoDup_remove_2 in D. intros I. apply D. apply in_app_iff. now left.
Qed.

Lemma addChild_keys (dc : JsMap.t JsSet.t) (p c k : string) :
  In k (JsMap.keys (Merkle.addChild dc p c)) <-> k = p \/ In k (JsMap.keys dc).
Proof. unfold Merkle.addChild. apply keys_set_in. Qed.

Lemma addChild_nodup (dc : JsMap.t JsSet.t) (p c : string) :
  NoDup (JsMap.keys dc) -> NoDup (JsMap.keys (Merkle.addChild dc p c)).
Proof. unfold Merkle.addChild. apply keys_set_nodup. Qed.

Lemma registerParents_keys (fuel : nat) (dc : JsMap.t JsSet.t) (cur k : string) :
  In k (JsMap.keys (Merkle.registerParents fuel dc cur)) ->
  In k (JsMap.keys dc) \/ In k (ancestors fuel cur).
Proof.
  revert dc cur. induction fuel as [|fuel IH]; intros dc cur; simpl; [tauto|].
  destruct (_ || _) eqn:E.
  - destruct (String.eqb (Merkle.tsParentPath cur) ".") eqn:E'; intros I.
    + apply addChild_keys in I. destruct I as [->|I].
      * apply String.eqb_eq in E'. rewrite E'. right. now left.
      * apply addChild_keys in I. destruct I as [->|I]; [right; now left|now left].
    + apply addChild_keys in I. destruct I as [->|I]; [right; now left|now left].
  - intros I. apply IH in I. destruct I as [I|I].
    + apply addChild_keys in I. destruct I as [->|I]; [right; now left|now left].
    + right. now right.
Qed.

Lemma registerParents_nodup (fuel : nat) (dc : JsMap.t JsSet.t) (cur : string) :
  NoDup (JsMap.keys dc) -> NoDup (JsMap.keys (Merkle.registerParents fuel dc cur)).
Proof.
  revert dc cur. induction fuel as [|fuel IH]; intros dc cur D; simpl; [exact D|].
  destruct (_ || _).
  - destruct (String.eqb _ "."); repeat apply addChild_nodup; exact D.
  - apply IH. now apply addChild_nodup.
Qed.

Lemma register_fold_keys (X : list Merkle.FileHashEntry) (dc : JsMap.t JsSet.t)
      (k : string) :
  In k (JsMap.keys (fold_left register X dc)) ->
  In k (JsMap.keys dc) \/ In k (directoriesOf X).
Proof.
  revert dc. induction X as [|fh X IH]; intros dc; simpl; [tauto|].
  intros I. apply IH in I. rewrite in_app_iff. destruct I as [I|I]; [|tauto].
  apply registerParents_keys in I. tauto.
Qed.

Lemma register_fold_nodup (X : list Merkle.FileHashEntry) (dc : JsMap.t JsSet.t) :
  NoDup (JsMap.keys dc) -> NoDup (JsMap.keys (fold_left register X dc)).
Proof.
  revert dc. induction X as [|fh X IH]; intros dc D; simpl; [exact D|].
  apply IH. now apply registerParents_nodup.
Qed.

Lemma insertDir_fresh (dc : JsMap.t JsSet.t) (l : list string)
      (m : JsMap.t Merkle.MerkleNode) :
  NoDup l -> (forall d, In d l -> ~ In d (JsMap.keys m)) ->
  exists D,
    fold_left (Merkle.insertDir dc) l m = m ++ D
    /\ Forall (fun kv => Merkle.isFile (snd kv) = false) D.
Proof.
  revert m. induction l as [|d l IH]; intros m N F; simpl.
  - exists []. rewrite app_nil_r. now split.
  - inversion N as [|? ? Hd Hl]; subst.
    unfold Merkle.insertDir at 2. rewrite set_new by (apply F; now left).
    destruct (IH (m ++ [(d, Merkle.dirNode m dc d)]) Hl) as [D [E FD]].
    + intros d' I. unfold JsMap.keys. rewrite map_app, in_app_iff. simpl.
      intros [I'|[->|[]]]; [|tauto].
      apply (F d'); [now right|exact I'].
    + exists ((d, Merkle.dirNode m dc d) :: D). split.
      * rewrite E. now rewrite <- app_assoc.
      * constructor; [reflexivity|exact FD].
Qed.

Lemma filter_none {A} (P : A -> bool) (l : list A) :
  (forall x, In x l -> P x = false) -> filter P l = [].
Proof.
  induction l as [|x l IH]; simpl; intros H; [reflexivity|].
  rewrite (H x) by now left. apply IH. intros y I. apply H. now right.
Qed.

Lemma filter_all {A} (P : A -> bool) (l : list A) :
  (forall x, In x l -> P x = true) -> filter P l = l.
Proof.
  induction l as [|x l IH]; simpl; intros H; [reflexivity|].
  rewrite (H x) by now left. f_equal. apply IH. intros y I. apply H. now right.
Qed.

(** The file nodes of the summary of a file set are its files, in order. *)
Lemma fileEntries_build (X : list Merkle.FileHashEntry) :
  FileSet X -> fileEntries (Merkle.tsBuildMerkleTree X) = entriesOf X.
Proof.
  intros [D F]. unfold Merkle.tsBuildMerkleTree.
  rewrite fold_insertFile.
  rewrite leaves_fold by exact D. simpl app.
  set (dc := fold_left register X JsMap.empty).
  set (leaves := map (fun fh => (Merkle.entryPath fh, Merkle.leaf fh)) X).
  destruct (sortByDesc_spec Merkle.depth (JsMap.keys dc)) as [P _].
  destruct (insertDir_fresh dc (Js.sortByDesc Merkle.depth (JsMap.keys dc)) leaves)
    as [Dirs [E FD]].
  - apply (Permutation_NoDup P). apply register_fold_nodup. constructor.
  - intros d I Hk. apply (Permutation_in _ (Permutation_sym P)) in I.
    apply register_fold_keys in I. destruct I as [[]|I].
    apply (F d); [|exact I].
    unfold leaves, JsMap.keys in Hk. rewrite map_map in Hk. exact Hk.
  - rewrite E. unfold fileEntries, JsMap.values.
    rewrite map_app, filter_app.
    rewrite (filter_none _ (map snd Dirs)).
    + rewrite app_nil_r. unfold leaves. rewrite map_map. simpl.
      rewrite filter_all.
      * rewrite map_map. reflexivity.
      * intros n I. apply in_map_iff in I. now destruct I as [fh [<- _]].
    + intros n I. apply in_map_iff in I. destruct I as [kv [<- I]].
      rewrite Forall_forall in FD. now apply FD.
Qed.

(** ** Diffing two summaries *)

Lemma diffNew_step (O : JsMap.t string) (e : string * string) (a m : list string) :
  Merkle.diffNew O (a, m) e = (a ++ addedOf O [e], m ++ modifiedOf O [e]).
Proof.
  destruct e as [p h]. unfold Merkle.diffNew, addedOf, modifiedOf, JsMap.has. simpl.
  destruct (JsMap.get O p) as [o|]; simpl.
  - destruct (String.eqb o h); simpl; now rewrite ?app_nil_r.
  - now rewrite app_nil_r.
Qed.

Lemma diffNew_fold (O N : JsMap.t string) (a m : list string) :
  fold_left (Merkle.diffNew O) N (a, m) = (a ++ addedOf O N, m ++ modifiedOf O N).
Proof.
  revert a m. induction N as [|e N IH]; intros a m.
  - unfold addedOf, modifiedOf. simpl. now rewrite !app_nil_r.
  - cbn [fold_left]. rewrite diffNew_step, IH.
    change (e :: N) with ([e] ++ N).
    unfold addedOf, modifiedOf. rewrite !filter_app, !map_app.
    now rewrite <- !app_assoc.
Qed.

Lemma has_keys {V} (m : JsMap.t V) (k : string) :
  JsMap.has m k = true <-> In k (JsMap.keys m).
Proof.
  unfold JsMap.has. destruct (JsMap.get m k) eqn:G.
  - split; [|reflexivity]. intros _. now apply get_some_keys in G.
  - apply get_none_keys in G. split; [discriminate|tauto].
Qed.

(** The diff of two file maps with distinct keys. *)
Lemma diff_as_filters (old new : list Merkle.MerkleNode) :
  Merkle.tsDiffMerkleTrees old new
  = Merkle.mkDiff
      (addedOf (Merkle.fileMap old) (Merkle.fileMap new))
      (filter (fun p => negb (JsMap.has (Merkle.fileMap new) p))
              (JsMap.keys (Merkle.fileMap old)))
      (modifiedOf (Merkle.fileMap old) (Merkle.fileMap new)).
Proof.
  unfold Merkle.tsDiffMerkleTrees. now rewrite diffNew_fold.
Qed.

Lemma unchanged_entry (O : JsMap.t string) (e : string * string) :
  NoDup (JsMap.keys O) -> In e O ->
  negb (JsMap.has O (fst e)) = false
  /\ match JsMap.get O (fst e) with
     | Some o => negb (String.eqb o (snd e))
     | None => false
     end = false.
Proof.
  intros D I. destruct e as [p h]. simpl.
  unfold JsMap.has. rewrite (get_in O p h D I).
  now rewrite String.eqb_refl.
Qed.

Lemma diff_same (M : JsMap.t string) :
  NoDup (JsMap.keys M) ->
  addedOf M M = [] /\ modifiedOf M M = []
  /\ filter (fun p => negb (JsMap.has M p)) (JsMap.keys M) = [].
Proof.
  intros D. unfold addedOf, modifiedOf. repeat split.
  - rewrite filter_none; [reflexivity|]. intros e I. now apply unchanged_entry.
  - rewrite filter_none; [reflexivity|]. intros e I. now apply unchanged_entry.
  - apply filter_none. intros p I. apply has_keys in I. now rewrite I.
Qed.

Lemma fileMap_build (X : list Merkle.FileHashEntry) :
  FileSet X -> Merkle.fileMap (Merkle.tsBuildMerkleTree X) = entriesOf X.
Proof.
  intros W. unfold Merkle.fileMap.
  change (map _ (filter Merkle.isFile ?n)) with (fileEntries n).
  rewrite fileEntries_build by exact W.
  apply of_list_nodup. destruct W as [D _].
  unfold entriesOf. rewrite map_map. exact D.
Qed.

Lemma keys_entriesOf (X : list Merkle.FileHashEntry) :
  JsMap.keys (entriesOf X) = pathsOf X.
Proof. unfold JsMap.keys, entriesOf, pathsOf. now rewrite map_map. Qed.

Lemma filter_only {A} (P : A -> bool) (l1 l2 : list A) (x : A) :
  (forall y, In y l1 -> P y = false) -> (forall y, In y l2 -> P y = false) ->
  P x = true -> filter P (l1 ++ x :: l2) = [x].
Proof.
  intros H1 H2 Hx. rewrite filter_app. simpl. rewrite Hx.
  now rewrite (filter_none P l1 H1), (filter_none P l2 H2).
Qed.

Lemma entriesOf_insert (X1 X2 : list Merkle.FileHashEntry) (f : Merkle.FileHashEntry) :
  entriesOf (X1 ++ f :: X2)
  = entriesOf X1 ++ (Merkle.entryPath f, Merkle.entryHash f) :: entriesOf X2.
Proof. unfold entriesOf. now rewrite map_app. Qed.

Lemma diff_added (X1 X2 : list Merkle.FileHashEntry) (f : Merkle.FileHashEntry) :
  FileSet (X1 ++ f :: X2) ->
  Merkle.tsDiffMerkleTrees (Merkle.tsBuildMerkleTree (X1 ++ X2))
                           (Merkle.tsBuildMerkleTree (X1 ++ f :: X2))
  = Merkle.mkDiff [Merkle.entryPath f] [] [].
Proof.
  intros W. pose proof (FileSet_remove _ _ _ W) as W0.
  rewrite diff_as_filters, !fileMap_build by assumption.
  destruct W as [D _]. destruct W0 as [D0 _].
  set (O := entriesOf (X1 ++ X2)).
  set (N := entriesOf (X1 ++ f :: X2)).
  assert (DO : NoDup (JsMap.keys O)) by (unfold O; now rewrite keys_entriesOf).
  assert (Hin : forall e, In e (entriesOf X1) \/ In e (entriesOf X2) -> In e O).
  { intros e I. unfold O, entriesOf in *. rewrite map_app, in_app_iff. exact I. }
  assert (Hf : JsMap.get O (Merkle.entryPath f) = None).
  { apply get_none_keys. unfold O. rewrite keys_entriesOf.
    unfold pathsOf in *. rewrite map_app in *. simpl in D.
    now apply NoDup_remove_2 in D. }
  assert (A : addedOf O N = [Merkle.entryPath f]).
  { unfold addedOf, N. rewrite entriesOf_insert.
    rewrite filter_only; [reflexivity| | |];
      try (intros e I; apply unchanged_entry; [exact DO|apply Hin; tauto]).
    unfold JsMap.has. simpl. now rewrite Hf. }
  assert (M : modifiedOf O N = []).
  { unfold modifiedOf, N. rewrite filter_none; [reflexivity|].
    intros e I. rewrite entriesOf_insert in I. apply in_app_iff in I.
    destruct I as [I|[<-|I]];
      try (apply unchanged_entry; [exact DO|apply Hin; tauto]).
    simpl. now rewrite Hf. }
  assert (R : filter (fun p => negb (JsMap.has N p)) (JsMap.keys O) = []).
  { apply filter_none. intros p I. unfold O in I. rewrite keys_entriesOf in I.
    assert (H : JsMap.has N p = true).
    { apply has_keys. unfold N. rewrite keys_entriesOf. unfold pathsOf in *.
      rewrite map_app, in_app_iff in *. simpl. tauto. }
    now rewrite H. }
  now rewrite A, M, R.
Qed.

Lemma diff_modified (X1 X2 : list Merkle.FileHashEntry) (p h h' : string) :
  FileSet (X1 ++ Merkle.mkEntry p h :: X2) -> h <> h' ->
  Merkle.tsDiffMerkleTrees
    (Merkle.tsBuildMerkleTree (X1 ++ Merkle.mkEntry p h :: X2))
    (Merkle.tsBuildMerkleTree (X1 ++ Merkle.mkEntry p h' :: X2))
  = Merkle.mkDiff [] [] [p].
Proof.
  intros W Hne. pose proof (FileSet_rehash _ _ _ _ h' W) as W'.
  rewrite diff_as_filters, !fileMap_build by assumption.
  destruct W as [D _].
  set (O := entriesOf (X1 ++ Merkle.mkEntry p h :: X2)).
  set (N := entriesOf (X1 ++ Merkle.mkEntry p h' :: X2)).
  assert (DO : NoDup (JsMap.keys O)) by (unfold O; now rewrite keys_entriesOf).
  assert (Hin : forall e, In e (entriesOf X1) \/ In e (entriesOf X2) -> In e O).
  { intros e I. unfold O. rewrite entriesOf_insert, in_app_iff. simpl. tauto. }
  assert (Hp : JsMap.get O p = Some h).
  { apply get_in; [exact DO|]. unfold O. rewrite entriesOf_insert, in_app_iff.
    simpl. tauto. }
  assert (A : addedOf O N = []).
  { unfold addedOf, N. rewrite filter_none; [reflexivity|].
    intros e I. rewrite entriesOf_insert in I. apply in_app_iff in I.
    destruct I as [I|[<-|I]];
      try (apply unchanged_entry; [exact DO|apply Hin; tauto]).
    unfold JsMap.has. simpl. now rewrite Hp. }
  assert (M : modifiedOf O N = [p]).
  { unfold modifiedOf, N. rewrite entriesOf_insert.
    rewrite filter_only; [reflexivity| | |];
      try (intros e I; apply unchanged_entry; [exact DO|apply Hin; tauto]).
    simpl. rewrite Hp. apply String.eqb_neq in Hne. now rewrite Hne. }
  assert (R : filter (fun q => negb (JsMap.has N q)) (JsMap.keys O) = []).
  { apply filter_none. intros q I. unfold O in I. rewrite keys_entriesOf in I.
    assert (H : JsMap.has N q = true).
    { apply has_keys. unfold N. rewrite keys_entriesOf. unfold pathsOf in *.
      rewrite map_app in *. exact I. }
    now rewrite H. }
  now rewrite A, M, R.
Qed.

(** C3. Diffing the summary of any list of files against itself gives
    three empty sets; adding a new file [f] to a file set gives
    added = [f] alone; changing the hash at one path [p] of a file set
    gives modified = [p] alone; and the diff depends on the two summaries
    only through their file nodes' path-to-hash projections. *)
Theorem merkle_diff_round_trip :
  (forall X,
      Merkle.tsDiffMerkleTrees (Merkle.tsBuildMerkleTree X) (Merkle.tsBuildMerkleTree X)
      = noDiff) /\
  (forall X1 X2 f,
      fileSet (X1 ++ f :: X2) = true ->
      Merkle.tsDiffMerkleTrees (Merkle.tsBuildMerkleTree (X1 ++ X2))
                               (Merkle.tsBuildMerkleTree (X1 ++ f :: X2))
      = Merkle.mkDiff [Merkle.entryPath f] [] []) /\
  (forall X1 X2 p h h',
      fileSet (X1 ++ Merkle.mkEntry p h :: X2) = true -> h <> h' ->
      Merkle.tsDiffMerkleTrees
        (Merkle.tsBuildMerkleTree (X1 ++ Merkle.mkEntry p h :: X2))
        (Merkle.tsBuildMerkleTree (X1 ++ Merkle.mkEntry p h' :: X2))
      = Merkle.mkDiff [] [] [p]) /\
  (forall old old' new new',
      fileEntries old = fileEntries old' ->
      fileEntries new = fileEntries new' ->
      Merkle.tsDiffMerkleTrees old new = Merkle.tsDiffMerkleTrees old' new').
Proof.
  repeat split.
  - intros X. rewrite diff_as_filters.
    destruct (diff_same (Merkle.fileMap (Merkle.tsBuildMerkleTree X)))
      as (A & M & R); [apply of_list_keys_nodup|].
    now rewrite A, M, R.
  - intros X1 X2 f W. apply diff_added. now apply fileSet_spec.
  - intros X1 X2 p h h' W Hne. apply diff_modified; [now apply fileSet_spec|exact Hne].
  - intros old old' new new' Ho Hn.
    unfold Merkle.tsDiffMerkleTrees, Merkle.fileMap.
    change (map _ (filter Merkle.isFile ?n)) with (fileEntries n).
    now rewrite Ho, Hn.
Qed.

Example merkle_diff_round_trip_witness :
  fileSet ([Merkle.mkEntry "src/a.ts" (Sha256.hex "a")]
             ++ Merkle.mkEntry "src/b.ts" (Sha256.hex "b") :: []) = true /\
  Merkle.tsDiffMerkleTrees
    (Merkle.tsBuildMerkleTree ([Merkle.mkEntry "src/a.ts" (Sha256.hex "a")] ++ []))
    (Merkle.tsBuildMerkleTree
       ([Merkle.mkEntry "src/a.ts" (Sha256.hex "a")]
          ++ Merkle.mkEntry "src/b.ts" (Sha256.hex "b") :: []))
  = Merkle.mkDiff [Merkle.entryPath (Merkle.mkEntry "src/b.ts" (Sha256.hex "b"))] [] [].
Proof.
  split; [vm_compute; reflexivity|].
  apply (proj1 (proj2 merkle_diff_round_trip)
               [Merkle.mkEntry "src/a.ts" (Sha256.hex "a")] []
               (Merkle.mkEntry "src/b.ts" (Sha256.hex "b"))).
  vm_compute. reflexivity.
Defined.

(** ** Paths and their depth *)



Lemma lastIndexOf_go_spec (c : ascii) (s : string) (i : nat) (found : option nat) :
  (countChar c s = 0 /\ Js.lastIndexOf_go c s i found = found)
  \/ (exists j, Js.lastIndexOf_go c s i found = Some (i + j)
                /\ j < String.length s
                /\ countChar c s = S (countChar c (String.substring 0 j s))).
Proof.
  revert i found. induction s as [|d s IH]; intros i found; simpl.
  - now left.
  - destruct (IH (S i) (if Ascii.eqb d c then Some i else found))
      as [[Z E]|[j [E [L C]]]].
    + destruct (Ascii.eqb d c) eqn:Ed.
      * right. exists 0. rewrite E, Nat.add_0_r. repeat split; [lia|].
        rewrite Z. reflexivity.
      * left. now rewrite E, Z.
    + right. exists (S j). rewrite E. repeat split.
      * f_equal. lia.
      * lia.
      * simpl. rewrite C. destruct (Ascii.eqb d c); simpl; lia.
Qed.

Lemma js_substring_prefix (b : nat) (s : string) :
  b <= String.length s -> Js.substring 0 b s = String.substring 0 b s.
Proof.
  intros L. unfold Js.substring.
  rewrite Nat.min_0_l, (Nat.min_l b) by exact L.
  now rewrite Nat.min_0_l, Nat.max_0_l, Nat.sub_0_r.
Qed.


Lemma substring_prefix_length (n : nat) (s : string) :
  n <= String.length s -> String.length (String.substring 0 n s) = n.
Proof.
  revert n. induction s as [|c s IH]; intros [|n] L; simpl in *; try lia.
  rewrite IH; lia.
Qed.

Lemma parent_shorter (cur : string) :
  Merkle.tsParentPath cur <> "." ->
  String.length (Merkle.tsParentPath cur) < String.length cur.
Proof.
  unfold Merkle.tsParentPath, Js.lastIndexOf. intros N.
  destruct (lastIndexOf_go_spec "/"%char cur 0 None) as [[_ H]|[j [H [L _]]]];
    rewrite H in *.
  - congruence.
  - simpl. rewrite js_substring_prefix, substring_prefix_length; lia.
Qed.

(** The loop over the parents of a path ends within the fuel it is given:
    more fuel changes nothing. *)
Lemma registerParents_fuel (n : nat) :
  forall cur dc fuel,
    String.length cur <= n -> String.length cur < fuel ->
    Merkle.registerParents fuel dc cur
    = Merkle.registerParents (S (String.length cur)) dc cur.
Proof.
  induction n as [|n IH]; intros cur dc [|fuel] Ln Lf; try lia; simpl;
    destruct (_ || _) eqn:E; try reflexivity;
    apply orb_false_iff in E; destruct E as [_ E]; apply String.eqb_neq in E;
    pose proof (parent_shorter cur E) as Sh; try lia.
  rewrite (IH _ _ fuel) by lia.
  rewrite (IH _ _ (String.length cur)) by lia.
  reflexivity.
Qed.

(** ** The directory table and the node map *)

Lemma set_add_in (s : JsSet.t) (k x : string) :
  In x (JsSet.add s k) <-> x = k \/ In x s.
Proof.
  unfold JsSet.add. destruct (JsSet.has s k) eqn:E.
  - unfold JsSet.has in E. apply existsb_eqb_in in E.
    split; [tauto|]. intros [->|I]; assumption.
  - rewrite in_app_iff. simpl. intuition congruence.
Qed.




Lemma set_in {V} (m : JsMap.t V) (k k' : string) (v v' : V) :
  In (k', v') (JsMap.set m k v) -> (k', v') = (k, v) \/ In (k', v') m.
Proof.
  induction m as [|[k0 v0] m IH]; simpl.
  - intros [E|[]]. left. now symmetry.
  - destruct (String.eqb k k0); simpl.
    + intros [E|I]; [left; now symmetry|tauto].
    + intros [E|I]; [tauto|]. apply IH in I. tauto.
Qed.

Lemma set_keyed (m : JsMap.t Merkle.MerkleNode) (k : string) (v : Merkle.MerkleNode) :
  keyed m -> Merkle.path v = k -> keyed (JsMap.set m k v).
Proof.
  intros K E k' v' I. apply set_in in I. destruct I as [I|I].
  - now inversion I; subst.
  - now apply K.
Qed.

Lemma leaves_facts (X : list Merkle.FileHashEntry) (n : JsMap.t Merkle.MerkleNode) :
  keyed n -> NoDup (JsMap.keys n) ->
  (forall k v, In (k, v) n -> Merkle.isFile v = true) ->
  keyed (fold_left setLeaf X n)
  /\ NoDup (JsMap.keys (fold_left setLeaf X n))
  /\ (forall k v, In (k, v) (fold_left setLeaf X n) -> Merkle.isFile v = true).
Proof.
  revert n. induction X as [|fh X IH]; intros n K D F; simpl; [now repeat split|].
  apply IH.
  - now apply set_keyed.
  - now apply keys_set_nodup.
  - intros k v I. apply set_in in I. destruct I as [I|I].
    + now inversion I.
    + now apply (F k).
Qed.

Lemma insertDir_fold_keyed (dc : JsMap.t JsSet.t) (l : list string)
      (m : JsMap.t Merkle.MerkleNode) :
  keyed m -> NoDup (JsMap.keys m) ->
  keyed (fold_left (Merkle.insertDir dc) l m)
  /\ NoDup (JsMap.keys (fold_left (Merkle.insertDir dc) l m)).
Proof.
  revert m. induction l as [|d l IH]; intros m K D; simpl; [now split|].
  apply IH.
  - now apply set_keyed.
  - now apply keys_set_nodup.
Qed.

Lemma insertDir_fold_get (dc : JsMap.t JsSet.t) (l : list string)
      (m : JsMap.t Merkle.MerkleNode) (k : string) :
  ~ In k l -> JsMap.get (fold_left (Merkle.insertDir dc) l m) k = JsMap.get m k.
Proof.
  revert m. induction l as [|d l IH]; intros m N; simpl; [reflexivity|].
  rewrite IH by (simpl in N; tauto).
  unfold Merkle.insertDir. apply get_set_other. simpl in N. tauto.
Qed.



(** ** Directory hashes *)





(** Both parts at the root of the same summary, which is hashed after
    [src]: its child list is sorted and its hash is the digest of its one
    child's hash. *)
Example root_of_srcFiles :
  exists d,
    In d (Merkle.tsBuildMerkleTree srcFiles)
    /\ Merkle.path d = "." /\ Merkle.isFile d = false
    /\ Merkle.children d = ["src"]
    /\ Merkle.hash d = hashOrderHash (Merkle.tsBuildMerkleTree srcFiles) d.
Proof.
  exists (nth 3 (Merkle.tsBuildMerkleTree srcFiles) (Merkle.mkMerkle "" "" true [])).
  vm_compute. tauto.
Qed.


(** The root is hashed before a top-level directory that was registered
    after it, and then reads the empty string for that child. *)
Example root_hashed_before_directory :
  hashIn (Merkle.tsBuildMerkleTree rootFiles) "."
  = Sha256.hex (Sha256.hex "a")
  /\ hashIn (Merkle.tsBuildMerkleTree rootFiles) "."
     <> hashOrderHash (Merkle.tsBuildMerkleTree rootFiles)
                      (Merkle.mkMerkle "." "" false ["a.ts"; "src"]).
Proof. split; [vm_compute; reflexivity|vm_compute; discriminate]. Qed.

(** ** The indexing pipeline *)

Lemma bind_inr {A B} (m : Eff.M A) (k : A -> Eff.M B) (w w' : Eff.World) (b : B) :
  Eff.bind m k w = (inr b, w') ->
  exists a w1, m w = (inr a, w1) /\ k a w1 = (inr b, w').
Proof.
  unfold Eff.bind. destruct (m w) as [[e|a] w1]; intros H.
  - discriminate H.
  - now exists a, w1.
Qed.

Lemma ret_inr {A} (a b : A) (w w' : Eff.World) :
  Eff.ret a w = (inr b, w') -> a = b /\ w = w'.
Proof. unfold Eff.ret. intros H. now inversion H. Qed.

Lemma partition_lengths (store : JsMap.t Eff.CacheEntry)
      (chunks : list Chunker.CodeChunk)
      (acc : list Chunker.CodeChunk * list (Chunker.CodeChunk * Eff.Vector)) :
  List.length (fst (fold_left (Indexer.partitionStep store) chunks acc))
  + List.length (snd (fold_left (Indexer.partitionStep store) chunks acc))
  = List.length (fst acc) + List.length (snd acc) + List.length chunks.
Proof.
  revert acc. induction chunks as [|c chunks IH]; intros [un ca]; simpl.
  - lia.
  - rewrite IH. unfold Indexer.partitionStep.
    destruct (JsMap.get store (Chunker.contentHash c)) as [[[v|] t]|];
      simpl; rewrite ?length_app; simpl; lia.
Qed.

(** Every chunk goes to exactly one side: the two sides together are a
    rearrangement of the chunks. *)
Lemma partition_permutation (store : JsMap.t Eff.CacheEntry)
      (chunks : list Chunker.CodeChunk)
      (acc : list Chunker.CodeChunk * list (Chunker.CodeChunk * Eff.Vector)) :
  Permutation
    (fst (fold_left (Indexer.partitionStep store) chunks acc)
     ++ map fst (snd (fold_left (Indexer.partitionStep store) chunks acc)))
    ((fst acc ++ map fst (snd acc)) ++ chunks).
Proof.
  revert acc. induction chunks as [|c chunks IH]; intros [un ca]; simpl.
  - now rewrite app_nil_r.
  - rewrite IH. unfold Indexer.partitionStep.
    destruct (JsMap.get store (Chunker.contentHash c)) as [[[v|] t]|]; simpl;
      rewrite ?map_app; simpl; rewrite <- ?app_assoc; simpl;
      try reflexivity;
      apply Permutation_app_head; apply Permutation_middle.
Qed.

Section IndexerProperties.

Variable maxChunkTokens : nat.
Variable minChunkTokens : nat.
Variable parse : bool -> string -> Chunker.SyntaxNode.
Variable rank : list Eff.Point -> Eff.Vector -> nat -> list Eff.VectorSearchResult.
Variable scanDirectory : JsMap.t Eff.FileState -> list string.
Variable embedBatch : list string -> Eff.Exn + list Eff.Vector.
Variable relativeToRoot : string -> string.
Variable resolveFromRoot : string -> string.

Lemma tsSha256HashFiles_reads (filePaths : list string) (w : Eff.World) :
  Indexer.tsSha256HashFiles filePaths w = (inr (hashesOf (Eff.files w) filePaths), w).
Proof.
  induction filePaths as [|p rest IH]; [reflexivity|].
  simpl. unfold Eff.bind, Eff.catch, Indexer.tsSha256HashFile, Eff.bind,
    Eff.readFileSync, Eff.ret in *.
  destruct (JsMap.get (Eff.files w) p) as [[text|]|]; rewrite IH; reflexivity.
Qed.

Let run := Indexer.index maxChunkTokens minChunkTokens parse scanDirectory
                         embedBatch relativeToRoot resolveFromRoot.

(** C5. If the summary loaded at the start of the run is non-empty and its
    diff against the new summary is empty on all three sides, [index]
    returns zero total, new and cached chunks, and does nothing but take
    two clock readings and report progress: the files, both state files,
    the cache and the collection are untouched and every logged event is
    a progress report (no delete, no embedding call, no upsert, no write
    of the summary or the cache). *)
Theorem index_no_changes (w : Eff.World) :
  previousSummary w <> [] ->
  Merkle.added
    (Merkle.tsDiffMerkleTrees (previousSummary w)
                              (newSummary scanDirectory relativeToRoot w)) = [] ->
  Merkle.removed
    (Merkle.tsDiffMerkleTrees (previousSummary w)
                              (newSummary scanDirectory relativeToRoot w)) = [] ->
  Merkle.modified
    (Merkle.tsDiffMerkleTrees (previousSummary w)
                              (newSummary scanDirectory relativeToRoot w)) = [] ->
  exists elapsed w' reports,
    run w = (inr (Indexer.mkStats (List.length (scanDirectory (Eff.files w)))
                                  0 0 0 elapsed), w') /\
    Eff.files w' = Eff.files w /\
    Eff.merkleStateFile w' = Eff.merkleStateFile w /\
    Eff.cacheFile w' = Eff.cacheFile w /\
    Eff.cacheStore w' = Eff.cacheStore w /\
    Eff.cacheDirty w' = Eff.cacheDirty w /\
    Eff.collection w' = Eff.collection w /\
    Eff.log w' = Eff.log w ++ reports /\
    Forall isReport reports.
Proof.
  intros Hold Hadd Hrem Hmod.
  unfold run, Indexer.index.
  unfold Eff.bind at 1.
  destruct (Eff.dateNow w) as [[e|startTime] w0] eqn:Hnow.
  { unfold Eff.dateNow in Hnow. destruct (Eff.clock w); discriminate Hnow. }
  assert (Hw0 : Eff.files w0 = Eff.files w /\
                Eff.merkleStateFile w0 = Eff.merkleStateFile w /\
                Eff.cacheFile w0 = Eff.cacheFile w /\
                Eff.cacheStore w0 = Eff.cacheStore w /\
                Eff.cacheDirty w0 = Eff.cacheDirty w /\
                Eff.collection w0 = Eff.collection w /\
                Eff.log w0 = Eff.log w).
  { unfold Eff.dateNow in Hnow.
    destruct (Eff.clock w); inversion Hnow; subst; simpl; repeat split. }
  destruct Hw0 as (Hf & Hm & Hcf & Hcs & Hcd & Hco & Hlog).
  unfold Indexer.report, Indexer.scanFiles, Indexer.hashFiles,
    Indexer.loadMerkleState.
  unfold Eff.bind, Eff.emit, Eff.modify, Eff.gets, Eff.ret. simpl.
  rewrite tsSha256HashFiles_reads. simpl.
  unfold newSummary, previousSummary in *.
  rewrite Hf, Hm.
  set (old := match Eff.stored (Eff.merkleStateFile w) with
              | Eff.Parsed n => n
              | _ => []
              end) in *.
  set (new := Merkle.tsBuildMerkleTree _) in *.
  assert (Hnothing : Indexer.nothingToDo old (Merkle.tsDiffMerkleTrees old new) = true).
  { unfold Indexer.nothingToDo. rewrite Hadd, Hrem, Hmod. simpl.
    destruct old; [congruence|reflexivity]. }
  rewrite Hnothing.
  unfold Eff.dateNow. simpl.
  destruct (Eff.clock w0) as [|t later]; simpl;
    do 3 eexists; (split; [reflexivity|]); simpl;
    rewrite Hlog, <- !app_assoc; simpl;
    repeat (split; [first [assumption | reflexivity]|]);
    repeat constructor.
Qed.

(** C10. Whenever [index] returns statistics, the total number of chunks
    is the number of new (uncached) chunks plus the number of cached ones:
    past the no-change return the two counts are the sizes of the two
    sides of the cache partition of all produced chunks. *)
Theorem index_stats_partition (w w' : Eff.World) (stats : Indexer.IndexStats) :
  run w = (inr stats, w') ->
  Indexer.totalChunks stats = Indexer.newChunks stats + Indexer.cachedChunks stats.
Proof.
  unfold run, Indexer.index. intros H.
  repeat (apply bind_inr in H; destruct H as (? & ? & _ & H)).
  destruct (Indexer.nothingToDo _ _).
  - repeat (apply bind_inr in H; destruct H as (? & ? & _ & H)).
    apply ret_inr in H. destruct H as [<- _]. reflexivity.
  - unfold Indexer.reindex in H.
    apply bind_inr in H; destruct H as (? & ? & _ & H).
    apply bind_inr in H; destruct H as (? & ? & _ & H).
    apply bind_inr in H; destruct H as (allChunks & ? & _ & H).
    apply bind_inr in H; destruct H as (? & ? & _ & H).
    apply bind_inr in H; destruct H as (parts & ? & Hparts & H).
    repeat (apply bind_inr in H; destruct H as (? & ? & _ & H)).
    apply ret_inr in H. destruct H as [<- _]. simpl.
    unfold Indexer.partitionChunks, Eff.bind, Eff.gets, Eff.ret in Hparts.
    inversion Hparts; subst.
    match goal with
    | |- context [fold_left (Indexer.partitionStep ?st) allChunks _] =>
        pose proof (partition_lengths st allChunks ([], [])) as L
    end.
    simpl in L. lia.
Qed.

End IndexerProperties.

Example index_no_changes_witness :
  previousSummary indexedWorld <> [] /\
  exists elapsed w' reports,
    Indexer.index 512 30 demoParse demoScan demoEmbedBatch samePath samePath indexedWorld
    = (inr (Indexer.mkStats (List.length (demoScan (Eff.files indexedWorld))) 0 0 0 elapsed),
       w') /\
    Eff.files w' = Eff.files indexedWorld /\
    Eff.merkleStateFile w' = Eff.merkleStateFile indexedWorld /\
    Eff.cacheFile w' = Eff.cacheFile indexedWorld /\
    Eff.cacheStore w' = Eff.cacheStore indexedWorld /\
    Eff.cacheDirty w' = Eff.cacheDirty indexedWorld /\
    Eff.collection w' = Eff.collection indexedWorld /\
    Eff.log w' = Eff.log indexedWorld ++ reports /\
    Forall isReport reports.
Proof.
  split; [vm_compute; discriminate|].
  apply (index_no_changes 512 30 demoParse demoScan demoEmbedBatch samePath samePath
                          indexedWorld).
  - vm_compute. discriminate.
  - vm_compute. reflexivity.
  - vm_compute. reflexivity.
  - vm_compute. reflexivity.
Defined.

Example index_stats_partition_witness :
  exists stats w',
    Indexer.index 512 30 demoParse demoScan demoEmbedBatch samePath samePath freshWorld
    = (inr stats, w') /\
    Indexer.totalChunks stats = Indexer.newChunks stats + Indexer.cachedChunks stats.
Proof.
  eexists. eexists.
  split; [vm_compute; reflexivity|].
  eapply (index_stats_partition 512 30 demoParse demoScan demoEmbedBatch samePath samePath
                                freshWorld).
  vm_compute. reflexivity.
Defined.

(** The first run over the worked file: two chunks, both new. *)
Example first_run_stats :
  fst (Indexer.index 512 30 demoParse demoScan demoEmbedBatch samePath samePath freshWorld)
  = inr (Indexer.mkStats 1 2 2 0 800).
Proof. vm_compute. reflexivity. Qed.

(** ** The retriever *)

Section RetrieverProperties.

Variable rank : list Eff.Point -> Eff.Vector -> nat -> list Eff.VectorSearchResult.
Variable embed : string -> Eff.Exn + Eff.Vector.
Variable resolveFromRoot : string -> string.

(** C6 (amended). When the collection does not exist, a search whose
    query embeds is rejected with the store's error: nothing between the
    client and the caller of [Retriever.search] catches it, and the only
    effect is the search call itself. *)
Theorem search_missing_collection_raises (query : string) (topK : nat)
        (w : Eff.World) (v : Eff.Vector) :
  embed query = inr v ->
  Eff.collection w = None ->
  Retriever.search rank embed resolveFromRoot query topK w
  = (inl Eff.CollectionNotFound,
     Eff.mkWorld (Eff.files w) (Eff.merkleStateFile w) (Eff.cacheFile w)
                 (Eff.cacheStore w) (Eff.cacheDirty w) (Eff.collection w)
                 (Eff.clock w) (Eff.log w ++ [Eff.StoreSearch topK])).
Proof.
  intros He Hc.
  unfold Retriever.search, Retriever.embedQuery, VectorStore.search,
    VectorStore.clientSearch, VectorStore.clientGetCollection,
    Eff.bind, Eff.emit, Eff.modify, Eff.ret.
  rewrite He. simpl. rewrite Hc. reflexivity.
Qed.

End RetrieverProperties.

Example search_missing_collection_raises_witness :
  unitEmbed "parse config" = inr [1%Q] /\
  Eff.collection noCollection = None /\
  fst (Retriever.search noRank unitEmbed (fun p => p) "parse config" 10 noCollection)
  = inl Eff.CollectionNotFound.
Proof.
  split; [reflexivity|]. split; [reflexivity|].
  rewrite (search_missing_collection_raises noRank unitEmbed (fun p => p)
             "parse config" 10 noCollection [1%Q]); reflexivity.
Defined.

(** C6, as claimed, fails: with no collection the search does not return
    the empty result list. *)
Example search_missing_collection_not_empty :
  fst (Retriever.search noRank unitEmbed (fun p => p) "parse config" 10 noCollection)
  <> inr [].
Proof. vm_compute. discriminate. Qed.

(** ** The benchmark loader *)

(** C7. On the worked input the loader keeps query q1, whose only judged
    corpus id has relevance 0: a surviving query need not have a corpus id
    of positive relevance in the loaded corpus. *)
Theorem load_keeps_query_without_positive :
  map DatasetLoader.corpusEntryId (DatasetLoader.corpus benchLoaded) = ["c3"; "c1"] /\
  map DatasetLoader.queryId (DatasetLoader.queries benchLoaded) = ["q1"; "q2"] /\
  hasPositiveInCorpus benchLoaded (DatasetLoader.mkQuery "q1" "addition") = false.
Proof. vm_compute. repeat split. Qed.

(** [max_queries] cuts the filtered list: the queries kept are a prefix
    of the queries that survive the filter. *)
Lemma load_queries_prefix (datasetId : string) (opts : DatasetLoader.Options)
      (corpusRaw : list DatasetLoader.CorpusRow) (qrelsRaw : list DatasetLoader.QrelRow)
      (queriesRaw : list DatasetLoader.CorpusRow) :
  let ds := DatasetLoader.load datasetId opts corpusRaw qrelsRaw queriesRaw in
  exists k,
    DatasetLoader.queries ds
    = firstn k
        (filter (DatasetLoader.survives
                   (DatasetLoader.qrels ds)
                   (JsSet.of_list (map DatasetLoader.corpusEntryId (DatasetLoader.corpus ds))))
                (map (fun row => DatasetLoader.mkQuery
                                   (DatasetLoader.stringOf (DatasetLoader.row_id row))
                                   (match DatasetLoader.row_text row with
                                    | Some t => t
                                    | None => ""
                                    end)) queriesRaw)).
Proof.
  unfold DatasetLoader.load.
  destruct (fold_left _ _ _) as [rels relevant]. simpl.
  set (filtered := filter _ _).
  destruct (DatasetLoader.maxQueries opts) as [[|cap]|].
  - exists (List.length filtered). now rewrite firstn_all.
  - destruct (_ <? _)%nat.
    + exists (S cap). unfold Js.slice. now rewrite Nat.sub_0_r.
    + exists (List.length filtered). now rewrite firstn_all.
  - exists (List.length filtered). now rewrite firstn_all.
Qed.

(** *** When every judged score is positive *)

Lemma set_has_in (s : JsSet.t) (x : string) : JsSet.has s x = true <-> In x s.
Proof. unfold JsSet.has. apply existsb_eqb_in. Qed.

Lemma set_of_list_in (l : list string) (x : string) :
  In x (JsSet.of_list l) <-> In x l.
Proof.
  unfold JsSet.of_list.
  assert (G : forall acc, In x (fold_left JsSet.add l acc) <-> In x acc \/ In x l).
  { induction l as [|y l IH]; intros acc; simpl; [tauto|].
    rewrite IH, set_add_in. intuition congruence. }
  rewrite G. simpl. tauto.
Qed.

Lemma qrelStep_positive (st : JsMap.t (JsMap.t Z) * JsSet.t)
      (row : DatasetLoader.QrelRow) :
  positiveScores (fst st) ->
  (forall z, DatasetLoader.score row = Some z -> (0 < z)%Z) ->
  positiveScores (fst (DatasetLoader.qrelStep st row)).
Proof.
  destruct st as [rels relevant]. unfold DatasetLoader.qrelStep. simpl.
  intros P Hrow qid judged cid sc G I.
  set (q := DatasetLoader.firstOf _ _) in G.
  destruct (string_dec q qid) as [<-|N].
  - rewrite get_set_same in G. inversion G; subst judged. clear G.
    apply set_in in I. destruct I as [I|I].
    + inversion I; subst. destruct (DatasetLoader.score row); [now apply Hrow|lia].
    + destruct (JsMap.get rels q) as [inner|] eqn:G; [|destruct I].
      now apply (P q inner cid).
  - rewrite get_set_other in G by exact N. now apply (P qid judged cid).
Qed.

Lemma qrels_positive (rows : list DatasetLoader.QrelRow)
      (st : JsMap.t (JsMap.t Z) * JsSet.t) :
  positiveScores (fst st) ->
  (forall row, In row rows ->
               forall z, DatasetLoader.score row = Some z -> (0 < z)%Z) ->
  positiveScores (fst (fold_left DatasetLoader.qrelStep rows st)).
Proof.
  revert st. induction rows as [|row rows IH]; intros st P H; simpl; [exact P|].
  apply IH.
  - apply qrelStep_positive; [exact P|]. apply H. now left.
  - intros r I. apply H. now right.
Qed.

(** If no judgment has relevance 0 or less, every query the loader keeps
    has a corpus id of positive relevance in the loaded corpus. *)
Lemma load_positive_scores (datasetId : string) (opts : DatasetLoader.Options)
      (corpusRaw : list DatasetLoader.CorpusRow) (qrelsRaw : list DatasetLoader.QrelRow)
      (queriesRaw : list DatasetLoader.CorpusRow) (q : DatasetLoader.BenchmarkQuery) :
  (forall row, In row qrelsRaw ->
               forall z, DatasetLoader.score row = Some z -> (0 < z)%Z) ->
  In q (DatasetLoader.queries
          (DatasetLoader.load datasetId opts corpusRaw qrelsRaw queriesRaw)) ->
  hasPositiveInCorpus
    (DatasetLoader.load datasetId opts corpusRaw qrelsRaw queriesRaw) q = true.
Proof.
  intros Hpos.
  pose proof (qrels_positive qrelsRaw (JsMap.empty, JsSet.empty)) as P.
  unfold DatasetLoader.load.
  destruct (fold_left _ _ _) as [rels relevant]. simpl in P.
  assert (P' : positiveScores rels).
  { apply P; [|exact Hpos]. intros ? ? ? ? G. discriminate G. }
  clear P. unfold hasPositiveInCorpus. simpl.
  set (corpusEntries := DatasetLoader.buildCorpus opts relevant corpusRaw).
  set (filtered := filter _ _).
  intros I.
  assert (If : In q filtered).
  { destruct (DatasetLoader.maxQueries opts) as [[|cap]|]; try exact I.
    destruct (_ <? _)%nat; [|exact I].
    unfold Js.slice in I. simpl skipn in I.
    rewrite <- (firstn_skipn (S cap - 0) filtered). apply in_or_app. now left. }
  unfold filtered in If. apply filter_In in If. destruct If as [_ S].
  unfold DatasetLoader.survives in S.
  destruct (JsMap.get rels (DatasetLoader.queryId q)) as [judged|] eqn:G;
    [|discriminate].
  apply existsb_exists in S. destruct S as [cid [Ik Hc]].
  unfold JsMap.keys in Ik. apply in_map_iff in Ik. destruct Ik as [[cid' sc] [E Ij]].
  simpl in E. subst cid'.
  apply existsb_exists. exists (cid, sc). split; [exact Ij|]. simpl.
  apply andb_true_iff. split.
  - apply Z.ltb_lt. now apply (P' (DatasetLoader.queryId q) judged cid sc).
  - apply existsb_eqb_in. apply (proj1 (set_has_in _ _)) in Hc.
    apply (proj1 (set_of_list_in _ _)) in Hc. exact Hc.
Qed.

(* ================================================================== *)
(** * Further properties of the code *)
(* ================================================================== *)

(** ** Splitting by rows, blocks and members *)

Lemma tiles_app (a c : nat) (l1 l2 : list Chunker.Segment) :
  tiles a (l1 ++ l2) c <-> exists b, tiles a l1 b /\ tiles b l2 c.
Proof.
  revert a. induction l1 as [|s l1 IH]; intros a; simpl.
  - split.
    + intros T. now exists a.
    + intros (b & E & T). now subst.
  - rewrite IH. split.
    + intros (Hs & He & b & T1 & T2). exists b. tauto.
    + intros (b & (Hs & He & T1) & T2). repeat split; try assumption. now exists b.
Qed.

Lemma tiles_snoc (a b c : nat) (l : list Chunker.Segment) (s : Chunker.Segment) :
  tiles a l b -> Chunker.startLine s = b -> b <= Chunker.endLine s ->
  c = S (Chunker.endLine s) ->
  tiles a (l ++ [s]) c.
Proof.
  intros T Hs He Ec. apply tiles_app. exists b. split; [exact T|]. simpl. subst. tauto.
Qed.

Lemma tiles_le (a b : nat) (l : list Chunker.Segment) : tiles a l b -> a <= b.
Proof.
  revert a. induction l as [|s l IH]; simpl; intros a.
  - lia.
  - intros (Hs & He & T). apply IH in T. lia.
Qed.

Lemma tiles_nonempty (a b : nat) (l : list Chunker.Segment) :
  tiles a l b -> a < b -> l <> [].
Proof. destruct l; simpl; [lia|discriminate]. Qed.

Lemma fold_add_sum {A} (f : A -> nat) (l : list A) (n : nat) :
  fold_left (fun acc i => acc + f i) l n = n + list_sum (map f l).
Proof.
  revert n. induction l as [|x l IH]; simpl; intros n; [lia|].
  rewrite IH. lia.
Qed.

Lemma list_sum_le {A} (f g : A -> nat) (l : list A) :
  (forall x, f x <= g x) -> list_sum (map f l) <= list_sum (map g l).
Proof.
  intros H. induction l as [|x l IH]; simpl; [lia|]. specialize (H x). lia.
Qed.

Lemma charCount_sum (lines : list string) (a b : nat) :
  Chunker.charCount lines a b
  = list_sum (map (Chunker.lineChars lines) (seq a (S b - a))).
Proof. unfold Chunker.charCount. now rewrite fold_add_sum. Qed.

Lemma charCount_rough (lines : list string) (a b : nat) :
  Chunker.charCount lines a b <= roughChars lines a (S b).
Proof.
  rewrite charCount_sum. unfold roughChars. apply list_sum_le.
  intros i. unfold Chunker.lineChars, Chunker.lineCharsOrZero.
  destruct (nth_error lines i); lia.
Qed.

Lemma rough_within (maxChunkTokens : nat) (lines : list string) (a b : nat) :
  roughChars lines a (S b) <= maxChunkTokens * 4 ->
  Chunker.estimateTokens lines a b <= maxChunkTokens.
Proof.
  intros H. unfold Chunker.estimateTokens.
  pose proof (charCount_rough lines a b) as C.
  apply Nat.lt_succ_r, Nat.Div0.div_lt_upper_bound. lia.
Qed.

Lemma roughChars_step (lines : list string) (a i : nat) :
  a <= i ->
  roughChars lines a (S i) = roughChars lines a i + Chunker.lineCharsOrZero lines i.
Proof.
  intros H. unfold roughChars.
  replace (S i - a) with (S (i - a)) by lia.
  rewrite seq_S, map_app, list_sum_app. simpl.
  replace (a + (i - a)) with i by lia. lia.
Qed.

Lemma roughChars_one (lines : list string) (i : nat) :
  roughChars lines i (S i) = Chunker.lineCharsOrZero lines i.
Proof.
  unfold roughChars. replace (S i - i) with 1 by lia. simpl. lia.
Qed.

Lemma charCount_mono (lines : list string) (a b b' : nat) :
  b <= b' -> Chunker.charCount lines a b <= Chunker.charCount lines a b'.
Proof.
  intros H. rewrite !charCount_sum.
  replace (S b' - a) with ((S b - a) + (S b' - a - (S b - a))) by lia.
  rewrite seq_app, map_app, list_sum_app. lia.
Qed.

Lemma estimateTokens_mono (lines : list string) (a b b' : nat) :
  b <= b' -> Chunker.estimateTokens lines a b <= Chunker.estimateTokens lines a b'.
Proof.
  intros H. unfold Chunker.estimateTokens.
  apply Nat.Div0.div_le_mono. pose proof (charCount_mono lines a b b' H). lia.
Qed.

Lemma estimateTokens_inverted (lines : list string) (a b : nat) :
  b < a -> Chunker.estimateTokens lines a b = 0.
Proof.
  intros H. unfold Chunker.estimateTokens, Chunker.charCount.
  replace (S b - a) with 0 by lia. reflexivity.
Qed.

Section LineSplitting.

Variable maxChunkTokens : nat.
Variable seg : Chunker.Segment.
Variable lines : list string.
Variable result : list Chunker.Segment.

Lemma splitByLineCount_step_inv (i : nat) (st : Chunker.LineSplit) :
  lineSplitInv maxChunkTokens seg lines result i st ->
  lineSplitInv maxChunkTokens seg lines result (S i)
    (Chunker.splitByLineCount_step maxChunkTokens seg lines st i).
Proof.
  intros (ps & P & T & Le & B & C & D).
  unfold Chunker.splitByLineCount_step.
  destruct ((maxChunkTokens * 4 <? Chunker.chunkChars st + _)%nat
            && (Chunker.chunkStart st <? i)%nat) eqn:Flush.
  - apply andb_prop in Flush. destruct Flush as [Over Lt].
    apply Nat.ltb_lt in Lt.
    set (part := Chunker.partSegment seg (S (Chunker.partIdx st))
                   (Chunker.chunkStart st) (i - 1)).
    exists (ps ++ [part]). cbn [Chunker.parts Chunker.chunkStart Chunker.chunkChars].
    repeat split.
    + now rewrite P, app_assoc.
    + apply (tiles_snoc _ (Chunker.chunkStart st)); [exact T|reflexivity|simpl; lia..].
    + lia.
    + apply Forall_app. split; [exact B|]. constructor; [|constructor].
      unfold withinBudget, tokensOf. simpl.
      destruct D as [D|D]; [right|left; lia].
      apply rough_within. replace (S (i - 1)) with i by lia. now rewrite <- C.
    + now rewrite roughChars_one.
    + right. lia.
  - exists ps. cbn [Chunker.parts Chunker.chunkStart Chunker.chunkChars].
    repeat split; try assumption; try lia.
    + rewrite roughChars_step by exact Le. now rewrite C.
    + apply andb_false_iff in Flush. destruct Flush as [F|F].
      * apply Nat.ltb_ge in F. left. exact F.
      * apply Nat.ltb_ge in F. right. lia.
Qed.

Lemma splitByLineCount_loop_inv (n a : nat) (st : Chunker.LineSplit) :
  lineSplitInv maxChunkTokens seg lines result a st ->
  lineSplitInv maxChunkTokens seg lines result (a + n)
    (fold_left (Chunker.splitByLineCount_step maxChunkTokens seg lines) (seq a n) st).
Proof.
  revert a st. induction n as [|n IH]; intros a st I; simpl.
  - now rewrite Nat.add_0_r.
  - replace (a + S n) with (S a + n) by lia.
    apply IH. now apply splitByLineCount_step_inv.
Qed.

Lemma splitByLineCount_parts :
  exists ps,
    Chunker.splitByLineCount maxChunkTokens seg lines result = result ++ ps
    /\ tiles (Chunker.startLine seg) ps
             (Nat.max (Chunker.startLine seg) (S (Chunker.endLine seg)))
    /\ Forall (withinBudget maxChunkTokens lines) ps.
Proof.
  unfold Chunker.splitByLineCount.
  pose proof (splitByLineCount_loop_inv
                (S (Chunker.endLine seg) - Chunker.startLine seg)
                (Chunker.startLine seg)
                (Chunker.mkLineSplit 0 (Chunker.startLine seg) 0 result)) as I.
  destruct I as (ps & P & T & Le & B & C & D).
  { exists []. simpl. rewrite app_nil_r. unfold roughChars.
    rewrite Nat.sub_diag. simpl. repeat split; try lia. constructor. }
  set (st := fold_left _ _ _) in *.
  pose proof (tiles_le _ _ _ T) as Ge.
  destruct (Chunker.chunkStart st <=? Chunker.endLine seg)%nat eqn:Last.
  - apply Nat.leb_le in Last.
    set (part := Chunker.partSegment seg (S (Chunker.partIdx st))
                   (Chunker.chunkStart st) (Chunker.endLine seg)).
    exists (ps ++ [part]). repeat split.
    + now rewrite P, app_assoc.
    + apply (tiles_snoc _ (Chunker.chunkStart st)); [exact T|reflexivity|simpl; lia..].
    + apply Forall_app. split; [exact B|]. constructor; [|constructor].
      unfold withinBudget, tokensOf. simpl.
      replace (Chunker.startLine seg + (S (Chunker.endLine seg) - Chunker.startLine seg))
        with (S (Chunker.endLine seg)) in * by lia.
      destruct D as [D|D]; [right|left; lia].
      apply rough_within. now rewrite <- C.
  - apply Nat.leb_gt in Last. exists ps. repeat split; try assumption.
    replace (Nat.max _ _) with (Chunker.chunkStart st) by lia. exact T.
Qed.

End LineSplitting.

Section ChunkerRows.

Variable maxChunkTokens : nat.
Variable minChunkTokens : nat.

(** X1. [splitByLineCount] cuts a segment into parts that tile its rows:
    the first part starts on the segment's first row, each next part starts
    on the row after the previous part's last, the last part ends on the
    segment's last row, and no part is empty. Nothing already in [result]
    is touched. *)
Theorem splitByLineCount_tiles (seg : Chunker.Segment) (lines : list string)
        (result : list Chunker.Segment) :
  Chunker.startLine seg <= Chunker.endLine seg ->
  exists ps,
    Chunker.splitByLineCount maxChunkTokens seg lines result = result ++ ps
    /\ tiles (Chunker.startLine seg) ps (S (Chunker.endLine seg)).
Proof.
  intros H.
  destruct (splitByLineCount_parts maxChunkTokens seg lines result) as (ps & E & T & _).
  exists ps. split; [exact E|].
  now replace (Nat.max _ _) with (S (Chunker.endLine seg)) in T by lia.
Qed.

(** X2. Every part [splitByLineCount] emits either is a single row or has
    a token estimate of at most [maxChunkTokens]: only a row that is too
    long by itself can exceed the ceiling. *)
Theorem splitByLineCount_budget (seg : Chunker.Segment) (lines : list string)
        (result : list Chunker.Segment) :
  exists ps,
    Chunker.splitByLineCount maxChunkTokens seg lines result = result ++ ps
    /\ Forall (withinBudget maxChunkTokens lines) ps.
Proof.
  destruct (splitByLineCount_parts maxChunkTokens seg lines result) as (ps & E & _ & B).
  now exists ps.
Qed.

End ChunkerRows.

Section BlockSplitting.

Variable maxChunkTokens : nat.
Variable minChunkTokens : nat.
Variable seg : Chunker.Segment.
Variable lines : list string.
Variable result : list Chunker.Segment.

Lemma splitByBlocks_loop (others : list Chunker.Segment)
      (ps : list Chunker.Segment) (gs ge : nat) :
  exists ps' gs' ge',
    fold_left (Chunker.splitByBlocks_step maxChunkTokens seg lines) others
              (result ++ ps, gs, ge)
    = (result ++ ps ++ ps', gs', ge')
    /\ (tiles (Chunker.startLine seg) ps gs -> gs <= ge ->
        endsIncrease ge others ->
        Forall (fun b => Chunker.endLine b <= Chunker.endLine seg) others ->
        ge <= Chunker.endLine seg ->
        tiles (Chunker.startLine seg) (ps ++ ps') gs'
        /\ gs' <= ge' /\ ge' <= Chunker.endLine seg).
Proof.
  revert ps gs ge. induction others as [|b others IH]; intros ps gs ge.
  - exists [], gs, ge. rewrite !app_nil_r. split; [reflexivity|]. tauto.
  - cbn [fold_left]. unfold Chunker.splitByBlocks_step at 2.
    destruct (maxChunkTokens <? _)%nat.
    + rewrite <- app_assoc.
      destruct (IH (ps ++ [Chunker.labelled seg "_block" gs ge]) (ge + 1)
                   (Chunker.endLine b)) as (ps' & gs' & ge' & E & K).
      exists ([Chunker.labelled seg "_block" gs ge] ++ ps'), gs', ge'.
      split; [now rewrite E, <- !app_assoc|].
      intros T Le [Lt Inc] F Ee. inversion F as [|? ? Fb F']; subst.
      rewrite app_assoc. apply K; try assumption; try lia.
      apply (tiles_snoc _ gs); [exact T|reflexivity|simpl; lia..].
    + destruct (IH ps gs (Chunker.endLine b)) as (ps' & gs' & ge' & E & K).
      exists ps', gs', ge'. split; [exact E|].
      intros T Le [Lt Inc] F Ee. inversion F as [|? ? Fb F']; subst.
      apply K; try assumption; lia.
Qed.

(** [splitByBlocks] only appends, and it appends at least one segment. *)
Lemma splitByBlocks_grows (blocks : list Chunker.Segment) :
  exists ps,
    Chunker.splitByBlocks maxChunkTokens minChunkTokens seg blocks lines result
    = result ++ ps /\ ps <> [].
Proof.
  unfold Chunker.splitByBlocks. destruct blocks as [|first others].
  - exists [Chunker.plain seg]. split; [reflexivity|discriminate].
  - destruct (_ && _).
    + destruct (splitByBlocks_loop others
                  [Chunker.labelled seg "_header" (Chunker.startLine seg)
                                    (Chunker.startLine first - 1)]
                  (Chunker.startLine first) (Chunker.endLine first))
        as (ps' & gs' & ge' & E & _).
      rewrite E. eexists. rewrite <- !app_assoc. split; [reflexivity|]. discriminate.
    + destruct (splitByBlocks_loop others [] (Chunker.startLine seg)
                                   (Chunker.endLine first))
        as (ps' & gs' & ge' & E & _).
      rewrite app_nil_r in E. rewrite E. cbn [app].
      eexists. rewrite <- !app_assoc. split; [reflexivity|].
      destruct ps'; discriminate.
Qed.

Lemma splitByBlocks_cover (first : Chunker.Segment) (others : list Chunker.Segment) :
  Chunker.startLine seg <= Chunker.startLine first ->
  Chunker.startLine first <= Chunker.endLine first ->
  endsIncrease (Chunker.endLine first) others ->
  Forall (fun b => Chunker.endLine b <= Chunker.endLine seg) (first :: others) ->
  exists ps,
    Chunker.splitByBlocks maxChunkTokens minChunkTokens seg (first :: others) lines result
    = result ++ ps
    /\ tiles (Chunker.startLine seg) ps (S (Chunker.endLine seg)).
Proof.
  intros Hs Hf Inc F. inversion F as [|? ? Ff Fo]; subst.
  unfold Chunker.splitByBlocks.
  destruct (_ && _) eqn:Header.
  - apply andb_prop in Header. destruct Header as [Lt _]. apply Nat.ltb_lt in Lt.
    destruct (splitByBlocks_loop others
                [Chunker.labelled seg "_header" (Chunker.startLine seg)
                                  (Chunker.startLine first - 1)]
                (Chunker.startLine first) (Chunker.endLine first))
      as (ps' & gs' & ge' & E & K).
    rewrite E. destruct K as (T & Le & Ee); try assumption.
    { simpl. repeat split; lia. }
    eexists. rewrite <- !app_assoc. split; [reflexivity|].
    rewrite app_assoc.
    apply (tiles_snoc _ gs'); [exact T|reflexivity|simpl; lia..].
  - destruct (splitByBlocks_loop others [] (Chunker.startLine seg)
                                 (Chunker.endLine first))
      as (ps' & gs' & ge' & E & K).
    rewrite app_nil_r in E. rewrite E. cbn [app] in *.
    destruct K as (T & Le & Ee); try assumption; try reflexivity; try lia.
    eexists. rewrite <- !app_assoc. split; [reflexivity|].
    apply (tiles_snoc _ gs'); [exact T|reflexivity|simpl; lia..].
Qed.

End BlockSplitting.

Section MemberSplitting.

Variable minChunkTokens : nat.
Variable seg : Chunker.Segment.
Variable lines : list string.

Lemma splitContainer_step_tiles (c : Chunker.Segment)
      (res : list Chunker.Segment) (lastEnd : nat) :
  tiles (Chunker.startLine seg) res lastEnd ->
  lastEnd <= Chunker.startLine c ->
  Chunker.startLine c <= Chunker.endLine c ->
  exists res',
    Chunker.splitContainer_step minChunkTokens seg lines (res, lastEnd) c
    = (res', S (Chunker.endLine c))
    /\ tiles (Chunker.startLine seg) res' (S (Chunker.endLine c))
    /\ res' <> [].
Proof.
  intros T Hs He. unfold Chunker.splitContainer_step.
  replace (Chunker.endLine c + 1) with (S (Chunker.endLine c)) by lia.
  eexists. split; [reflexivity|]. split.
  - destruct (lastEnd <? Chunker.startLine c)%nat eqn:Gap.
    + apply Nat.ltb_lt in Gap. destruct (minChunkTokens <=? _)%nat.
      * change (res ++ [?h; ?k]) with (res ++ [h] ++ [k]). rewrite app_assoc.
        apply (tiles_snoc _ (Chunker.startLine c)); [|reflexivity|simpl; lia..].
        apply (tiles_snoc _ lastEnd); [exact T|reflexivity|simpl; lia..].
      * apply (tiles_snoc _ lastEnd); [exact T|reflexivity|simpl; lia..].
    + apply Nat.ltb_ge in Gap.
      apply (tiles_snoc _ lastEnd); [exact T|simpl; lia..].
  - repeat match goal with |- context [if ?b then _ else _] => destruct b end;
      destruct res; discriminate.
Qed.

Lemma splitContainer_loop_tiles (kids : list Chunker.Segment)
      (res : list Chunker.Segment) (lastEnd : nat) :
  tiles (Chunker.startLine seg) res lastEnd ->
  rowsSeparated lastEnd kids ->
  Forall (fun c => Chunker.endLine c <= Chunker.endLine seg) kids ->
  lastEnd <= S (Chunker.endLine seg) ->
  (kids <> [] \/ res <> []) ->
  exists res' lastEnd',
    fold_left (Chunker.splitContainer_step minChunkTokens seg lines) kids (res, lastEnd)
    = (res', lastEnd')
    /\ tiles (Chunker.startLine seg) res' lastEnd'
    /\ lastEnd' <= S (Chunker.endLine seg)
    /\ res' <> [].
Proof.
  revert res lastEnd. induction kids as [|c kids IH]; intros res lastEnd T R F Le N.
  - exists res, lastEnd. repeat split; try assumption. now destruct N.
  - destruct R as (Hs & He & R). inversion F as [|? ? Fc F']; subst.
    cbn [fold_left].
    destruct (splitContainer_step_tiles c res lastEnd T Hs He) as (r1 & E & T1 & N1).
    rewrite E. apply IH; try assumption; try lia. now right.
Qed.

Lemma setLastEndLine_tiles (a b e : nat) (res : list Chunker.Segment) :
  tiles a res b -> res <> [] -> b <= S e ->
  tiles a (Chunker.setLastEndLine e res) (S e).
Proof.
  intros T N Le. unfold Chunker.setLastEndLine.
  destruct (rev res) as [|last init] eqn:E.
  - destruct res; [congruence|]. simpl in E. now destruct (rev res).
  - assert (R : res = rev init ++ [last]).
    { rewrite <- (rev_involutive res), E. reflexivity. }
    rewrite R in T. apply tiles_app in T. destruct T as (m & T1 & Hs & He & Eb).
    simpl in Eb. apply tiles_app. exists m. split; [exact T1|].
    destruct last. simpl in *. repeat split; lia.
Qed.

Lemma splitContainer_cover :
  Chunker.children seg <> [] ->
  rowsSeparated (Chunker.startLine seg) (Chunker.children seg) ->
  Forall (fun c => Chunker.endLine c <= Chunker.endLine seg) (Chunker.children seg) ->
  tiles (Chunker.startLine seg) (Chunker.splitContainer minChunkTokens seg lines [])
        (S (Chunker.endLine seg)).
Proof.
  intros N R F. unfold Chunker.splitContainer.
  destruct (Chunker.children seg) as [|c kids] eqn:K; [congruence|].
  destruct (splitContainer_loop_tiles (c :: kids) [] (Chunker.startLine seg))
    as (res' & lastEnd' & E & T & Le & N'); try assumption.
  { reflexivity. }
  { destruct R as (Hs & He & _). inversion F; subst. lia. }
  { now left. }
  rewrite E.
  destruct (lastEnd' <=? Chunker.endLine seg)%nat eqn:Trail.
  - apply Nat.leb_le in Trail. destruct (minChunkTokens <=? _)%nat.
    + apply (tiles_snoc _ lastEnd'); [exact T|reflexivity|simpl; lia..].
    + destruct res' as [|r res']; [congruence|]. cbn [List.length Nat.ltb Nat.leb].
      apply (setLastEndLine_tiles _ lastEnd'); [exact T|discriminate|lia].
  - apply Nat.leb_gt in Trail. now replace (S (Chunker.endLine seg)) with lastEnd' by lia.
Qed.

(** [splitContainer] on an empty accumulator emits a segment for each
    recorded child, so at least one when there is a child. *)
Lemma splitContainer_nonempty :
  Chunker.children seg <> [] ->
  Chunker.splitContainer minChunkTokens seg lines [] <> [].
Proof.
  intros N. unfold Chunker.splitContainer.
  assert (G : forall kids st, (kids <> [] \/ fst st <> []) ->
              fst (fold_left (Chunker.splitContainer_step minChunkTokens seg lines)
                             kids st) <> []).
  { induction kids as [|c kids IH]; intros [r e] H.
    - now destruct H.
    - cbn [fold_left]. apply IH. right. simpl.
      repeat match goal with |- context [if ?b then _ else _] => destruct b end;
        destruct r; discriminate. }
  specialize (G (Chunker.children seg) ([], Chunker.startLine seg) (or_introl N)).
  destruct (fold_left _ _ _) as [r e]. simpl in G.
  destruct (e <=? _)%nat; [|exact G].
  destruct (minChunkTokens <=? _)%nat; [destruct r; discriminate|].
  destruct r as [|x r]; [congruence|]. cbn [List.length Nat.ltb Nat.leb].
  unfold Chunker.setLastEndLine. destruct (rev (x :: r)) eqn:E.
  - discriminate.
  - destruct (rev l); discriminate.
Qed.

End MemberSplitting.

Section ChunkerBlocks.

Variable maxChunkTokens : nat.
Variable minChunkTokens : nat.

(** X3. When the logical blocks of a function start inside it, end inside
    it and end on strictly growing rows, the segments [splitByBlocks]
    emits (optional header, then the block groups) tile the function's
    rows: no row is lost between groups and none lies in two segments. *)
Theorem splitByBlocks_tiles (seg first : Chunker.Segment)
        (others : list Chunker.Segment) (lines : list string)
        (result : list Chunker.Segment) :
  Chunker.startLine seg <= Chunker.startLine first ->
  Chunker.startLine first <= Chunker.endLine first ->
  endsIncrease (Chunker.endLine first) others ->
  Forall (fun b => Chunker.endLine b <= Chunker.endLine seg) (first :: others) ->
  exists ps,
    Chunker.splitByBlocks maxChunkTokens minChunkTokens seg (first :: others) lines result
    = result ++ ps
    /\ tiles (Chunker.startLine seg) ps (S (Chunker.endLine seg)).
Proof. apply splitByBlocks_cover. Qed.

(** X4. When the recorded children of a container lie on rows of their
    own and end inside it, the segments [splitContainer] emits (headers,
    children, footer) tile the container's rows from its first to its
    last. *)
Theorem splitContainer_tiles (seg : Chunker.Segment) (lines : list string) :
  Chunker.children seg <> [] ->
  rowsSeparated (Chunker.startLine seg) (Chunker.children seg) ->
  Forall (fun c => Chunker.endLine c <= Chunker.endLine seg) (Chunker.children seg) ->
  tiles (Chunker.startLine seg) (Chunker.splitContainer minChunkTokens seg lines [])
        (S (Chunker.endLine seg)).
Proof. apply splitContainer_cover. Qed.

End ChunkerBlocks.

(** ** The merge pass, row by row *)

Lemma rowsSeparated_snoc (a : nat) (l : list Chunker.Segment) (s : Chunker.Segment) :
  rowsSeparated a l -> a <= Chunker.startLine s ->
  Forall (fun x => Chunker.endLine x < Chunker.startLine s) l ->
  Chunker.startLine s <= Chunker.endLine s ->
  rowsSeparated a (l ++ [s]).
Proof.
  revert a. induction l as [|x l IH]; simpl; intros a R Ha F Hs.
  - tauto.
  - destruct R as (Hx & He & R). inversion F as [|? ? Fx F']; subst.
    repeat split; try assumption. apply IH; try assumption; lia.
Qed.

Lemma rowsSeparated_snoc_inv (a : nat) (l : list Chunker.Segment) (s : Chunker.Segment) :
  rowsSeparated a (l ++ [s]) ->
  rowsSeparated a l /\ a <= Chunker.startLine s
  /\ Forall (fun x => Chunker.endLine x < Chunker.startLine s) l
  /\ Chunker.startLine s <= Chunker.endLine s.
Proof.
  revert a. induction l as [|x l IH]; simpl; intros a R.
  - repeat split; try tauto. constructor.
  - destruct R as (Hx & He & R). destruct (IH _ R) as (R' & Ha & F & Hs).
    repeat split; try assumption; try lia. constructor; [lia|exact F].
Qed.

Section MergePass.

Variable minChunkTokens : nat.
Variable lines : list string.

(** The two outcomes of one round of the merge loop. *)
Lemma mergeStep_shape (st : Chunker.MergeState) (next : Chunker.Segment) :
  let st' := Chunker.mergeStep minChunkTokens lines st next in
  (Chunker.flushed st' = Chunker.flushed st
   /\ Chunker.startLine (Chunker.current st') = Chunker.startLine (Chunker.current st)
   /\ Chunker.endLine (Chunker.current st') = Chunker.endLine next)
  \/ (Chunker.flushed st' = Chunker.flushed st ++ [Chunker.current st]
      /\ Chunker.current st' = next
      /\ minChunkTokens <= Chunker.currentTokens st
      /\ minChunkTokens <= tokensOf lines next).
Proof.
  unfold Chunker.mergeStep, tokensOf. cbv zeta.
  destruct (_ || _) eqn:Small.
  - left. destruct (Chunker.current st).
    destruct (Chunker.currentTokens st <? Chunker.estimateTokens _ _ _)%nat;
      simpl; repeat split; reflexivity.
  - right. apply orb_false_iff in Small. destruct Small as [A B].
    apply Nat.ltb_ge in A, B. simpl. repeat split; try reflexivity; assumption.
Qed.

Lemma merge_loop_floor (rest : list Chunker.Segment) (st : Chunker.MergeState) :
  coherent lines st ->
  Forall (fun s => minChunkTokens <= tokensOf lines s) (Chunker.flushed st) ->
  (Chunker.flushed st = [] \/ minChunkTokens <= tokensOf lines (Chunker.current st)) ->
  endsAscend (Chunker.endLine (Chunker.current st)) rest ->
  let st' := fold_left (Chunker.mergeStep minChunkTokens lines) rest st in
  Forall (fun s => minChunkTokens <= tokensOf lines s) (Chunker.flushed st')
  /\ (Chunker.flushed st' = []
      \/ minChunkTokens <= tokensOf lines (Chunker.current st')).
Proof.
  revert st. induction rest as [|next rest IH]; intros st C F D A; simpl.
  - tauto.
  - destruct A as [Le A].
    pose proof (mergeStep_coherent minChunkTokens lines st next) as C'.
    destruct (mergeStep_shape st next) as [(Ef & Es & Ee)|(Ef & Ec & Hc & Hn)].
    + apply IH; try assumption.
      * now rewrite Ef.
      * rewrite Ef. destruct D as [D|D]; [now left|right].
        unfold tokensOf in *. rewrite Es, Ee.
        pose proof (estimateTokens_mono lines (Chunker.startLine (Chunker.current st))
                      _ _ Le). lia.
      * now rewrite Ee.
    + apply IH; try assumption.
      * rewrite Ef. apply Forall_app. split; [exact F|].
        constructor; [|constructor]. unfold tokensOf. now rewrite <- C.
      * right. now rewrite Ec.
      * now rewrite Ec.
Qed.

Lemma covered_app (r : nat) (l1 l2 : list Chunker.Segment) :
  covered r (l1 ++ l2) <-> covered r l1 \/ covered r l2.
Proof.
  unfold covered. split.
  - intros (s & I & H). apply in_app_or in I.
    destruct I; [left|right]; now exists s.
  - intros [(s & I & H)|(s & I & H)]; exists s; split; try assumption;
      apply in_or_app; tauto.
Qed.

Lemma covered_one (r : nat) (s : Chunker.Segment) :
  covered r [s] <-> Chunker.startLine s <= r <= Chunker.endLine s.
Proof.
  unfold covered. split.
  - intros (x & [<-|[]] & H). exact H.
  - intros H. exists s. split; [now left|exact H].
Qed.

Lemma merge_loop_rows (from : nat) (rest : list Chunker.Segment)
      (st : Chunker.MergeState) :
  rowsSeparated from (Chunker.flushed st ++ [Chunker.current st]) ->
  rowsSeparated (S (Chunker.endLine (Chunker.current st))) rest ->
  let st' := fold_left (Chunker.mergeStep minChunkTokens lines) rest st in
  rowsSeparated from (Chunker.flushed st' ++ [Chunker.current st'])
  /\ forall r, covered r (Chunker.flushed st ++ [Chunker.current st] ++ rest) ->
               covered r (Chunker.flushed st' ++ [Chunker.current st']).
Proof.
  revert st. induction rest as [|next rest IH]; intros st R A; simpl.
  - split; [exact R|]. intros r H. exact H.
  - destruct A as (Hs & He & A).
    apply rowsSeparated_snoc_inv in R. destruct R as (Rf & Ha & Ff & Hc).
    set (step := Chunker.mergeStep minChunkTokens lines st next).
    assert (K : rowsSeparated from (Chunker.flushed step ++ [Chunker.current step])
                /\ Chunker.endLine (Chunker.current step) = Chunker.endLine next
                /\ forall r, covered r (Chunker.flushed st ++ [Chunker.current st; next]) ->
                             covered r (Chunker.flushed step ++ [Chunker.current step])).
    { destruct (mergeStep_shape st next) as [(Ef & Es & Ee)|(Ef & Ec & _)];
        fold step in Ef, Es, Ee || fold step in Ef, Ec.
      - rewrite Ef. repeat split; [|exact Ee|].
        + apply rowsSeparated_snoc; rewrite ?Es, ?Ee; try assumption; try lia.
        + intros r. rewrite !covered_app.
          change [Chunker.current st; next] with ([Chunker.current st] ++ [next]).
          rewrite covered_app, !covered_one, Es, Ee. intuition lia.
      - rewrite Ef, Ec. repeat split.
        + apply rowsSeparated_snoc; try assumption; try lia.
          * apply rowsSeparated_snoc; assumption.
          * apply Forall_app. split.
            -- rewrite Forall_forall in *. intros x I. specialize (Ff x I). lia.
            -- constructor; [lia|constructor].
        + intros r. rewrite <- app_assoc. exact (fun H => H). }
    destruct K as (R' & Ee & Cov).
    destruct (IH step R') as [R'' Cov'].
    { now rewrite Ee. }
    split; [exact R''|]. intros r H. apply Cov'.
    specialize (Cov r).
    change [Chunker.current st; next] with ([Chunker.current st] ++ [next]) in Cov.
    assert (H' : covered r (Chunker.flushed st ++ [Chunker.current st] ++ [next] ++ rest))
      by exact H.
    clear H. rewrite !covered_app in *. tauto.
Qed.

(** X5. When the end rows of the segments never decrease, every segment
    the merge pass returns has a token estimate of at least
    [minChunkTokens], unless the pass returns a single segment (or
    none). *)
Theorem mergeSmallSegments_floor (segments : list Chunker.Segment) :
  endsAscend 0 segments ->
  List.length (Chunker.mergeSmallSegments minChunkTokens segments lines) <= 1
  \/ Forall (fun s => minChunkTokens <= tokensOf lines s)
            (Chunker.mergeSmallSegments minChunkTokens segments lines).
Proof.
  intros A. unfold Chunker.mergeSmallSegments.
  destruct segments as [|first others]; [left; simpl; lia|].
  destruct A as [_ A].
  destruct (merge_loop_floor others
              (Chunker.mkMerge [] first
                 (Chunker.estimateTokens lines (Chunker.startLine first)
                                         (Chunker.endLine first))))
    as [F D]; try assumption.
  - reflexivity.
  - constructor.
  - now left.
  - destruct D as [D|D].
    + left. rewrite D. simpl. lia.
    + right. apply Forall_app. split; [exact F|]. now constructor.
Qed.

(** X6. The merge pass keeps segments in order and apart, and loses no
    row: when each segment starts after the row its predecessor ends on,
    so does each returned segment, and every row that lay in a segment
    lies in a returned one. *)
Theorem mergeSmallSegments_rows (from : nat) (segments : list Chunker.Segment) :
  rowsSeparated from segments ->
  rowsSeparated from (Chunker.mergeSmallSegments minChunkTokens segments lines)
  /\ forall r, covered r segments ->
               covered r (Chunker.mergeSmallSegments minChunkTokens segments lines).
Proof.
  intros R. unfold Chunker.mergeSmallSegments.
  destruct segments as [|first others]; [split; [exact R|tauto]|].
  destruct R as (Hs & He & R).
  apply (merge_loop_rows from others
           (Chunker.mkMerge [] first
              (Chunker.estimateTokens lines (Chunker.startLine first)
                                      (Chunker.endLine first)))).
  - simpl. tauto.
  - exact R.
Qed.

Lemma mergeSmallSegments_nil (segments : list Chunker.Segment) :
  Chunker.mergeSmallSegments minChunkTokens segments lines = [] <-> segments = [].
Proof.
  unfold Chunker.mergeSmallSegments. destruct segments as [|first others].
  - tauto.
  - split; [|discriminate]. intros H. apply app_eq_nil in H. destruct H; discriminate.
Qed.

End MergePass.

(** ** Extraction and the chunks of a file *)

Lemma extract_loop (children : list Chunker.SyntaxNode)
      (acc : list Chunker.Segment) (pending : option nat) :
  map (fun s => (Chunker.nodeType s, Chunker.endLine s, Chunker.symbolName s))
      (fst (fold_left
              (fun (st : list Chunker.Segment * option nat) child =>
                 let (acc, pending) := st in
                 if String.eqb (Chunker.node_type child) "comment" then
                   (acc, Chunker.notePending pending child)
                 else if String.eqb (Chunker.node_type child) "ERROR"
                         || negb (JsSet.has Chunker.SEMANTIC_NODE_TYPES
                                            (Chunker.node_type child)) then
                   (acc, None)
                 else (acc ++ [Chunker.topLevelSegment pending child], None))
              children (acc, pending)))
  = map (fun s => (Chunker.nodeType s, Chunker.endLine s, Chunker.symbolName s)) acc
    ++ map (fun c => (Chunker.node_type c, Chunker.endRow c, Chunker.extractSymbolName c))
           (filter recognised children).
Proof.
  revert acc pending. induction children as [|c children IH]; intros acc pending.
  - simpl. now rewrite app_nil_r.
  - cbn [fold_left filter]. unfold recognised at 1.
    destruct (String.eqb (Chunker.node_type c) "comment") eqn:Comment.
    + apply String.eqb_eq in Comment. rewrite Comment. cbn - [String.eqb].
      rewrite IH. reflexivity.
    + destruct (String.eqb (Chunker.node_type c) "ERROR") eqn:Error.
      * apply String.eqb_eq in Error. rewrite Error. cbn - [String.eqb].
        rewrite IH. reflexivity.
      * cbn [orb]. destruct (JsSet.has _ _); cbn [negb].
        -- rewrite IH, map_app, <- app_assoc. reflexivity.
        -- rewrite IH. reflexivity.
Qed.

Lemma extractTopLevelSegments_keys (rootNode : Chunker.SyntaxNode) :
  map (fun s => (Chunker.nodeType s, Chunker.endLine s, Chunker.symbolName s))
      (Chunker.extractTopLevelSegments rootNode)
  = map (fun c => (Chunker.node_type c, Chunker.endRow c, Chunker.extractSymbolName c))
        (filter recognised (Chunker.node_children rootNode)).
Proof.
  unfold Chunker.extractTopLevelSegments. now rewrite extract_loop.
Qed.

(** X7. [extractTopLevelSegments] emits exactly one segment per top-level
    child of a recognised kind, in source order, with that child's kind,
    end row and symbol name; comments, ERROR nodes and children of any
    other kind give no segment of their own. *)
Theorem extractTopLevelSegments_recognised (rootNode : Chunker.SyntaxNode) :
  map (fun s => (Chunker.nodeType s, Chunker.endLine s, Chunker.symbolName s))
      (Chunker.extractTopLevelSegments rootNode)
  = map (fun c => (Chunker.node_type c, Chunker.endRow c, Chunker.extractSymbolName c))
        (filter recognised (Chunker.node_children rootNode)).
Proof. apply extractTopLevelSegments_keys. Qed.

Section ChunksOfAFile.

Variable maxChunkTokens : nat.
Variable minChunkTokens : nat.
Variable parse : bool -> string -> Chunker.SyntaxNode.

Lemma oversized_rows (lines : list string) (seg : Chunker.Segment) :
  Chunker.oversized maxChunkTokens lines seg = true ->
  Chunker.startLine seg <= Chunker.endLine seg.
Proof.
  unfold Chunker.oversized. intros H. apply Nat.ltb_lt in H.
  destruct (le_lt_dec (Chunker.startLine seg) (Chunker.endLine seg)) as [L|L];
    [exact L|].
  rewrite (estimateTokens_inverted lines _ _ L) in H. lia.
Qed.

Lemma splitByLineCount_grows (lines : list string) (seg : Chunker.Segment)
      (result : list Chunker.Segment) :
  Chunker.oversized maxChunkTokens lines seg = true ->
  exists ps,
    Chunker.splitByLineCount maxChunkTokens seg lines result = result ++ ps
    /\ ps <> [].
Proof.
  intros O. apply oversized_rows in O.
  destruct (splitByLineCount_parts maxChunkTokens seg lines result) as (ps & E & T & _).
  exists ps. split; [exact E|].
  apply (tiles_nonempty _ _ _ T). lia.
Qed.

(** A segment that is not expanded as a container adds at least one
    segment to the result. *)
Lemma expandSegment_leaf_grows (fuel : nat) (lines : list string)
      (seg : Chunker.Segment) (result : list Chunker.Segment) :
  Chunker.children seg = [] ->
  exists ps,
    Chunker.expandSegment_go maxChunkTokens minChunkTokens fuel seg lines result
    = result ++ ps /\ ps <> [].
Proof.
  intros K. destruct fuel; simpl; rewrite K; simpl;
    (destruct (Chunker.functionBlocks seg) as [blocks|];
     [destruct ((1 <? List.length blocks)%nat
                && Chunker.oversized maxChunkTokens lines seg);
      [apply splitByBlocks_grows|]|];
     (destruct (Chunker.oversized maxChunkTokens lines seg) eqn:O;
      [now apply splitByLineCount_grows
      |exists [Chunker.plain seg]; split; [reflexivity|discriminate]])).
Qed.

Lemma expandSegment_grows (lines : list string) (seg : Chunker.Segment)
      (result : list Chunker.Segment) :
  exists ps,
    Chunker.expandSegment maxChunkTokens minChunkTokens seg lines result
    = result ++ ps /\ ps <> [].
Proof.
  unfold Chunker.expandSegment. cbn [Chunker.expandSegment_go].
  destruct ((0 <? List.length (Chunker.children seg))%nat
            && Chunker.oversized maxChunkTokens lines seg) eqn:Container.
  - apply andb_prop in Container. destruct Container as [Kids _].
    assert (N : Chunker.children seg <> []).
    { destruct (Chunker.children seg); [discriminate|discriminate]. }
    pose proof (splitContainer_nonempty minChunkTokens seg lines N) as NE.
    pose proof (splitContainer_children minChunkTokens seg lines) as Leaves.
    revert NE Leaves. generalize (Chunker.splitContainer minChunkTokens seg lines []).
    intros subs NE Leaves.
    assert (G : forall subs r,
               Forall (fun s => Chunker.children s = []) subs ->
               exists ps,
                 fold_left (fun r sub =>
                              Chunker.expandSegment_go maxChunkTokens minChunkTokens 0
                                                       sub lines r) subs r
                 = r ++ ps /\ (subs <> [] -> ps <> [])).
    { clear. induction subs as [|sub subs IH]; intros r F.
      - exists []. rewrite app_nil_r. split; [reflexivity|congruence].
      - inversion F as [|? ? Fs F']; subst. cbn [fold_left].
        destruct (expandSegment_leaf_grows 0 lines sub r Fs) as (p1 & E1 & N1).
        rewrite E1. destruct (IH (r ++ p1) F') as (p2 & E2 & _).
        rewrite E2. exists (p1 ++ p2). rewrite app_assoc. split; [reflexivity|].
        intros _. destruct p1; [congruence|discriminate]. }
    destruct (G subs result Leaves) as (ps & E & N').
    exists ps. split; [exact E|]. now apply N'.
  - destruct (Chunker.functionBlocks seg) as [blocks|].
    + destruct ((1 <? List.length blocks)%nat
                && Chunker.oversized maxChunkTokens lines seg);
        [apply splitByBlocks_grows|].
      destruct (Chunker.oversized maxChunkTokens lines seg) eqn:O;
        [now apply splitByLineCount_grows|].
      exists [Chunker.plain seg]. split; [reflexivity|discriminate].
    + destruct (Chunker.oversized maxChunkTokens lines seg) eqn:O;
        [now apply splitByLineCount_grows|].
      exists [Chunker.plain seg]. split; [reflexivity|discriminate].
Qed.

Lemma expandOversizedSegments_nil (segments : list Chunker.Segment)
      (lines : list string) :
  Chunker.expandOversizedSegments maxChunkTokens minChunkTokens segments lines = []
  <-> segments = [].
Proof.
  unfold Chunker.expandOversizedSegments.
  assert (G : forall segs r,
             exists ps,
               fold_left (fun result seg =>
                            Chunker.expandSegment maxChunkTokens minChunkTokens
                                                  seg lines result) segs r
               = r ++ ps /\ (segs <> [] -> ps <> [])).
  { induction segs as [|seg segs IH]; intros r.
    - exists []. rewrite app_nil_r. split; [reflexivity|congruence].
    - cbn [fold_left]. destruct (expandSegment_grows lines seg r) as (p1 & E1 & N1).
      rewrite E1. destruct (IH (r ++ p1)) as (p2 & E2 & _). rewrite E2.
      exists (p1 ++ p2). rewrite app_assoc. split; [reflexivity|].
      intros _. destruct p1; [congruence|discriminate]. }
  destruct (G segments []) as (ps & E & N). rewrite E. cbn [app].
  split.
  - intros ->. destruct segments; [reflexivity|]. exfalso. now apply N.
  - intros ->. simpl in E. congruence.
Qed.

(** X8. [chunkFile] returns no chunk exactly when the parsed tree has no
    top-level child of a recognised kind: a file holding only comments,
    ERROR nodes or statements of other kinds is left out of the index,
    and any recognised declaration gives at least one chunk. *)
Theorem chunkFile_empty_iff (path content : string) :
  Chunker.chunkFile maxChunkTokens minChunkTokens parse path content = []
  <-> filter recognised
        (Chunker.node_children (parse (Js.endsWith ".tsx" path) content)) = [].
Proof.
  unfold Chunker.chunkFile.
  set (rootNode := parse (Js.endsWith ".tsx" path) content).
  set (lines := Js.split "010"%char content).
  pose proof (extractTopLevelSegments_keys rootNode) as X.
  assert (R : Chunker.extractTopLevelSegments rootNode = []
              <-> filter recognised (Chunker.node_children rootNode) = []).
  { split; intros H.
    - rewrite H in X. simpl in X. symmetry in X. now apply map_eq_nil in X.
    - rewrite H in X. simpl in X. now apply map_eq_nil in X. }
  rewrite <- R, <- (expandOversizedSegments_nil _ lines),
    <- (mergeSmallSegments_nil minChunkTokens lines).
  split.
  - apply map_eq_nil.
  - intros ->. reflexivity.
Qed.

End ChunksOfAFile.

Example splitByLineCount_tiles_witness :
  Chunker.startLine rowsFunction <= Chunker.endLine rowsFunction /\
  exists ps,
    Chunker.splitByLineCount 2 rowsFunction rowsLines [] = [] ++ ps
    /\ tiles (Chunker.startLine rowsFunction) ps (S (Chunker.endLine rowsFunction)).
Proof.
  split; [vm_compute; lia|].
  apply (splitByLineCount_tiles 2 rowsFunction rowsLines []). vm_compute. lia.
Defined.

Example splitByBlocks_tiles_witness :
  Chunker.startLine rowsFunction <= Chunker.startLine rowsFirstBlock /\
  Chunker.startLine rowsFirstBlock <= Chunker.endLine rowsFirstBlock /\
  endsIncrease (Chunker.endLine rowsFirstBlock) rowsOtherBlocks /\
  Forall (fun b => Chunker.endLine b <= Chunker.endLine rowsFunction)
         (rowsFirstBlock :: rowsOtherBlocks) /\
  exists ps,
    Chunker.splitByBlocks 2 1 rowsFunction (rowsFirstBlock :: rowsOtherBlocks)
                          rowsLines [] = [] ++ ps
    /\ tiles (Chunker.startLine rowsFunction) ps (S (Chunker.endLine rowsFunction)).
Proof.
  assert (H1 : Chunker.startLine rowsFunction <= Chunker.startLine rowsFirstBlock)
    by (vm_compute; lia).
  assert (H2 : Chunker.startLine rowsFirstBlock <= Chunker.endLine rowsFirstBlock)
    by (vm_compute; lia).
  assert (H3 : endsIncrease (Chunker.endLine rowsFirstBlock) rowsOtherBlocks)
    by (vm_compute; repeat split; lia).
  assert (H4 : Forall (fun b => Chunker.endLine b <= Chunker.endLine rowsFunction)
                      (rowsFirstBlock :: rowsOtherBlocks))
    by (repeat constructor; vm_compute; lia).
  repeat (split; [assumption|]).
  exact (splitByBlocks_tiles 2 1 rowsFunction rowsFirstBlock rowsOtherBlocks rowsLines []
                             H1 H2 H3 H4).
Defined.

Example splitContainer_tiles_witness :
  Chunker.children rowsClass <> [] /\
  rowsSeparated (Chunker.startLine rowsClass) (Chunker.children rowsClass) /\
  Forall (fun c => Chunker.endLine c <= Chunker.endLine rowsClass)
         (Chunker.children rowsClass) /\
  tiles (Chunker.startLine rowsClass) (Chunker.splitContainer 1 rowsClass rowsLines [])
        (S (Chunker.endLine rowsClass)).
Proof.
  assert (H1 : Chunker.children rowsClass <> []) by (vm_compute; discriminate).
  assert (H2 : rowsSeparated (Chunker.startLine rowsClass) (Chunker.children rowsClass))
    by (vm_compute; repeat split; lia).
  assert (H3 : Forall (fun c => Chunker.endLine c <= Chunker.endLine rowsClass)
                      (Chunker.children rowsClass))
    by (repeat constructor; vm_compute; lia).
  repeat (split; [assumption|]).
  exact (splitContainer_tiles 1 rowsClass rowsLines H1 H2 H3).
Defined.

Example mergeSmallSegments_floor_witness :
  endsAscend 0 rowsSegments /\
  (List.length (Chunker.mergeSmallSegments 2 rowsSegments rowsLines) <= 1
   \/ Forall (fun s => 2 <= tokensOf rowsLines s)
             (Chunker.mergeSmallSegments 2 rowsSegments rowsLines)).
Proof.
  assert (H : endsAscend 0 rowsSegments) by (vm_compute; repeat split; lia).
  split; [exact H|].
  exact (mergeSmallSegments_floor 2 rowsLines rowsSegments H).
Defined.

Example mergeSmallSegments_rows_witness :
  rowsSeparated 0 rowsSegments /\
  rowsSeparated 0 (Chunker.mergeSmallSegments 2 rowsSegments rowsLines) /\
  forall r, covered r rowsSegments ->
            covered r (Chunker.mergeSmallSegments 2 rowsSegments rowsLines).
Proof.
  assert (H : rowsSeparated 0 rowsSegments) by (vm_compute; repeat split; lia).
  split; [exact H|].
  exact (mergeSmallSegments_rows 2 rowsLines 0 rowsSegments H).
Defined.

(** ** The diff of any two summaries *)

Lemma get_fold_set {V} (l : list (string * V)) (m : JsMap.t V) (k : string) :
  JsMap.get (fold_left (fun m kv => JsMap.set m (fst kv) (snd kv)) l m) k
  = match find (fun kv => String.eqb (fst kv) k) (rev l) with
    | Some kv => Some (snd kv)
    | None => JsMap.get m k
    end.
Proof.
  induction l as [|x l IH] using rev_ind; [reflexivity|].
  rewrite fold_left_app, rev_app_distr. cbn [fold_left rev app find].
  destruct (String.eqb (fst x) k) eqn:E.
  - apply String.eqb_eq in E. subst k. apply get_set_same.
  - apply String.eqb_neq in E. rewrite get_set_other by exact E. exact IH.
Qed.

Lemma find_file_entry (l : list Merkle.MerkleNode) (p : string) :
  find (fun kv : string * string => String.eqb (fst kv) p)
       (map (fun n => (Merkle.path n, Merkle.hash n)) (filter Merkle.isFile l))
  = option_map (fun n => (Merkle.path n, Merkle.hash n))
      (find (fun n => Merkle.isFile n && String.eqb (Merkle.path n) p) l).
Proof.
  induction l as [|n l IH]; [reflexivity|]. simpl.
  destruct (Merkle.isFile n); simpl; [|exact IH].
  destruct (String.eqb (Merkle.path n) p); [reflexivity|exact IH].
Qed.

(** The file map the diff builds answers with the recorded hash. *)
Lemma get_fileMap (nodes : list Merkle.MerkleNode) (p : string) :
  JsMap.get (Merkle.fileMap nodes) p = fileHash nodes p.
Proof.
  unfold Merkle.fileMap, JsMap.of_list, fileHash.
  rewrite get_fold_set, <- map_rev, <- filter_rev, find_file_entry.
  destruct (find _ (rev nodes)); reflexivity.
Qed.

Lemma has_fileMap (nodes : list Merkle.MerkleNode) (p : string) :
  JsMap.has (Merkle.fileMap nodes) p = true <-> fileHash nodes p <> None.
Proof.
  unfold JsMap.has. rewrite get_fileMap.
  destruct (fileHash nodes p); split; congruence.
Qed.

Lemma fileMap_nodup (nodes : list Merkle.MerkleNode) :
  NoDup (JsMap.keys (Merkle.fileMap nodes)).
Proof. apply of_list_keys_nodup. Qed.

Lemma in_addedOf (O N : JsMap.t string) (p : string) :
  In p (addedOf O N) <-> JsMap.has N p = true /\ JsMap.has O p = false.
Proof.
  unfold addedOf. rewrite in_map_iff. split.
  - intros ([k h] & <- & I). apply filter_In in I. destruct I as [I F]. simpl in *.
    split; [|now apply negb_true_iff].
    apply has_keys. unfold JsMap.keys. apply in_map_iff. now exists (k, h).
  - intros [HN HO]. apply has_keys in HN. unfold JsMap.keys in HN.
    apply in_map_iff in HN. destruct HN as ([k h] & <- & I). exists (k, h).
    split; [reflexivity|]. apply filter_In. split; [exact I|]. simpl in *.
    now rewrite HO.
Qed.

Lemma in_modifiedOf (O N : JsMap.t string) (p : string) :
  NoDup (JsMap.keys N) ->
  In p (modifiedOf O N)
  <-> exists ho hn, JsMap.get O p = Some ho /\ JsMap.get N p = Some hn /\ ho <> hn.
Proof.
  intros D. unfold modifiedOf. rewrite in_map_iff. split.
  - intros ([k h] & <- & I). apply filter_In in I. destruct I as [I F]. simpl in *.
    destruct (JsMap.get O k) as [o|]; [|discriminate].
    exists o, h. repeat split.
    + now apply get_in.
    + apply negb_true_iff in F. now apply String.eqb_neq.
  - intros (ho & hn & GO & GN & Ne). exists (p, hn). split; [reflexivity|].
    apply filter_In. split; [now apply get_in_inv|]. simpl. rewrite GO.
    apply negb_true_iff. now apply String.eqb_neq.
Qed.

Lemma diff_members (old new : list Merkle.MerkleNode) (p : string) :
  (In p (Merkle.added (Merkle.tsDiffMerkleTrees old new))
   <-> fileHash old p = None /\ fileHash new p <> None)
  /\ (In p (Merkle.removed (Merkle.tsDiffMerkleTrees old new))
      <-> fileHash old p <> None /\ fileHash new p = None)
  /\ (In p (Merkle.modified (Merkle.tsDiffMerkleTrees old new))
      <-> exists ho hn,
            fileHash old p = Some ho /\ fileHash new p = Some hn /\ ho <> hn).
Proof.
  rewrite diff_as_filters. cbn [Merkle.added Merkle.removed Merkle.modified].
  split; [|split]; split.
  - intros I. apply in_addedOf in I. destruct I as [HN HO].
    apply has_fileMap in HN. split; [|exact HN].
    unfold JsMap.has in HO. rewrite get_fileMap in HO.
    destruct (fileHash old p); congruence.
  - intros [HO HN]. apply in_addedOf. split; [now apply has_fileMap|].
    unfold JsMap.has. now rewrite get_fileMap, HO.
  - intros I. apply filter_In in I. destruct I as [I F]. split.
    + apply has_keys, has_fileMap in I. exact I.
    + apply negb_true_iff in F. unfold JsMap.has in F. rewrite get_fileMap in F.
      destruct (fileHash new p); congruence.
  - intros [HO HN]. apply filter_In. split.
    + now apply has_keys, has_fileMap.
    + unfold JsMap.has. now rewrite get_fileMap, HN.
  - intros I. apply in_modifiedOf in I; [|apply fileMap_nodup].
    now rewrite !get_fileMap in I.
  - intros I. apply in_modifiedOf; [apply fileMap_nodup|].
    now rewrite !get_fileMap.
Qed.

(** X9. For any two summaries, a path is reported added exactly when only
    the new summary records a hash for it as a file, removed exactly when
    only the old one does, and modified exactly when both do and the two
    hashes differ. Directory nodes play no part. *)
Theorem tsDiffMerkleTrees_members (old new : list Merkle.MerkleNode) (p : string) :
  (In p (Merkle.added (Merkle.tsDiffMerkleTrees old new))
   <-> fileHash old p = None /\ fileHash new p <> None)
  /\ (In p (Merkle.removed (Merkle.tsDiffMerkleTrees old new))
      <-> fileHash old p <> None /\ fileHash new p = None)
  /\ (In p (Merkle.modified (Merkle.tsDiffMerkleTrees old new))
      <-> exists ho hn,
            fileHash old p = Some ho /\ fileHash new p = Some hn /\ ho <> hn).
Proof. apply diff_members. Qed.

Lemma map_fst_filter {A B} (f : A -> bool) (l : list (A * B)) :
  map fst (filter (fun e => f (fst e)) l) = filter f (map fst l).
Proof.
  induction l as [|[a b] l IH]; [reflexivity|]. simpl.
  destruct (f a); simpl; now rewrite IH.
Qed.

(** X10. Diffing the other way round swaps the added and the removed
    paths, as the same lists in the same order, and reports the same
    paths as modified. *)
Theorem tsDiffMerkleTrees_swap (old new : list Merkle.MerkleNode) :
  Merkle.added (Merkle.tsDiffMerkleTrees new old)
  = Merkle.removed (Merkle.tsDiffMerkleTrees old new)
  /\ Merkle.removed (Merkle.tsDiffMerkleTrees new old)
     = Merkle.added (Merkle.tsDiffMerkleTrees old new)
  /\ forall p, In p (Merkle.modified (Merkle.tsDiffMerkleTrees new old))
               <-> In p (Merkle.modified (Merkle.tsDiffMerkleTrees old new)).
Proof.
  split; [|split; [|split]].
  - rewrite !diff_as_filters. cbn [Merkle.added Merkle.removed].
    unfold addedOf. apply (map_fst_filter (fun p => negb (JsMap.has _ p))).
  - rewrite !diff_as_filters. cbn [Merkle.added Merkle.removed].
    unfold addedOf. symmetry. apply (map_fst_filter (fun p => negb (JsMap.has _ p))).
  - intros I. apply (proj2 (proj2 (diff_members new old p))) in I.
    apply (proj2 (proj2 (diff_members old new p))).
    destruct I as (a & b & Ha & Hb & Ne). exists b, a. repeat split; congruence.
  - intros I. apply (proj2 (proj2 (diff_members old new p))) in I.
    apply (proj2 (proj2 (diff_members new old p))).
    destruct I as (a & b & Ha & Hb & Ne). exists b, a. repeat split; congruence.
Qed.

(** ** Parent paths *)

Lemma lastIndexOf_go_absent (c : ascii) (s : string) (i : nat) (found : option nat) :
  countChar c s = 0 -> Js.lastIndexOf_go c s i found = found.
Proof.
  revert i found. induction s as [|d s IH]; intros i found; simpl; [reflexivity|].
  destruct (Ascii.eqb d c); [discriminate|]. intros H. now apply IH.
Qed.

Lemma lastIndexOf_go_last (c : ascii) (d f : string) (i : nat) (found : option nat) :
  countChar c f = 0 ->
  Js.lastIndexOf_go c (String.append d (String c f)) i found
  = Some (i + String.length d).
Proof.
  intros H. revert i found. induction d as [|x d IH]; intros i found; simpl.
  - rewrite Ascii.eqb_refl, lastIndexOf_go_absent by exact H. f_equal. lia.
  - rewrite IH. f_equal. lia.
Qed.

Lemma substring_append (d rest : string) :
  String.substring 0 (String.length d) (String.append d rest) = d.
Proof. induction d as [|x d IH]; simpl; [now destruct rest|now rewrite IH]. Qed.

(** X11. [tsParentPath] cuts a path at its last slash: the parent of
    [d/f], where [f] holds no slash, is [d] (the empty string for a path
    that starts with its only slash), and a path without a slash has the
    root ["."] as its parent. *)
Theorem tsParentPath_split (d f : string) :
  countChar "/"%char f = 0 ->
  Merkle.tsParentPath (String.append d (String "/"%char f)) = d
  /\ Merkle.tsParentPath f = ".".
Proof.
  intros H. unfold Merkle.tsParentPath, Js.lastIndexOf. split.
  - rewrite lastIndexOf_go_last by exact H. simpl.
    rewrite js_substring_prefix by (rewrite append_length; lia).
    apply substring_append.
  - now rewrite lastIndexOf_go_absent.
Qed.

(** ** The tree a summary describes *)

Lemma addChild_get (dc : JsMap.t JsSet.t) (p c k : string) (s : JsSet.t) :
  JsMap.get dc k = Some s ->
  exists s', JsMap.get (Merkle.addChild dc p c) k = Some s'
             /\ forall x, In x s -> In x s'.
Proof.
  intros G. unfold Merkle.addChild. destruct (string_dec p k) as [->|N].
  - rewrite get_set_same, G. eexists. split; [reflexivity|].
    intros x I. apply set_add_in. now right.
  - rewrite get_set_other by exact N. exists s. now split.
Qed.

Lemma addChild_linked (dc : JsMap.t JsSet.t) (p c k : string) :
  linked dc k -> linked (Merkle.addChild dc p c) k.
Proof.
  intros (s & G & I). destruct (addChild_get dc p c _ s G) as (s' & G' & Sub).
  exists s'. split; [exact G'|now apply Sub].
Qed.

Lemma addChild_links (dc : JsMap.t JsSet.t) (c : string) :
  linked (Merkle.addChild dc (Merkle.tsParentPath c) c) c.
Proof.
  unfold linked, Merkle.addChild. rewrite get_set_same. eexists. split; [reflexivity|].
  apply set_add_in. now left.
Qed.

Lemma registerParents_linked (fuel : nat) (dc : JsMap.t JsSet.t) (cur k : string) :
  linked dc k -> linked (Merkle.registerParents fuel dc cur) k.
Proof.
  revert dc cur. induction fuel as [|fuel IH]; intros dc cur L; simpl; [exact L|].
  destruct (_ || _).
  - destruct (String.eqb _ "."); repeat apply addChild_linked; exact L.
  - apply IH. now apply addChild_linked.
Qed.

Lemma registerParents_links (fuel : nat) (dc : JsMap.t JsSet.t) (cur : string) :
  linked (Merkle.registerParents (S fuel) dc cur) cur.
Proof.
  simpl. destruct (_ || _).
  - destruct (String.eqb _ "."); [apply addChild_linked|]; apply addChild_links.
  - apply registerParents_linked, addChild_links.
Qed.

Lemma registerParents_grows (fuel : nat) (dc : JsMap.t JsSet.t) (cur k : string) :
  In k (JsMap.keys dc) -> In k (JsMap.keys (Merkle.registerParents fuel dc cur)).
Proof.
  revert dc cur. induction fuel as [|fuel IH]; intros dc cur I; simpl; [exact I|].
  destruct (_ || _).
  - destruct (String.eqb _ "."); repeat (apply addChild_keys; right); exact I.
  - apply IH. apply addChild_keys. now right.
Qed.

Lemma parent_not_self (cur : string) :
  Merkle.tsParentPath cur <> "." -> Merkle.tsParentPath cur <> cur.
Proof.
  intros N E. pose proof (parent_shorter cur N) as L. rewrite E in L. lia.
Qed.

Lemma registerParents_last_closed (dc : JsMap.t JsSet.t) (cur : string) :
  String.eqb (Merkle.tsParentPath cur) cur
  || String.eqb (Merkle.tsParentPath cur) "." = true ->
  closedBut dc cur ->
  closed (if String.eqb (Merkle.tsParentPath cur) "."
          then Merkle.addChild (Merkle.addChild dc (Merkle.tsParentPath cur) cur)
                               "." cur
          else Merkle.addChild dc (Merkle.tsParentPath cur) cur).
Proof.
  intros Stop C k I Nk.
  assert (Base : k = Merkle.tsParentPath cur \/ In k (JsMap.keys dc)).
  { destruct (String.eqb (Merkle.tsParentPath cur) ".");
      repeat (apply addChild_keys in I; destruct I as [I|I]); try tauto; congruence. }
  assert (L : linked (Merkle.addChild dc (Merkle.tsParentPath cur) cur) k).
  { destruct Base as [-> | Old].
    - exfalso. apply orb_prop in Stop. destruct Stop as [S|S];
        apply String.eqb_eq in S; [now apply (parent_not_self cur)|contradiction].
    - destruct (string_dec k cur) as [-> | Nc];
        [apply addChild_links|apply addChild_linked; now apply C]. }
  destruct (String.eqb (Merkle.tsParentPath cur) "."); [now apply addChild_linked|exact L].
Qed.

Lemma registerParents_closed (n : nat) :
  forall cur dc fuel,
    String.length cur <= n -> String.length cur < fuel ->
    closedBut dc cur -> closed (Merkle.registerParents fuel dc cur).
Proof.
  induction n as [|n IH]; intros cur dc [|fuel] Ln Lf C; try lia;
    cbn [Merkle.registerParents];
    destruct (String.eqb (Merkle.tsParentPath cur) cur
              || String.eqb (Merkle.tsParentPath cur) ".") eqn:Stop;
    try (now apply registerParents_last_closed);
    apply orb_false_iff in Stop; destruct Stop as [_ S]; apply String.eqb_neq in S;
    pose proof (parent_shorter cur S) as Sh; try lia.
  apply IH; try lia.
  intros k I Nk Np. apply addChild_keys in I. destruct I as [I|I]; [contradiction|].
  destruct (string_dec k cur) as [-> | Nc];
    [apply addChild_links|apply addChild_linked; now apply C].
Qed.

Lemma registerParents_last_root (dc : JsMap.t JsSet.t) (cur : string) :
  String.eqb (Merkle.tsParentPath cur) cur
  || String.eqb (Merkle.tsParentPath cur) "." = true ->
  In "." (JsMap.keys
            (if String.eqb (Merkle.tsParentPath cur) "."
             then Merkle.addChild (Merkle.addChild dc (Merkle.tsParentPath cur) cur)
                                  "." cur
             else Merkle.addChild dc (Merkle.tsParentPath cur) cur)).
Proof.
  intros Stop. destruct (String.eqb (Merkle.tsParentPath cur) ".") eqn:Root.
  - apply addChild_keys. now left.
  - apply orb_prop in Stop. destruct Stop as [S|S]; [|congruence].
    apply String.eqb_eq in S. apply String.eqb_neq in Root.
    now destruct (parent_not_self cur Root).
Qed.

Lemma registerParents_root (n : nat) :
  forall cur dc fuel,
    String.length cur <= n -> String.length cur < fuel ->
    In "." (JsMap.keys (Merkle.registerParents fuel dc cur)).
Proof.
  induction n as [|n IH]; intros cur dc [|fuel] Ln Lf; try lia;
    cbn [Merkle.registerParents];
    destruct (String.eqb (Merkle.tsParentPath cur) cur
              || String.eqb (Merkle.tsParentPath cur) ".") eqn:Stop;
    try (now apply registerParents_last_root);
    apply orb_false_iff in Stop; destruct Stop as [_ S]; apply String.eqb_neq in S;
    pose proof (parent_shorter cur S) as Sh; try lia.
  apply IH; lia.
Qed.

Lemma register_fold_grows (X : list Merkle.FileHashEntry) (dc : JsMap.t JsSet.t)
      (k : string) :
  In k (JsMap.keys dc) -> In k (JsMap.keys (fold_left register X dc)).
Proof.
  revert dc. induction X as [|fh X IH]; intros dc I; simpl; [exact I|].
  apply IH. now apply registerParents_grows.
Qed.

Lemma register_fold_linked (X : list Merkle.FileHashEntry) (dc : JsMap.t JsSet.t)
      (k : string) :
  linked dc k -> linked (fold_left register X dc) k.
Proof.
  revert dc. induction X as [|fh X IH]; intros dc L; simpl; [exact L|].
  apply IH. now apply registerParents_linked.
Qed.

Lemma register_fold_closed (X : list Merkle.FileHashEntry) (dc : JsMap.t JsSet.t) :
  closed dc -> closed (fold_left register X dc).
Proof.
  revert dc. induction X as [|fh X IH]; intros dc C; simpl; [exact C|].
  apply IH. unfold register.
  apply (registerParents_closed (String.length (Merkle.entryPath fh))); try lia.
  intros k I Nk _. now apply C.
Qed.

Lemma register_fold_files (X : list Merkle.FileHashEntry) (dc : JsMap.t JsSet.t)
      (fh : Merkle.FileHashEntry) :
  In fh X -> linked (fold_left register X dc) (Merkle.entryPath fh).
Proof.
  revert dc. induction X as [|x X IH]; intros dc I; [destruct I|].
  simpl. destruct I as [-> | I]; [|now apply IH].
  apply register_fold_linked. apply registerParents_links.
Qed.

Lemma setLeaf_fold_keys (X : list Merkle.FileHashEntry) (n : JsMap.t Merkle.MerkleNode)
      (k : string) :
  In k (JsMap.keys (fold_left setLeaf X n)) -> In k (JsMap.keys n) \/ In k (pathsOf X).
Proof.
  revert n. induction X as [|fh X IH]; intros n; simpl; [tauto|].
  intros I. apply IH in I. destruct I as [I|I]; [|tauto].
  apply keys_set_in in I. destruct I as [-> | I]; tauto.
Qed.

Lemma insertDir_fold_keys (dc : JsMap.t JsSet.t) (l : list string)
      (m : JsMap.t Merkle.MerkleNode) (k : string) :
  In k (JsMap.keys (fold_left (Merkle.insertDir dc) l m)) ->
  In k (JsMap.keys m) \/ In k l.
Proof.
  revert m. induction l as [|d l IH]; intros m; simpl; [tauto|].
  intros I. apply IH in I. destruct I as [I|I]; [|tauto].
  apply keys_set_in in I. destruct I as [-> | I]; tauto.
Qed.

Lemma insertDir_fold_dir (dc : JsMap.t JsSet.t) (l : list string)
      (m : JsMap.t Merkle.MerkleNode) (d : string) :
  NoDup l -> In d l ->
  exists before,
    JsMap.get (fold_left (Merkle.insertDir dc) l m) d
    = Some (Merkle.dirNode before dc d).
Proof.
  intros N I. apply in_split in I. destruct I as (l1 & l2 & ->).
  apply NoDup_remove_2 in N.
  rewrite fold_left_app. cbn [fold_left].
  rewrite insertDir_fold_get by (intros I; apply N, in_app_iff; now right).
  eexists. unfold Merkle.insertDir. apply get_set_same.
Qed.

(** What the builder ends with: the node map keyed by path, over the
    directory table of the files. *)
Lemma build_nodes (X : list Merkle.FileHashEntry) :
  exists final : JsMap.t Merkle.MerkleNode,
    Merkle.tsBuildMerkleTree X = JsMap.values final
    /\ keyed final /\ NoDup (JsMap.keys final)
    /\ (forall k, In k (JsMap.keys final) ->
                  In k (pathsOf X)
                  \/ In k (JsMap.keys (fold_left register X JsMap.empty)))
    /\ (forall d, In d (JsMap.keys (fold_left register X JsMap.empty)) ->
                  exists before,
                    JsMap.get final d
                    = Some (Merkle.dirNode before (fold_left register X JsMap.empty) d)).
Proof.
  unfold Merkle.tsBuildMerkleTree. rewrite fold_insertFile.
  set (dc := fold_left register X JsMap.empty).
  set (leaves := fold_left setLeaf X JsMap.empty).
  destruct (sortByDesc_spec Merkle.depth (JsMap.keys dc)) as [P _].
  assert (ND : NoDup (Js.sortByDesc Merkle.depth (JsMap.keys dc))).
  { apply (Permutation_NoDup P). apply register_fold_nodup. constructor. }
  destruct (leaves_facts X JsMap.empty) as (K & D & _).
  { intros k v []. } { constructor. } { intros k v []. }
  destruct (insertDir_fold_keyed dc (Js.sortByDesc Merkle.depth (JsMap.keys dc))
              leaves K D) as [K' D'].
  eexists. split; [reflexivity|]. repeat split; try assumption.
  - intros k I. apply insertDir_fold_keys in I. destruct I as [I|I].
    + apply setLeaf_fold_keys in I. destruct I as [[]|I]. now left.
    + right. now apply (Permutation_in _ (Permutation_sym P)).
  - intros d I. apply insertDir_fold_dir; [exact ND|].
    now apply (Permutation_in _ P).
Qed.

Lemma in_values {V} (m : JsMap.t V) (v : V) :
  In v (JsMap.values m) <-> exists k, In (k, v) m.
Proof.
  unfold JsMap.values. rewrite in_map_iff. split.
  - intros ([k v'] & <- & I). now exists k.
  - intros (k & I). now exists (k, v).
Qed.

Lemma in_keys {V} (m : JsMap.t V) (k : string) (v : V) :
  In (k, v) m -> In k (JsMap.keys m).
Proof. intros I. unfold JsMap.keys. apply in_map_iff. now exists (k, v). Qed.

Lemma build_directory (X : list Merkle.FileHashEntry) (d : string) :
  In d (JsMap.keys (fold_left register X JsMap.empty)) ->
  exists m, In m (Merkle.tsBuildMerkleTree X)
            /\ Merkle.isFile m = false /\ Merkle.path m = d
            /\ forall k s, JsMap.get (fold_left register X JsMap.empty) d = Some s ->
                           In k s -> In k (Merkle.children m).
Proof.
  intros I. destruct (build_nodes X) as (final & E & K & D & _ & Dirs).
  destruct (Dirs d I) as (before & G). rewrite E.
  exists (Merkle.dirNode before (fold_left register X JsMap.empty) d).
  repeat split.
  - apply in_values. exists d. now apply get_in_inv.
  - intros k s Gs Ik. unfold Merkle.dirNode. cbn [Merkle.children].
    rewrite Gs. now apply sort_in.
Qed.

Lemma build_parents (X : list Merkle.FileHashEntry) (n : Merkle.MerkleNode) :
  In n (Merkle.tsBuildMerkleTree X) ->
  Merkle.path n <> "." ->
  exists m, In m (Merkle.tsBuildMerkleTree X)
            /\ Merkle.isFile m = false
            /\ Merkle.path m = Merkle.tsParentPath (Merkle.path n)
            /\ In (Merkle.path n) (Merkle.children m).
Proof.
  intros I Nr. destruct (build_nodes X) as (final & E & K & D & Keys & _).
  rewrite E in I. apply in_values in I. destruct I as (k & I).
  pose proof (K k n I) as Pk. rewrite Pk in *.
  assert (L : linked (fold_left register X JsMap.empty) k).
  { destruct (Keys k (in_keys _ _ _ I)) as [F|Dk].
    - unfold pathsOf in F. apply in_map_iff in F. destruct F as (fh & <- & F).
      now apply register_fold_files.
    - apply (register_fold_closed X JsMap.empty); [intros x []|exact Dk|exact Nr]. }
  destruct L as (s & G & Ik).
  destruct (build_directory X (Merkle.tsParentPath k)) as (m & Im & Fm & Pm & Cm).
  { now apply get_some_keys in G. }
  exists m. repeat split; try assumption. now apply (Cm k s).
Qed.

(** X12. In the summary built from any list of files, every node other
    than the root ["."] has its parent directory in the summary: a
    directory node whose path is the node's parent path and whose child
    list holds the node's path. *)
Theorem tsBuildMerkleTree_parent_links (X : list Merkle.FileHashEntry)
        (n : Merkle.MerkleNode) :
  In n (Merkle.tsBuildMerkleTree X) ->
  Merkle.path n <> "." ->
  exists m, In m (Merkle.tsBuildMerkleTree X)
            /\ Merkle.isFile m = false
            /\ Merkle.path m = Merkle.tsParentPath (Merkle.path n)
            /\ In (Merkle.path n) (Merkle.children m).
Proof. apply build_parents. Qed.

(** X13. The summary of a non-empty list of files always has a directory
    node for the root ["."], whatever the paths look like. *)
Theorem tsBuildMerkleTree_root (X : list Merkle.FileHashEntry) :
  X <> [] ->
  exists m, In m (Merkle.tsBuildMerkleTree X)
            /\ Merkle.isFile m = false /\ Merkle.path m = ".".
Proof.
  intros N. destruct X as [|fh X]; [congruence|].
  destruct (build_directory (fh :: X) ".") as (m & I & F & P & _).
  - simpl. apply register_fold_grows. unfold register.
    apply (registerParents_root (String.length (Merkle.entryPath fh))); lia.
  - now exists m.
Qed.

(** X14. No two nodes of a summary share a path, whatever the list of
    files it is built from: a path listed twice, or a file path that is
    also a directory of the list, gives one node. *)
Theorem tsBuildMerkleTree_paths_unique (X : list Merkle.FileHashEntry) :
  NoDup (map Merkle.path (Merkle.tsBuildMerkleTree X)).
Proof.
  destruct (build_nodes X) as (final & E & K & D & _). rewrite E.
  replace (map Merkle.path (JsMap.values final)) with (JsMap.keys final); [exact D|].
  unfold JsMap.keys, JsMap.values. rewrite map_map. apply map_ext_in.
  intros [k v] I. simpl. symmetry. now apply K.
Qed.

(** X15. For a file set (distinct paths, none of them a directory of the
    set) the file nodes of the summary are exactly the files given, in
    the order given, each with its path and hash. *)
Theorem tsBuildMerkleTree_file_nodes (X : list Merkle.FileHashEntry) :
  fileSet X = true ->
  map (fun n => (Merkle.path n, Merkle.hash n))
      (filter Merkle.isFile (Merkle.tsBuildMerkleTree X))
  = map (fun fh => (Merkle.entryPath fh, Merkle.entryHash fh)) X.
Proof.
  intros W. apply fileSet_spec in W. exact (fileEntries_build X W).
Qed.

Example tsParentPath_split_witness :
  countChar "/"%char "b.ts" = 0 /\
  Merkle.tsParentPath (String.append "src/lib" (String "/"%char "b.ts")) = "src/lib" /\
  Merkle.tsParentPath "b.ts" = ".".
Proof.
  split; [reflexivity|].
  apply (tsParentPath_split "src/lib" "b.ts"). reflexivity.
Defined.

Example tsBuildMerkleTree_parent_links_witness :
  In (Merkle.mkMerkle "src/a.ts" "h1" true []) (Merkle.tsBuildMerkleTree treeFiles) /\
  Merkle.path (Merkle.mkMerkle "src/a.ts" "h1" true []) <> "." /\
  exists m, In m (Merkle.tsBuildMerkleTree treeFiles)
            /\ Merkle.isFile m = false
            /\ Merkle.path m
               = Merkle.tsParentPath (Merkle.path (Merkle.mkMerkle "src/a.ts" "h1" true []))
            /\ In (Merkle.path (Merkle.mkMerkle "src/a.ts" "h1" true []))
                  (Merkle.children m).
Proof.
  assert (H1 : In (Merkle.mkMerkle "src/a.ts" "h1" true [])
                  (Merkle.tsBuildMerkleTree treeFiles))
    by (vm_compute; left; reflexivity).
  assert (H2 : Merkle.path (Merkle.mkMerkle "src/a.ts" "h1" true []) <> ".")
    by (vm_compute; discriminate).
  split; [exact H1|]. split; [exact H2|].
  exact (tsBuildMerkleTree_parent_links treeFiles _ H1 H2).
Defined.

Example tsBuildMerkleTree_root_witness :
  treeFiles <> [] /\
  exists m, In m (Merkle.tsBuildMerkleTree treeFiles)
            /\ Merkle.isFile m = false /\ Merkle.path m = ".".
Proof.
  assert (H : treeFiles <> []) by (vm_compute; discriminate).
  split; [exact H|]. exact (tsBuildMerkleTree_root treeFiles H).
Defined.

Example tsBuildMerkleTree_file_nodes_witness :
  fileSet treeFiles = true /\
  map (fun n => (Merkle.path n, Merkle.hash n))
      (filter Merkle.isFile (Merkle.tsBuildMerkleTree treeFiles))
  = map (fun fh => (Merkle.entryPath fh, Merkle.entryHash fh)) treeFiles.
Proof.
  split; [vm_compute; reflexivity|].
  apply (tsBuildMerkleTree_file_nodes treeFiles). vm_compute. reflexivity.
Defined.

(** The diff of the two worked summaries: one file edited, one deleted,
    one added. *)
Example treeFiles_diff :
  Merkle.tsDiffMerkleTrees (Merkle.tsBuildMerkleTree treeFiles)
                           (Merkle.tsBuildMerkleTree treeFilesLater)
  = Merkle.mkDiff ["src/c.ts"] ["src/lib/b.ts"] ["src/a.ts"].
Proof. vm_compute. reflexivity. Qed.

(** ** Computations in the world *)

Lemma bind_inl {A B} (m : Eff.M A) (k : A -> Eff.M B) (w w' : Eff.World) (e : Eff.Exn) :
  Eff.bind m k w = (inl e, w') ->
  m w = (inl e, w') \/ exists a w1, m w = (inr a, w1) /\ k a w1 = (inl e, w').
Proof.
  unfold Eff.bind. destruct (m w) as [[e'|a] w1]; intros H.
  - left. now inversion H.
  - right. now exists a, w1.
Qed.

Lemma bind_ok {A B} (m : Eff.M A) (k : A -> Eff.M B) (w w1 : Eff.World) (a : A) :
  m w = (inr a, w1) -> Eff.bind m k w = k a w1.
Proof. intros H. unfold Eff.bind. now rewrite H. Qed.

Lemma keeps_ret {A} (a : A) : keeps (Eff.ret a).
Proof. intros w r w' H. now inversion H. Qed.

Lemma keeps_throw {A} (e : Eff.Exn) : keeps (@Eff.throw A e).
Proof. intros w r w' H. now inversion H. Qed.

Lemma keeps_gets {A} (f : Eff.World -> A) : keeps (Eff.gets f).
Proof. intros w r w' H. now inversion H. Qed.

Lemma keeps_emit (e : Eff.Event) : keeps (Eff.emit e).
Proof. intros w r w' H. now inversion H. Qed.

Lemma keeps_dateNow : keeps Eff.dateNow.
Proof.
  intros w r w' H. unfold Eff.dateNow in H.
  destruct (Eff.clock w); now inversion H.
Qed.

Lemma keeps_setCollection (c : option (list Eff.Point)) : keeps (Eff.setCollection c).
Proof. intros w r w' H. now inversion H. Qed.

Lemma keeps_setCache (store : JsMap.t Eff.CacheEntry) (dirty : bool) :
  keeps (Eff.setCache store dirty).
Proof. intros w r w' H. now inversion H. Qed.

Lemma keeps_readFileSync (p : string) : keeps (Eff.readFileSync p).
Proof.
  intros w r w' H. unfold Eff.readFileSync in H.
  destruct (JsMap.get (Eff.files w) p) as [[text|]|]; now inversion H.
Qed.

Lemma keeps_bind {A B} (m : Eff.M A) (k : A -> Eff.M B) :
  keeps m -> (forall a, keeps (k a)) -> keeps (Eff.bind m k).
Proof.
  intros Hm Hk w r w' H. unfold Eff.bind in H.
  destruct (m w) as [[e|a] w1] eqn:E.
  - inversion H; subst. exact (Hm _ _ _ E).
  - rewrite (Hk a _ _ _ H). exact (Hm _ _ _ E).
Qed.

Lemma keeps_catch {A} (m : Eff.M A) (h : Eff.Exn -> Eff.M A) :
  keeps m -> (forall e, keeps (h e)) -> keeps (Eff.catch m h).
Proof.
  intros Hm Hh w r w' H. unfold Eff.catch in H.
  destruct (m w) as [[e|a] w1] eqn:E.
  - rewrite (Hh e _ _ _ H). exact (Hm _ _ _ E).
  - inversion H; subst. exact (Hm _ _ _ E).
Qed.

Lemma keeps_forEach {A} (l : list A) (body : A -> Eff.M unit) :
  (forall x, keeps (body x)) -> keeps (Eff.forEach l body).
Proof.
  intros Hb. induction l as [|x l IH]; simpl.
  - apply keeps_ret.
  - apply keeps_bind; [apply Hb|intros _; exact IH].
Qed.

Lemma total_ret {A} (a : A) : total (Eff.ret a).
Proof. intros w. now exists a, w. Qed.

Lemma total_gets {A} (f : Eff.World -> A) : total (Eff.gets f).
Proof. intros w. now exists (f w), w. Qed.

Lemma total_emit (e : Eff.Event) : total (Eff.emit e).
Proof. intros w. eexists. eexists. reflexivity. Qed.

Lemma total_modify (f : Eff.World -> Eff.World) : total (Eff.modify f).
Proof. intros w. eexists. eexists. reflexivity. Qed.

Lemma total_dateNow : total Eff.dateNow.
Proof.
  intros w. unfold Eff.dateNow. destruct (Eff.clock w); eexists; eexists; reflexivity.
Qed.

Lemma total_bind {A B} (m : Eff.M A) (k : A -> Eff.M B) :
  total m -> (forall a, total (k a)) -> total (Eff.bind m k).
Proof.
  intros Hm Hk w. destruct (Hm w) as (a & w1 & E).
  destruct (Hk a w1) as (b & w2 & E'). exists b, w2.
  unfold Eff.bind. now rewrite E.
Qed.

Lemma total_catch {A} (m : Eff.M A) (h : Eff.Exn -> Eff.M A) :
  (forall e, total (h e)) -> total (Eff.catch m h).
Proof.
  intros Hh w. unfold Eff.catch. destruct (m w) as [[e|a] w1].
  - apply Hh.
  - now exists a, w1.
Qed.

Lemma failsafe_keeps {A} (m : Eff.M A) : keeps m -> failsafe m.
Proof. intros K w e w' H _. exact (K _ _ _ H). Qed.

Lemma failsafe_refusals {A} (m : Eff.M A) : refusals m -> failsafe m.
Proof. intros R w e w' H N. now apply R in H. Qed.

Lemma failsafe_bind {A B} (m : Eff.M A) (k : A -> Eff.M B) :
  keeps m -> (forall a, failsafe (k a)) -> failsafe (Eff.bind m k).
Proof.
  intros Hm Hk w e w' H N. apply bind_inl in H.
  destruct H as [H|(a & w1 & E & H)].
  - exact (Hm _ _ _ H).
  - rewrite (Hk a _ _ _ H N). exact (Hm _ _ _ E).
Qed.

Lemma refusals_total {A} (m : Eff.M A) : total m -> refusals m.
Proof. intros T w e w' H. destruct (T w) as (a & w1 & E). congruence. Qed.

Lemma refusals_bind {A B} (m : Eff.M A) (k : A -> Eff.M B) :
  refusals m -> (forall a, refusals (k a)) -> refusals (Eff.bind m k).
Proof.
  intros Hm Hk w e w' H. apply bind_inl in H.
  destruct H as [H|(a & w1 & E & H)].
  - exact (Hm _ _ _ H).
  - exact (Hk a _ _ _ H).
Qed.

Lemma bind_inr_keeps {A B} (m : Eff.M A) (k : A -> Eff.M B) (w w' : Eff.World) (b : B) :
  keeps m -> Eff.bind m k w = (inr b, w') ->
  exists a w1, onDisk w1 = onDisk w /\ k a w1 = (inr b, w').
Proof.
  intros K H. apply bind_inr in H. destruct H as (a & w1 & E & H).
  exists a, w1. split; [exact (K _ _ _ E)|exact H].
Qed.

(** Discharging [keeps] and [total] goals along the structure of a
    computation. *)
Ltac keeps_step :=
  first
    [ apply keeps_ret | apply keeps_throw | apply keeps_gets | apply keeps_emit
    | apply keeps_dateNow | apply keeps_setCollection | apply keeps_setCache
    | apply keeps_readFileSync
    | apply keeps_bind | apply keeps_catch | apply keeps_forEach
    | match goal with
      | |- keeps (if ?b then _ else _) => destruct b
      | |- keeps (match ?x with _ => _ end) => destruct x
      | |- forall _, _ => intro
      end ].

Ltac keeps_tac := repeat keeps_step.

Ltac total_step :=
  first
    [ apply total_ret | apply total_gets | apply total_emit | apply total_modify
    | apply total_dateNow | apply total_bind | apply total_catch
    | match goal with
      | |- total (if ?b then _ else _) => destruct b
      | |- total (match ?x with _ => _ end) => destruct x
      | |- forall _, _ => intro
      end ].

Ltac total_tac := repeat total_step.

Ltac world_norm :=
  cbn [Eff.files Eff.merkleStateFile Eff.cacheFile Eff.cacheStore Eff.cacheDirty
       Eff.collection Eff.clock Eff.log].

(** ** What a run of [index] leaves behind *)

Section IndexerRuns.

Variable maxChunkTokens : nat.
Variable minChunkTokens : nat.
Variable parse : bool -> string -> Chunker.SyntaxNode.
Variable rank : list Eff.Point -> Eff.Vector -> nat -> list Eff.VectorSearchResult.
Variable scanDirectory : JsMap.t Eff.FileState -> list string.
Variable embedBatch : list string -> Eff.Exn + list Eff.Vector.
Variable relativeToRoot : string -> string.
Variable resolveFromRoot : string -> string.

Local Open Scope eff_scope.

Lemma keeps_clientGetCollection : keeps VectorStore.clientGetCollection.
Proof.
  intros w r w' H. unfold VectorStore.clientGetCollection in H.
  destruct (Eff.collection w); now inversion H.
Qed.

Lemma keeps_upsert (points : list Eff.Point) : keeps (VectorStore.upsert points).
Proof.
  unfold VectorStore.upsert, VectorStore.clientUpsert.
  repeat first [apply keeps_clientGetCollection | keeps_step].
Qed.

Lemma keeps_deleteByFilePaths (paths : list string) :
  keeps (VectorStore.deleteByFilePaths paths).
Proof.
  unfold VectorStore.deleteByFilePaths, VectorStore.clientDeleteByPaths.
  repeat first [apply keeps_clientGetCollection | keeps_step].
Qed.

Lemma keeps_chunkFiles (filesToProcess : list string) :
  keeps (Indexer.chunkFiles maxChunkTokens minChunkTokens parse relativeToRoot
                            filesToProcess).
Proof.
  induction filesToProcess as [|fp rest IH]; simpl; [apply keeps_ret|].
  unfold Indexer.report. repeat first [exact IH | keeps_step].
Qed.

Lemma keeps_embedUncached (uncachedChunks : list Chunker.CodeChunk) :
  keeps (Indexer.embedUncached embedBatch uncachedChunks).
Proof.
  unfold Indexer.embedUncached, Indexer.report, Indexer.embedTexts, Indexer.cacheSet.
  keeps_tac.
Qed.

(** The two saves throw when the file system refuses the write, and
    nothing else. *)
Lemma refusals_saveMerkleState (nodes : list Merkle.MerkleNode) :
  refusals (Indexer.saveMerkleState nodes).
Proof.
  intros w e w' H.
  unfold Indexer.saveMerkleState, Eff.setMerkleStateFile, Eff.bind, Eff.gets,
    Eff.emit, Eff.modify, Eff.throw in H.
  destruct (Eff.writable (Eff.merkleStateFile w)); now inversion H.
Qed.

Lemma refusals_cacheSave : refusals Indexer.cacheSave.
Proof.
  intros w e w' H.
  unfold Indexer.cacheSave, Eff.setCacheFile, Eff.setCache, Eff.bind, Eff.gets,
    Eff.emit, Eff.modify, Eff.throw, Eff.ret in H.
  destruct (negb (Eff.cacheDirty w) && Eff.present (Eff.cacheFile w));
    [discriminate H|].
  destruct (Eff.writable (Eff.cacheFile w)); now inversion H.
Qed.

(** Past the no-change return, whatever [index] throws before the two
    saves, it throws before it writes anything to disk. *)
Lemma failsafe_reindex (startTime : Z) (filePaths : list string)
      (old new : list Merkle.MerkleNode) (diff : Merkle.MerkleDiff) :
  failsafe (Indexer.reindex maxChunkTokens minChunkTokens parse embedBatch
                            relativeToRoot resolveFromRoot
                            startTime filePaths old new diff).
Proof.
  unfold Indexer.reindex. cbv zeta.
  apply failsafe_bind.
  { destruct (_ || _); [|apply keeps_ret].
    apply keeps_bind; [apply keeps_emit|intros _; apply keeps_deleteByFilePaths]. }
  intros _. apply failsafe_bind; [apply keeps_emit|intros _].
  apply failsafe_bind; [apply keeps_chunkFiles|intros allChunks].
  apply failsafe_bind; [apply keeps_emit|intros _].
  apply failsafe_bind; [unfold Indexer.partitionChunks; keeps_tac|intros parts].
  apply failsafe_bind; [apply keeps_emit|intros _].
  apply failsafe_bind; [apply keeps_embedUncached|intros newEmbeddings].
  apply failsafe_bind; [apply keeps_emit|intros _].
  apply failsafe_bind; [apply keeps_upsert|intros _].
  apply failsafe_bind; [apply keeps_emit|intros _].
  apply failsafe_refusals.
  apply refusals_bind; [apply refusals_saveMerkleState|intros _].
  apply refusals_bind; [apply refusals_cacheSave|intros _].
  apply refusals_total. unfold Indexer.report. total_tac.
Qed.

Lemma reindex_persists (startTime : Z) (filePaths : list string)
      (old new : list Merkle.MerkleNode) (diff : Merkle.MerkleDiff)
      (w w' : Eff.World) (stats : Indexer.IndexStats) :
  Indexer.reindex maxChunkTokens minChunkTokens parse embedBatch
                  relativeToRoot resolveFromRoot
                  startTime filePaths old new diff w = (inr stats, w') ->
  Eff.files w' = Eff.files w
  /\ Eff.stored (Eff.merkleStateFile w') = Eff.Parsed new.
Proof.
  unfold Indexer.reindex. cbv zeta. intros H.
  apply bind_inr_keeps in H.
  2:{ destruct (_ || _); [|apply keeps_ret].
      apply keeps_bind; [apply keeps_emit|intros _; apply keeps_deleteByFilePaths]. }
  destruct H as (_ & w1 & U1 & H).
  apply bind_inr_keeps in H; [|apply keeps_emit]. destruct H as (_ & w2 & U2 & H).
  apply bind_inr_keeps in H; [|apply keeps_chunkFiles].
  destruct H as (allChunks & w3 & U3 & H).
  apply bind_inr_keeps in H; [|apply keeps_emit]. destruct H as (_ & w4 & U4 & H).
  apply bind_inr_keeps in H; [|unfold Indexer.partitionChunks; keeps_tac].
  destruct H as (parts & w5 & U5 & H).
  apply bind_inr_keeps in H; [|apply keeps_emit]. destruct H as (_ & w6 & U6 & H).
  apply bind_inr_keeps in H; [|apply keeps_embedUncached].
  destruct H as (newEmbeddings & w7 & U7 & H).
  apply bind_inr_keeps in H; [|apply keeps_emit]. destruct H as (_ & w8 & U8 & H).
  apply bind_inr_keeps in H; [|apply keeps_upsert]. destruct H as (_ & w9 & U9 & H).
  apply bind_inr_keeps in H; [|apply keeps_emit]. destruct H as (_ & w10 & U10 & H).
  assert (U : onDisk w10 = onDisk w) by congruence.
  clear - U H. unfold onDisk in U.
  unfold Indexer.saveMerkleState, Indexer.cacheSave, Indexer.report,
    Eff.setMerkleStateFile, Eff.setCacheFile, Eff.setCache, Eff.throw,
    Eff.bind, Eff.emit, Eff.modify, Eff.gets, Eff.dateNow, Eff.ret in H.
  cbn in H.
  destruct (Eff.writable (Eff.merkleStateFile w10)); cbn in H; [|discriminate H].
  destruct (negb (Eff.cacheDirty w10) && Eff.present (Eff.cacheFile w10));
    cbn in H.
  - destruct (Eff.clock w10); cbn in H; inversion H; subst; cbn;
      (split; [congruence|reflexivity]).
  - destruct (Eff.writable (Eff.cacheFile w10)); cbn in H; [|discriminate H].
    destruct (Eff.clock w10); cbn in H; inversion H; subst; cbn;
      (split; [congruence|reflexivity]).
Qed.

Lemma hashFiles_reads (filePaths : list string) (w : Eff.World) :
  Indexer.hashFiles relativeToRoot filePaths w
  = (inr (map (fun h => Merkle.mkEntry (relativeToRoot (fst h)) (snd h))
              (hashesOf (Eff.files w) filePaths)), w).
Proof.
  unfold Indexer.hashFiles, Eff.bind. now rewrite tsSha256HashFiles_reads.
Qed.

Let run := Indexer.index maxChunkTokens minChunkTokens parse scanDirectory
                         embedBatch relativeToRoot resolveFromRoot.

(** The run up to the no-change test: it reads the clock, scans, hashes,
    builds the new summary and loads the old one, and changes nothing but
    the clock and the log of progress reports. *)
Lemma index_prefix (w : Eff.World) :
  exists startTime wA reports,
    run w
    = (if Indexer.nothingToDo
            (previousSummary w)
            (Merkle.tsDiffMerkleTrees (previousSummary w)
                                      (newSummary scanDirectory relativeToRoot w))
       then
         Indexer.report "done" "No changes detected, index is up to date" ;;;
         endTime <- Eff.dateNow ;;
         Eff.ret (Indexer.mkStats (List.length (scanDirectory (Eff.files w))) 0 0 0
                                  (endTime - startTime)%Z)
       else
         Indexer.reindex maxChunkTokens minChunkTokens parse embedBatch
                         relativeToRoot resolveFromRoot startTime
                         (scanDirectory (Eff.files w)) (previousSummary w)
                         (newSummary scanDirectory relativeToRoot w)
                         (Merkle.tsDiffMerkleTrees
                            (previousSummary w)
                            (newSummary scanDirectory relativeToRoot w))) wA
    /\ onDisk wA = onDisk w
    /\ Eff.cacheStore wA = Eff.cacheStore w
    /\ Eff.cacheDirty wA = Eff.cacheDirty w
    /\ Eff.collection wA = Eff.collection w
    /\ Eff.log wA = Eff.log w ++ reports
    /\ Forall isReport reports.
Proof.
  unfold run, Indexer.index.
  destruct (Eff.dateNow w) as [[e|startTime] w0] eqn:Hnow.
  { unfold Eff.dateNow in Hnow. destruct (Eff.clock w); discriminate Hnow. }
  assert (Hw0 : Eff.files w0 = Eff.files w /\
                Eff.merkleStateFile w0 = Eff.merkleStateFile w /\
                Eff.cacheFile w0 = Eff.cacheFile w /\
                Eff.cacheStore w0 = Eff.cacheStore w /\
                Eff.cacheDirty w0 = Eff.cacheDirty w /\
                Eff.collection w0 = Eff.collection w /\
                Eff.log w0 = Eff.log w).
  { unfold Eff.dateNow in Hnow.
    destruct (Eff.clock w); inversion Hnow; subst; simpl; repeat split. }
  destruct Hw0 as (Hf & Hm & Hcf & Hcs & Hcd & Hco & Hlog).
  exists startTime.
  rewrite (bind_ok _ _ _ _ _ Hnow).
  do 4 (erewrite bind_ok; [|reflexivity]; cbv beta; world_norm).
  erewrite bind_ok; [|apply hashFiles_reads]; cbv beta; world_norm.
  do 4 (erewrite bind_ok; [|reflexivity]; cbv beta; world_norm).
  eexists. eexists. split.
  - unfold newSummary, previousSummary. rewrite !Hf, !Hm. reflexivity.
  - unfold onDisk. world_norm. rewrite Hlog, <- !app_assoc.
    repeat (split; [first [assumption | reflexivity | congruence]|]).
    repeat constructor.
Qed.

(** The no-change return, from the test on. *)
Lemma index_early (w : Eff.World) :
  Indexer.nothingToDo
    (previousSummary w)
    (Merkle.tsDiffMerkleTrees (previousSummary w)
                              (newSummary scanDirectory relativeToRoot w)) = true ->
  exists elapsed w' reports,
    run w = (inr (Indexer.mkStats (List.length (scanDirectory (Eff.files w)))
                                  0 0 0 elapsed), w') /\
    Eff.files w' = Eff.files w /\
    Eff.merkleStateFile w' = Eff.merkleStateFile w /\
    Eff.cacheFile w' = Eff.cacheFile w /\
    Eff.cacheStore w' = Eff.cacheStore w /\
    Eff.cacheDirty w' = Eff.cacheDirty w /\
    Eff.collection w' = Eff.collection w /\
    Eff.log w' = Eff.log w ++ reports /\
    Forall isReport reports.
Proof.
  intros N.
  destruct (index_prefix w) as (startTime & wA & reports & E & D & Cs & Cd & Co & L & R).
  rewrite N in E. rewrite E. unfold onDisk in D.
  unfold Indexer.report, Eff.bind, Eff.emit, Eff.modify, Eff.dateNow, Eff.ret.
  cbn [Eff.clock].
  destruct (Eff.clock wA) as [|t later];
    do 2 eexists; exists (reports ++ [Eff.Report "done" "No changes detected, index is up to date"]);
    (split; [reflexivity|]);
    cbn [Eff.files Eff.merkleStateFile Eff.cacheFile Eff.cacheStore Eff.cacheDirty Eff.collection Eff.log];
    rewrite L, <- app_assoc;
    (repeat (split; [congruence|]));
    (apply Forall_app; split; [exact R|repeat constructor]).
Qed.

(** What a run that returns leaves behind: either it took the no-change
    return and the saved summary is as before, or the saved summary is
    the new one. The indexed files are as before in both cases. *)
Lemma index_outcome (w w1 : Eff.World) (stats : Indexer.IndexStats) :
  run w = (inr stats, w1) ->
  Eff.files w1 = Eff.files w
  /\ ((Indexer.nothingToDo
         (previousSummary w)
         (Merkle.tsDiffMerkleTrees (previousSummary w)
                                   (newSummary scanDirectory relativeToRoot w)) = true
       /\ Eff.merkleStateFile w1 = Eff.merkleStateFile w)
      \/ Eff.stored (Eff.merkleStateFile w1)
         = Eff.Parsed (newSummary scanDirectory relativeToRoot w)).
Proof.
  intros H.
  destruct (index_prefix w) as (startTime & wA & reports & E & D & _).
  rewrite E in H. clear E. unfold onDisk in D.
  destruct (Indexer.nothingToDo _ _) eqn:N.
  - unfold Indexer.report, Eff.bind, Eff.emit, Eff.modify, Eff.dateNow, Eff.ret in H.
    cbn [Eff.clock] in H.
    destruct (Eff.clock wA); inversion H; subst;
      cbn [Eff.files Eff.merkleStateFile Eff.cacheFile Eff.cacheStore Eff.cacheDirty Eff.collection Eff.log];
      (split; [congruence|left; split; [reflexivity|congruence]]).
  - apply reindex_persists in H. destruct H as [F M]. split; [congruence|now right].
Qed.

Lemma diff_with_itself (nodes : list Merkle.MerkleNode) :
  Merkle.tsDiffMerkleTrees nodes nodes = Merkle.mkDiff [] [] [].
Proof.
  rewrite diff_as_filters.
  destruct (diff_same (Merkle.fileMap nodes) (fileMap_nodup nodes)) as (A & M & R).
  now rewrite A, M, R.
Qed.

(** X16. When [index] throws anything but a write the file system
    refused, as it does when the embedding provider or the vector store
    fails, nothing has been written to disk: the indexed files, the saved
    Merkle summary and the cache file are as they were before the run, so
    the next run sees the same changes again. *)
Theorem index_failure_writes_nothing (w w' : Eff.World) (e : Eff.Exn) :
  run w = (inl e, w') ->
  e <> Eff.WriteRefused ->
  Eff.files w' = Eff.files w
  /\ Eff.merkleStateFile w' = Eff.merkleStateFile w
  /\ Eff.cacheFile w' = Eff.cacheFile w.
Proof.
  intros H Ne.
  destruct (index_prefix w) as (startTime & wA & reports & E & D & _).
  rewrite E in H. clear E.
  assert (D' : onDisk w' = onDisk wA).
  { destruct (Indexer.nothingToDo _ _).
    - exfalso. unfold Indexer.report, Eff.bind, Eff.emit, Eff.modify, Eff.dateNow,
        Eff.ret in H. cbn [Eff.clock] in H. destruct (Eff.clock wA); discriminate H.
    - exact (failsafe_reindex _ _ _ _ _ _ _ _ H Ne). }
  unfold onDisk in *. repeat split; congruence.
Qed.

(** X17. Incremental idempotence: after a run that returned, with at
    least one node in the summary it built, a second run over the same
    files takes the no-change return. It reports zero total, new and
    cached chunks and does nothing but read the clock and report
    progress: no delete, no embedding call, no upsert, no write. *)
Theorem index_twice_is_noop (w w1 : Eff.World) (stats : Indexer.IndexStats) :
  run w = (inr stats, w1) ->
  newSummary scanDirectory relativeToRoot w <> [] ->
  exists elapsed w2 reports,
    run w1 = (inr (Indexer.mkStats (List.length (scanDirectory (Eff.files w1)))
                                   0 0 0 elapsed), w2) /\
    Eff.files w2 = Eff.files w1 /\
    Eff.merkleStateFile w2 = Eff.merkleStateFile w1 /\
    Eff.cacheFile w2 = Eff.cacheFile w1 /\
    Eff.cacheStore w2 = Eff.cacheStore w1 /\
    Eff.cacheDirty w2 = Eff.cacheDirty w1 /\
    Eff.collection w2 = Eff.collection w1 /\
    Eff.log w2 = Eff.log w1 ++ reports /\
    Forall isReport reports.
Proof.
  intros H NE. apply index_outcome in H. destruct H as [F M].
  apply index_early.
  assert (New : newSummary scanDirectory relativeToRoot w1
                = newSummary scanDirectory relativeToRoot w).
  { unfold newSummary. now rewrite F. }
  rewrite New. destruct M as [[N M]|M].
  - unfold previousSummary in *. now rewrite M.
  - unfold previousSummary at 1 2. rewrite M, diff_with_itself.
    unfold Indexer.nothingToDo.
    cbn [Merkle.added Merkle.modified Merkle.removed app Indexer.isEmpty andb].
    destruct (newSummary scanDirectory relativeToRoot w); [congruence|reflexivity].
Qed.

(** X18. Hashing never throws and changes nothing: [hashFiles] answers
    with one entry per path that can be read, carrying the path relative
    to the root and the SHA-256 digest of the content; a path that cannot
    be read is silently left out. *)
Theorem hashFiles_readable (filePaths : list string) (w : Eff.World) :
  exists entries,
    Indexer.hashFiles relativeToRoot filePaths w = (inr entries, w)
    /\ forall e,
         In e entries
         <-> exists p text,
               In p filePaths
               /\ JsMap.get (Eff.files w) p = Some (Eff.Readable text)
               /\ e = Merkle.mkEntry (relativeToRoot p) (Sha256.hex text).
Proof.
  rewrite hashFiles_reads.
  eexists. split; [reflexivity|]. intros e.
  rewrite in_map_iff. unfold hashesOf. split.
  - intros ([p h] & <- & I). apply in_flat_map in I. destruct I as (q & Iq & I).
    destruct (JsMap.get (Eff.files w) q) as [[text|]|] eqn:G;
      [|destruct I|destruct I].
    destruct I as [I|[]]. inversion I; subst. now exists p, text.
  - intros (p & text & I & G & ->). exists (p, Sha256.hex text).
    split; [reflexivity|]. apply in_flat_map. exists p. split; [exact I|].
    rewrite G. now left.
Qed.


End IndexerRuns.

Example index_failure_writes_nothing_witness :
  exists e w',
    Indexer.index 512 30 demoParse demoScan failingEmbedBatch samePath samePath freshWorld
    = (inl e, w') /\
    e <> Eff.WriteRefused /\
    Eff.files w' = Eff.files freshWorld /\
    Eff.merkleStateFile w' = Eff.merkleStateFile freshWorld /\
    Eff.cacheFile w' = Eff.cacheFile freshWorld.
Proof.
  exists Eff.EmbeddingFailed. eexists. split; [vm_compute; reflexivity|].
  split; [discriminate|].
  eapply (index_failure_writes_nothing 512 30 demoParse demoScan failingEmbedBatch
                                       samePath samePath freshWorld).
  - vm_compute. reflexivity.
  - discriminate.
Defined.

(** The one throw that comes after a write: when the cache file cannot
    be written, the run stops on that write with the new summary already
    saved and the cache still dirty. *)
Example index_cache_write_refused :
  exists w',
    Indexer.index 512 30 demoParse demoScan demoEmbedBatch samePath samePath
                  lockedCacheWorld
    = (inl Eff.WriteRefused, w')
    /\ Eff.stored (Eff.merkleStateFile w')
       = Eff.Parsed (newSummary demoScan samePath lockedCacheWorld)
    /\ Eff.cacheFile w' = Eff.cacheFile lockedCacheWorld
    /\ Eff.cacheDirty w' = true.
Proof. eexists. split; [vm_compute; reflexivity|]. vm_compute. repeat split. Qed.

Example index_twice_is_noop_witness :
  exists stats w1,
    Indexer.index 512 30 demoParse demoScan demoEmbedBatch samePath samePath freshWorld
    = (inr stats, w1) /\
    newSummary demoScan samePath freshWorld <> [] /\
    exists elapsed w2 reports,
      Indexer.index 512 30 demoParse demoScan demoEmbedBatch samePath samePath w1
      = (inr (Indexer.mkStats (List.length (demoScan (Eff.files w1))) 0 0 0 elapsed),
         w2) /\
      Eff.files w2 = Eff.files w1 /\
      Eff.merkleStateFile w2 = Eff.merkleStateFile w1 /\
      Eff.cacheFile w2 = Eff.cacheFile w1 /\
      Eff.cacheStore w2 = Eff.cacheStore w1 /\
      Eff.cacheDirty w2 = Eff.cacheDirty w1 /\
      Eff.collection w2 = Eff.collection w1 /\
      Eff.log w2 = Eff.log w1 ++ reports /\
      Forall isReport reports.
Proof.
  eexists. eexists. split; [vm_compute; reflexivity|].
  split; [vm_compute; discriminate|].
  eapply (index_twice_is_noop 512 30 demoParse demoScan demoEmbedBatch samePath samePath
                              freshWorld).
  - vm_compute. reflexivity.
  - vm_compute. discriminate.
Defined.

(** ** The embedding cache (cache.ts) *)

(** X20. [save] does nothing for a clean cache whose file exists,
    whether that file parses or not. Otherwise it writes the entries in
    memory. When the file system accepts the write, the file then holds
    them, the cache is clean and saving again changes nothing. When it
    refuses, [save] throws and the cache in memory is as it was: a dirty
    cache stays dirty. *)
Theorem cacheSave_settles (w : Eff.World) :
  (Eff.cacheDirty w = false -> Eff.stored (Eff.cacheFile w) <> Eff.Absent ->
   Indexer.cacheSave w = (inr tt, w))
  /\ (Eff.cacheDirty w = true \/ Eff.stored (Eff.cacheFile w) = Eff.Absent ->
      Eff.writable (Eff.cacheFile w) = true ->
      exists w',
        Indexer.cacheSave w = (inr tt, w')
        /\ Eff.stored (Eff.cacheFile w') = Eff.Parsed (Eff.cacheStore w)
        /\ Eff.cacheStore w' = Eff.cacheStore w
        /\ Eff.cacheDirty w' = false
        /\ Eff.log w' = Eff.log w ++ [Eff.WriteCacheFile (Eff.cacheStore w)]
        /\ Indexer.cacheSave w' = (inr tt, w'))
  /\ (Eff.cacheDirty w = true \/ Eff.stored (Eff.cacheFile w) = Eff.Absent ->
      Eff.writable (Eff.cacheFile w) = false ->
      exists w',
        Indexer.cacheSave w = (inl Eff.WriteRefused, w')
        /\ Eff.cacheStore w' = Eff.cacheStore w
        /\ Eff.cacheDirty w' = Eff.cacheDirty w).
Proof.
  unfold Indexer.cacheSave, Eff.setCacheFile, Eff.setCache, Eff.bind, Eff.gets,
    Eff.emit, Eff.modify, Eff.throw, Eff.ret, Eff.present.
  destruct w as [fs ms [st wr] cs cd co ck lg]. world_norm.
  cbn [Eff.stored Eff.writable].
  split; [|split].
  - intros -> P. destruct st; [now contradiction P| |]; reflexivity.
  - intros D ->.
    assert (T : negb cd && match st with Eff.Absent => false | _ => true end = false).
    { destruct D as [->| ->]; [reflexivity|apply andb_false_r]. }
    rewrite T. eexists. split; [reflexivity|]. world_norm.
    cbn [Eff.stored Eff.writable negb andb]. repeat split.
  - intros D ->.
    assert (T : negb cd && match st with Eff.Absent => false | _ => true end = false).
    { destruct D as [->| ->]; [reflexivity|apply andb_false_r]. }
    rewrite T. eexists. split; [reflexivity|]. now split.
Qed.

Lemma delete_middle {V} (l1 l2 : JsMap.t V) (k : string) (v : V) :
  ~ In k (JsMap.keys l1) -> JsMap.delete (l1 ++ (k, v) :: l2) k = l1 ++ l2.
Proof.
  induction l1 as [|[k' v'] l1 IH]; simpl; intros N.
  - now rewrite String.eqb_refl.
  - destruct (String.eqb k k') eqn:E.
    + apply String.eqb_eq in E. exfalso. apply N. left. now symmetry.
    + rewrite IH by (intros I; apply N; now right). reflexivity.
Qed.

Lemma prune_fold (now maxAgeMs : Z) (todo kept : JsMap.t Eff.CacheEntry) (n : nat) :
  NoDup (JsMap.keys (kept ++ todo)) ->
  fold_left (EmbeddingCache.pruneStep now maxAgeMs) todo (kept ++ todo, n)
  = (kept ++ filter (fun kv => negb (stale now maxAgeMs kv)) todo,
     n + List.length (filter (stale now maxAgeMs) todo)).
Proof.
  revert kept n. induction todo as [|[k e] todo IH]; intros kept n D.
  - simpl. now rewrite Nat.add_0_r.
  - cbn [fold_left filter].
    assert (Step : EmbeddingCache.pruneStep now maxAgeMs (kept ++ (k, e) :: todo, n) (k, e)
                   = if stale now maxAgeMs (k, e)
                     then (JsMap.delete (kept ++ (k, e) :: todo) k, S n)
                     else (kept ++ (k, e) :: todo, n)) by reflexivity.
    rewrite Step. clear Step.
    destruct (stale now maxAgeMs (k, e)); cbn [negb].
    + rewrite delete_middle.
      * rewrite IH.
        -- cbn [List.length]. f_equal. lia.
        -- unfold JsMap.keys in *. rewrite map_app in *. simpl in D.
           now apply NoDup_remove_1 in D.
      * unfold JsMap.keys in *. rewrite map_app in D. simpl in D.
        apply NoDup_remove_2 in D. intros I. apply D, in_or_app. now left.
    + change (kept ++ (k, e) :: todo) with (kept ++ [(k, e)] ++ todo).
      rewrite app_assoc, IH.
      * now rewrite <- app_assoc.
      * now rewrite <- app_assoc.
Qed.

(** X21. On a cache whose keys are distinct, as the keys of a [Map] are,
    [prune] removes exactly the entries whose age at the clock reading is
    above [maxAgeMs], keeps the others in their order, and returns how
    many it removed. It marks the cache dirty only if it removed
    something, and does not touch the cache file. *)
Theorem prune_removes_stale (maxAgeMs : Z) (w : Eff.World) :
  NoDup (JsMap.keys (Eff.cacheStore w)) ->
  exists now w',
    Eff.dateNow w = (inr now, w')
    /\ exists w'',
         EmbeddingCache.prune maxAgeMs w
         = (inr (List.length (filter (stale now maxAgeMs) (Eff.cacheStore w))), w'')
         /\ Eff.cacheStore w''
            = filter (fun kv => negb (stale now maxAgeMs kv)) (Eff.cacheStore w)
         /\ Eff.cacheDirty w''
            = (if (0 <? List.length (filter (stale now maxAgeMs) (Eff.cacheStore w)))%nat
               then true else Eff.cacheDirty w)
         /\ Eff.cacheFile w'' = Eff.cacheFile w.
Proof.
  intros D. unfold EmbeddingCache.prune.
  destruct (Eff.dateNow w) as [[e|now] w'] eqn:Hnow.
  { unfold Eff.dateNow in Hnow. destruct (Eff.clock w); discriminate Hnow. }
  exists now, w'. split; [reflexivity|].
  assert (Same : Eff.cacheStore w' = Eff.cacheStore w
                 /\ Eff.cacheDirty w' = Eff.cacheDirty w
                 /\ Eff.cacheFile w' = Eff.cacheFile w).
  { unfold Eff.dateNow in Hnow.
    destruct (Eff.clock w); inversion Hnow; subst; repeat split. }
  destruct Same as (Cs & Cd & Cf).
  rewrite (bind_ok _ _ _ _ _ Hnow).
  unfold Eff.bind, Eff.gets, Eff.setCache, Eff.modify, Eff.ret. rewrite Cs.
  assert (F : fold_left (EmbeddingCache.pruneStep now maxAgeMs) (Eff.cacheStore w)
                         (Eff.cacheStore w, 0)
               = (filter (fun kv => negb (stale now maxAgeMs kv)) (Eff.cacheStore w),
                  List.length (filter (stale now maxAgeMs) (Eff.cacheStore w))))
    by exact (prune_fold now maxAgeMs (Eff.cacheStore w) [] 0 D).
  eexists. split; [rewrite F; reflexivity|]. world_norm. rewrite Cd, Cf. repeat split.
Qed.

(** ** The vector store (vector-store.ts) *)

Lemma batches_go_spec {A} (size : nat) :
  0 < size ->
  forall (fuel : nat) (l : list A),
    List.length l <= fuel ->
    List.concat (VectorStore.batches_go fuel size l) = l
    /\ Forall (fun b => 1 <= List.length b <= size)
              (VectorStore.batches_go fuel size l).
Proof.
  intros Pos. induction fuel as [|fuel IH]; intros l Le.
  - destruct l; [|simpl in Le; lia]. split; [reflexivity|constructor].
  - destruct l as [|x l]; [split; [reflexivity|constructor]|].
    cbn [VectorStore.batches_go List.concat].
    destruct (IH (skipn size (x :: l))) as [C F].
    { rewrite length_skipn. cbn [List.length] in *. lia. }
    split.
    + rewrite C. apply firstn_skipn.
    + constructor; [|exact F]. rewrite length_firstn. cbn [List.length]. lia.
Qed.

Lemma clientUpsert_ok (b pts : list Eff.Point) (w : Eff.World) :
  Eff.collection w = Some pts ->
  VectorStore.clientUpsert b w
  = (inr tt,
     Eff.mkWorld (Eff.files w) (Eff.merkleStateFile w) (Eff.cacheFile w)
                 (Eff.cacheStore w) (Eff.cacheDirty w)
                 (Some (fold_left VectorStore.upsertPoint b pts))
                 (Eff.clock w) (Eff.log w ++ [Eff.StoreUpsert b])).
Proof.
  intros C.
  unfold VectorStore.clientUpsert, VectorStore.clientGetCollection, Eff.setCollection,
    Eff.bind, Eff.emit, Eff.modify.
  world_norm. rewrite C. reflexivity.
Qed.

Lemma forEach_clientUpsert (bs : list (list Eff.Point)) (w : Eff.World)
      (pts : list Eff.Point) :
  Eff.collection w = Some pts ->
  exists w',
    Eff.forEach bs VectorStore.clientUpsert w = (inr tt, w')
    /\ Eff.collection w' <> None
    /\ Eff.log w' = Eff.log w ++ map Eff.StoreUpsert bs.
Proof.
  revert w pts. induction bs as [|b bs IH]; intros w pts C.
  - exists w. simpl. rewrite app_nil_r. repeat split. congruence.
  - cbn [Eff.forEach]. rewrite (bind_ok _ _ _ _ _ (clientUpsert_ok b pts w C)).
    match goal with |- context [Eff.forEach bs _ ?w1] =>
      destruct (IH w1 (fold_left VectorStore.upsertPoint b pts) eq_refl)
        as (w' & E & N & L)
    end.
    rewrite E. exists w'. repeat split; [exact N|].
    rewrite L. world_norm. now rewrite <- app_assoc.
Qed.

Lemma forEach_map {A B} (f : A -> B) (l : list A) (body : B -> Eff.M unit) :
  Eff.forEach l (fun x => body (f x)) = Eff.forEach (map f l) body.
Proof. induction l as [|x l IH]; simpl; [reflexivity|now rewrite IH]. Qed.

(** X22. On an existing collection [upsert] never throws and sends every
    point exactly once, in the order given, with its id turned into a
    UUID, in requests of at least 1 and at most 100 points. *)
Theorem upsert_sends_batches (points pts : list Eff.Point) (w : Eff.World) :
  Eff.collection w = Some pts ->
  exists w' sent,
    VectorStore.upsert points w = (inr tt, w')
    /\ Eff.collection w' <> None
    /\ Eff.log w' = Eff.log w ++ map Eff.StoreUpsert sent
    /\ List.concat sent
       = map (fun p => Eff.mkPoint (VectorStore.sha256ToUuid (Eff.pointId p))
                                   (Eff.pointVector p) (Eff.pointPayload p)) points
    /\ Forall (fun b => 1 <= List.length b <= 100) sent.
Proof.
  intros C. unfold VectorStore.upsert.
  rewrite (forEach_map
             (map (fun p => Eff.mkPoint (VectorStore.sha256ToUuid (Eff.pointId p))
                                        (Eff.pointVector p) (Eff.pointPayload p)))
             _ VectorStore.clientUpsert).
  destruct (forEach_clientUpsert
              (map (map (fun p => Eff.mkPoint (VectorStore.sha256ToUuid (Eff.pointId p))
                                              (Eff.pointVector p) (Eff.pointPayload p)))
                   (VectorStore.batches 100 points)) w pts C) as (w' & E & N & L).
  destruct (batches_go_spec 100 ltac:(lia) (List.length points) points (le_n _))
    as [Cc F].
  exists w'. eexists. split; [exact E|]. split; [exact N|]. split; [exact L|]. split.
  - rewrite <- concat_map. unfold VectorStore.batches. now rewrite Cc.
  - unfold VectorStore.batches. apply Forall_map.
    rewrite Forall_forall in *. intros b I. rewrite length_map. now apply F.
Qed.

(** X23. When the file system accepts the write of the cache file and,
    if a summary is saved, its removal, [reset] returns, whether the
    collection exists or not, and leaves no collection, an empty cache
    both in memory and in the cache file, and no saved summary; the
    indexed files are not touched. *)
Theorem reset_clears (w : Eff.World) :
  Eff.writable (Eff.cacheFile w) = true ->
  (Eff.present (Eff.merkleStateFile w) = true ->
   Eff.writable (Eff.merkleStateFile w) = true) ->
  exists w',
    Indexer.reset w = (inr tt, w')
    /\ Eff.collection w' = None
    /\ Eff.cacheStore w' = []
    /\ Eff.stored (Eff.cacheFile w') = Eff.Parsed []
    /\ Eff.cacheDirty w' = false
    /\ Eff.stored (Eff.merkleStateFile w') = Eff.Absent
    /\ Eff.files w' = Eff.files w.
Proof.
  unfold Indexer.reset, VectorStore.deleteCollection, Indexer.cacheClear,
    Indexer.cacheSave, VectorStore.clientGetCollection, Eff.catch, Eff.bind,
    Eff.setCollection, Eff.setCache, Eff.setCacheFile, Eff.setMerkleStateFile,
    Eff.gets, Eff.emit, Eff.modify, Eff.throw, Eff.ret, Eff.present.
  destruct w as [fs [ms mw] [cf cw] cs cd co ck lg]. world_norm.
  cbn [Eff.stored Eff.writable]. intros -> Hm.
  destruct co, ms; world_norm; cbn [Eff.stored Eff.writable negb andb];
    try (rewrite Hm by reflexivity);
    eexists; (split; [reflexivity|]); repeat split.
Qed.

(** When the cache file cannot be written, [reset] throws on that write,
    after the collection is gone and before the saved summary is
    removed. *)
Lemma reset_refused (w : Eff.World) :
  Eff.writable (Eff.cacheFile w) = false ->
  exists w',
    Indexer.reset w = (inl Eff.WriteRefused, w')
    /\ Eff.collection w' = None
    /\ Eff.merkleStateFile w' = Eff.merkleStateFile w
    /\ Eff.cacheFile w' = Eff.cacheFile w.
Proof.
  unfold Indexer.reset, VectorStore.deleteCollection, Indexer.cacheClear,
    Indexer.cacheSave, VectorStore.clientGetCollection, Eff.catch, Eff.bind,
    Eff.setCollection, Eff.setCache, Eff.setCacheFile, Eff.setMerkleStateFile,
    Eff.gets, Eff.emit, Eff.modify, Eff.throw, Eff.ret, Eff.present.
  destruct w as [fs ms [cf cw] cs cd co ck lg]. world_norm.
  cbn [Eff.stored Eff.writable]. intros ->.
  destruct co; world_norm; cbn [Eff.stored Eff.writable negb andb];
    eexists; (split; [reflexivity|]); repeat split.
Qed.

Example reset_clears_witness :
  Eff.writable (Eff.cacheFile indexedWorld) = true /\
  (Eff.present (Eff.merkleStateFile indexedWorld) = true ->
   Eff.writable (Eff.merkleStateFile indexedWorld) = true) /\
  exists w',
    Indexer.reset indexedWorld = (inr tt, w')
    /\ Eff.collection w' = None
    /\ Eff.cacheStore w' = []
    /\ Eff.stored (Eff.cacheFile w') = Eff.Parsed []
    /\ Eff.cacheDirty w' = false
    /\ Eff.stored (Eff.merkleStateFile w') = Eff.Absent
    /\ Eff.files w' = Eff.files indexedWorld.
Proof.
  split; [reflexivity|]. split; [reflexivity|].
  apply (reset_clears indexedWorld); reflexivity.
Defined.

Example prune_removes_stale_witness :
  NoDup (JsMap.keys (Eff.cacheStore agedCache)) /\
  exists now w',
    Eff.dateNow agedCache = (inr now, w')
    /\ exists w'',
         EmbeddingCache.prune 500 agedCache
         = (inr (List.length (filter (stale now 500) (Eff.cacheStore agedCache))), w'')
         /\ Eff.cacheStore w''
            = filter (fun kv => negb (stale now 500 kv)) (Eff.cacheStore agedCache)
         /\ Eff.cacheDirty w''
            = (if (0 <? List.length (filter (stale now 500)
                                            (Eff.cacheStore agedCache)))%nat
               then true else Eff.cacheDirty agedCache)
         /\ Eff.cacheFile w'' = Eff.cacheFile agedCache.
Proof.
  assert (H : NoDup (JsMap.keys (Eff.cacheStore agedCache)))
    by (apply distinct_NoDup; vm_compute; reflexivity).
  split; [exact H|]. exact (prune_removes_stale 500 agedCache H).
Defined.

(** On the worked cache, read at time 1000 with a limit of 500: the
    entries stamped 100 and 200 go, the one stamped 900 stays. *)
Example prune_agedCache :
  fst (EmbeddingCache.prune 500 agedCache) = inr 2
  /\ JsMap.keys (Eff.cacheStore (snd (EmbeddingCache.prune 500 agedCache))) = ["h2"].
Proof. vm_compute. split; reflexivity. Qed.

Example upsert_sends_batches_witness :
  Eff.collection freshWorld = Some [] /\
  exists w' sent,
    VectorStore.upsert demoPoints freshWorld = (inr tt, w')
    /\ Eff.collection w' <> None
    /\ Eff.log w' = Eff.log freshWorld ++ map Eff.StoreUpsert sent
    /\ List.concat sent
       = map (fun p => Eff.mkPoint (VectorStore.sha256ToUuid (Eff.pointId p))
                                   (Eff.pointVector p) (Eff.pointPayload p)) demoPoints
    /\ Forall (fun b => 1 <= List.length b <= 100) sent.
Proof.
  split; [reflexivity|].
  apply (upsert_sends_batches demoPoints [] freshWorld). reflexivity.
Defined.

(** ** Search results (retriever.ts) *)

Section RetrieverResults.

Variable resolveFromRoot : string -> string.

Lemma liveContent_total (payload : Eff.VectorPayload) (w : Eff.World) :
  exists text, Retriever.liveContent resolveFromRoot payload w = (inr text, w).
Proof.
  unfold Retriever.liveContent, Eff.catch, Eff.bind, Eff.existsSync, Eff.gets,
    Eff.readFileSync, Eff.ret, JsMap.has.
  cbv beta iota zeta.
  destruct (JsMap.get (Eff.files w) (resolveFromRoot (Eff.pFilePath payload)))
    as [[text|]|] eqn:G; cbv beta iota zeta; rewrite ?G; eexists; reflexivity.
Qed.

Lemma enrichResults_facts (hits : list Eff.VectorSearchResult) (w : Eff.World) :
  exists results,
    Retriever.enrichResults resolveFromRoot hits w = (inr results, w)
    /\ map resultFacts results = map hitFacts hits.
Proof.
  induction hits as [|h hits IH].
  - exists []. split; reflexivity.
  - cbn [Retriever.enrichResults].
    destruct (liveContent_total (Eff.hitPayload h) w) as (text & E).
    rewrite (bind_ok _ _ _ _ _ E).
    destruct IH as (results & E' & F). rewrite (bind_ok _ _ _ _ _ E').
    eexists. split; [reflexivity|]. cbn [map]. now rewrite F.
Qed.

(** X24. [enrichResults] never throws and changes nothing: it returns one
    result per hit, in the order of the hits, carrying the hit's path,
    line range, score, node kind and symbol name. A file that is missing
    or cannot be read costs the result its text, not the search. *)
Theorem enrichResults_total (hits : list Eff.VectorSearchResult) (w : Eff.World) :
  exists results,
    Retriever.enrichResults resolveFromRoot hits w = (inr results, w)
    /\ map resultFacts results = map hitFacts hits.
Proof. apply enrichResults_facts. Qed.

Lemma slice_clamped {A} (a b : nat) (l : list A) :
  Js.slice a (Nat.min (List.length l) b) l = Js.slice a b l.
Proof.
  unfold Js.slice. destruct (le_lt_dec b (List.length l)) as [L|L].
  - now rewrite Nat.min_r by exact L.
  - rewrite Nat.min_l by lia.
    rewrite !firstn_all2; try reflexivity; rewrite length_skipn; lia.
Qed.

(** X25. Round trip through the index: for a chunk that [chunkFile] made
    from a file, the text the retriever reads back for the payload the
    indexer stored is the chunk's content, as long as the file still
    holds the text that was chunked. *)
Theorem liveContent_of_chunk (maxChunkTokens minChunkTokens : nat)
        (parse : bool -> string -> Chunker.SyntaxNode)
        (path text : string) (c : Chunker.CodeChunk) (w : Eff.World) :
  In c (Chunker.chunkFile maxChunkTokens minChunkTokens parse path text) ->
  JsMap.get (Eff.files w) (resolveFromRoot path) = Some (Eff.Readable text) ->
  Retriever.liveContent resolveFromRoot (Indexer.payloadOf c) w
  = (inr (Chunker.content c), w).
Proof.
  unfold Chunker.chunkFile. intros I G.
  apply in_map_iff in I. destruct I as (seg & <- & _).
  unfold Retriever.liveContent, Eff.catch, Eff.bind, Eff.existsSync, Eff.gets,
    Eff.readFileSync, Eff.ret, JsMap.has, Indexer.payloadOf, Chunker.toChunk.
  cbv beta iota zeta.
  cbn [Chunker.filePath Chunker.chunkStartLine Chunker.chunkEndLine Chunker.content
       Eff.pFilePath Eff.pStartLine Eff.pEndLine].
  rewrite G. cbv beta iota zeta. rewrite G.
  replace (Nat.max 0 (Chunker.startLine seg + 1 - 1)) with (Chunker.startLine seg)
    by lia.
  now rewrite slice_clamped.
Qed.

End RetrieverResults.

Example liveContent_of_chunk_witness :
  In (nth 0 demoChunks (Chunker.mkChunk "" "" 0 0 "" "" "" None))
     (Chunker.chunkFile 512 30 demoParse "demo.ts" demoSource) /\
  JsMap.get (Eff.files freshWorld) (samePath "demo.ts") = Some (Eff.Readable demoSource) /\
  Retriever.liveContent samePath
    (Indexer.payloadOf (nth 0 demoChunks (Chunker.mkChunk "" "" 0 0 "" "" "" None)))
    freshWorld
  = (inr (Chunker.content (nth 0 demoChunks (Chunker.mkChunk "" "" 0 0 "" "" "" None))),
     freshWorld).
Proof.
  split; [vm_compute; left; reflexivity|].
  split; [reflexivity|].
  apply (liveContent_of_chunk samePath 512 30 demoParse "demo.ts" demoSource).
  - vm_compute. left. reflexivity.
  - reflexivity.
Defined.

(** A hit into a file that is gone still gives a result, with a
    placeholder for its text. *)
Example enrichResults_demoHits :
  exists r1 r2,
    fst (Retriever.enrichResults samePath demoHits freshWorld) = inr [r1; r2]
    /\ Retriever.rContent r2 = "[File not found: gone.ts]".
Proof. eexists. eexists. vm_compute. split; reflexivity. Qed.

(** ** The corpus the loader builds *)

Lemma qrels_relevant (rows : list DatasetLoader.QrelRow)
      (st : JsMap.t (JsMap.t Z) * JsSet.t) (cid : string) :
  In cid (snd (fold_left DatasetLoader.qrelStep rows st))
  <-> In cid (snd st) \/ judgedPositive rows cid.
Proof.
  revert st. induction rows as [|row rows IH]; intros st.
  - simpl. split; [tauto|]. intros [H|(r & [] & _)]. exact H.
  - cbn [fold_left]. rewrite IH. destruct st as [rels relevant].
    unfold DatasetLoader.qrelStep. cbn [snd].
    set (c := DatasetLoader.firstOf (DatasetLoader.corpus_id row)
                                    (DatasetLoader.corpus_dash_id row)).
    set (sc := match DatasetLoader.score row with Some z => z | None => 1%Z end).
    assert (Two : judgedPositive (row :: rows) cid
                  <-> (c = cid /\ (0 < sc)%Z) \/ judgedPositive rows cid).
    { unfold judgedPositive. split.
      - intros (r & [<- | I] & E & P); [left; now split|right; now exists r].
      - intros [[E P]|(r & I & E & P)]; [exists row|exists r];
          repeat split; try assumption; [now left|now right]. }
    rewrite Two. destruct (0 <? sc)%Z eqn:Pos.
    + apply Z.ltb_lt in Pos. rewrite set_add_in. intuition congruence.
    + apply Z.ltb_ge in Pos. intuition lia.
Qed.

Lemma set_selfKeyed (m : JsMap.t DatasetLoader.CorpusEntry)
      (row : DatasetLoader.CorpusRow) :
  selfKeyed m ->
  selfKeyed (JsMap.set m (DatasetLoader.stringOf (DatasetLoader.row_id row))
                       (DatasetLoader.toEntry row)).
Proof.
  intros K k e I. apply set_in in I. destruct I as [I|I].
  - now inversion I.
  - now apply K.
Qed.

(** The first loop of the capped branch: it puts in the rows judged
    relevant, and nothing else. *)
Lemma addRelevant_fold (relevant : JsSet.t) (rows : list DatasetLoader.CorpusRow)
      (m : JsMap.t DatasetLoader.CorpusEntry) :
  selfKeyed m -> NoDup (JsMap.keys m) ->
  let m' := fold_left (DatasetLoader.addRelevant relevant) rows m in
  selfKeyed m' /\ NoDup (JsMap.keys m')
  /\ forall k, In k (JsMap.keys m')
               <-> In k (JsMap.keys m)
                   \/ (In k relevant
                       /\ exists row, In row rows
                                      /\ DatasetLoader.stringOf (DatasetLoader.row_id row) = k).
Proof.
  revert m. induction rows as [|row rows IH]; intros m K D.
  - simpl. repeat split; try assumption; [tauto|].
    intros [H|[_ (r & [] & _)]]. exact H.
  - cbn [fold_left].
    assert (Step : DatasetLoader.addRelevant relevant m row
                   = if JsSet.has relevant (DatasetLoader.stringOf (DatasetLoader.row_id row))
                     then JsMap.set m (DatasetLoader.stringOf (DatasetLoader.row_id row))
                                    (DatasetLoader.toEntry row)
                     else m) by reflexivity.
    rewrite Step. clear Step.
    destruct (JsSet.has relevant _) eqn:R.
    + destruct (IH _ (set_selfKeyed m row K) (keys_set_nodup _ _ _ D)) as (K' & D' & I').
      repeat split; try assumption.
      * intros I. apply I' in I. destruct I as [I|(Rk & r & Ir & Er)].
        -- apply keys_set_in in I. destruct I as [-> | I]; [right|now left].
           split; [now apply set_has_in|]. exists row. split; [now left|reflexivity].
        -- right. split; [exact Rk|]. exists r. split; [now right|exact Er].
      * intros I. apply I'. destruct I as [I|(Rk & r & [<- | Ir] & Er)].
        -- left. apply keys_set_in. now right.
        -- left. apply keys_set_in. now left.
        -- right. split; [exact Rk|]. now exists r.
    + destruct (IH m K D) as (K' & D' & I').
      repeat split; try assumption.
      * intros I. apply I' in I. destruct I as [I|(Rk & r & Ir & Er)]; [now left|].
        right. split; [exact Rk|]. exists r. split; [now right|exact Er].
      * intros I. apply I'. destruct I as [I|(Rk & r & [<- | Ir] & Er)].
        -- now left.
        -- apply set_has_in in Rk. subst k. congruence.
        -- right. split; [exact Rk|]. now exists r.
Qed.

Lemma size_set {V} (m : JsMap.t V) (k : string) (v : V) :
  JsMap.size (JsMap.set m k v) <= S (JsMap.size m).
Proof.
  unfold JsMap.size. induction m as [|[k' v'] m IH]; simpl; [lia|].
  destruct (String.eqb k k'); simpl; lia.
Qed.

(** The second loop: it only adds, it stops at the cap, and it does
    nothing when the map already holds [cap] entries or more. *)
Lemma fillDistractors_spec (cap : nat) (rows : list DatasetLoader.CorpusRow)
      (m : JsMap.t DatasetLoader.CorpusEntry) :
  selfKeyed m -> NoDup (JsMap.keys m) ->
  let m' := DatasetLoader.fillDistractors cap rows m in
  selfKeyed m' /\ NoDup (JsMap.keys m')
  /\ (forall k, In k (JsMap.keys m) -> In k (JsMap.keys m'))
  /\ (cap <= JsMap.size m -> m' = m)
  /\ (JsMap.size m <= cap -> JsMap.size m' <= cap).
Proof.
  revert m. induction rows as [|row rows IH]; intros m K D.
  - simpl. split; [exact K|]. split; [exact D|]. split; [tauto|].
    split; [reflexivity|tauto].
  - cbn [DatasetLoader.fillDistractors].
    destruct (cap <=? JsMap.size m)%nat eqn:Full.
    + apply Nat.leb_le in Full. cbv zeta. split; [exact K|]. split; [exact D|].
      split; [tauto|]. split; [reflexivity|tauto].
    + apply Nat.leb_gt in Full.
      destruct (JsMap.has m _) eqn:H.
      * destruct (IH m K D) as (K' & D' & I' & _ & S').
        cbv zeta. split; [exact K'|]. split; [exact D'|]. split; [exact I'|].
        split; [lia|]. intros _. apply S'. lia.
      * destruct (IH _ (set_selfKeyed m row K) (keys_set_nodup _ _ _ D))
          as (K' & D' & I' & _ & S').
        cbv zeta. split; [exact K'|]. split; [exact D'|]. split.
        { intros k I. apply I', keys_set_in. now right. }
        split; [lia|]. intros _. apply S'.
        pose proof (size_set m (DatasetLoader.stringOf (DatasetLoader.row_id row))
                             (DatasetLoader.toEntry row)). lia.
Qed.

Lemma selfKeyed_ids (m : JsMap.t DatasetLoader.CorpusEntry) :
  selfKeyed m -> map DatasetLoader.corpusEntryId (JsMap.values m) = JsMap.keys m.
Proof.
  intros K. unfold JsMap.values, JsMap.keys. rewrite map_map.
  apply map_ext_in. intros [k e] I. simpl. now apply K.
Qed.

Lemma buildCorpus_ground_truth (opts : DatasetLoader.Options) (relevant : JsSet.t)
      (corpusRaw : list DatasetLoader.CorpusRow) (row : DatasetLoader.CorpusRow) :
  In row corpusRaw ->
  In (DatasetLoader.stringOf (DatasetLoader.row_id row)) relevant ->
  In (DatasetLoader.stringOf (DatasetLoader.row_id row))
     (map DatasetLoader.corpusEntryId
          (DatasetLoader.buildCorpus opts relevant corpusRaw)).
Proof.
  intros I R. unfold DatasetLoader.buildCorpus.
  assert (Plain : In (DatasetLoader.stringOf (DatasetLoader.row_id row))
                     (map DatasetLoader.corpusEntryId
                          (map DatasetLoader.toEntry corpusRaw))).
  { rewrite map_map. apply in_map_iff. now exists row. }
  destruct (DatasetLoader.maxCorpus opts) as [[|cap]|]; try exact Plain.
  destruct (_ <? _)%nat; [|exact Plain].
  destruct (addRelevant_fold relevant corpusRaw JsMap.empty) as (K & D & Keys).
  { intros k e []. } { constructor. }
  destruct (fillDistractors_spec (S cap) corpusRaw _ K D) as (K' & D' & Mono & _).
  rewrite (selfKeyed_ids _ K'). apply Mono, Keys. right. split; [exact R|].
  now exists row.
Qed.

(** X26. Ground truth survives the corpus cap: whatever [maxCorpus] is,
    every corpus row that some judgment names with positive relevance is
    in the loaded corpus. *)
Theorem load_keeps_ground_truth (datasetId : string) (opts : DatasetLoader.Options)
        (corpusRaw : list DatasetLoader.CorpusRow)
        (qrelsRaw : list DatasetLoader.QrelRow)
        (queriesRaw : list DatasetLoader.CorpusRow) (row : DatasetLoader.CorpusRow) :
  In row corpusRaw ->
  judgedPositive qrelsRaw (DatasetLoader.stringOf (DatasetLoader.row_id row)) ->
  In (DatasetLoader.stringOf (DatasetLoader.row_id row))
     (map DatasetLoader.corpusEntryId
          (DatasetLoader.corpus
             (DatasetLoader.load datasetId opts corpusRaw qrelsRaw queriesRaw))).
Proof.
  intros I J. unfold DatasetLoader.load.
  pose proof (qrels_relevant qrelsRaw (JsMap.empty, JsSet.empty)
                (DatasetLoader.stringOf (DatasetLoader.row_id row))) as R.
  destruct (fold_left _ _ _) as [rels relevant]. cbn [snd] in R.
  cbn [DatasetLoader.corpus]. apply buildCorpus_ground_truth; [exact I|].
  apply R. now right.
Qed.

(** X27. When the cap applies ([maxCorpus] positive and below the number
    of corpus rows), the loaded corpus has no two entries with the same
    id, and it holds at most [maxCorpus] entries unless ground truth
    alone exceeds the cap, in which case every entry is one that some
    judgment names with positive relevance. *)
Theorem load_corpus_cap (datasetId : string) (opts : DatasetLoader.Options)
        (corpusRaw : list DatasetLoader.CorpusRow)
        (qrelsRaw : list DatasetLoader.QrelRow)
        (queriesRaw : list DatasetLoader.CorpusRow) (cap : nat) :
  DatasetLoader.maxCorpus opts = Some cap ->
  0 < cap < List.length corpusRaw ->
  let loaded :=
    DatasetLoader.corpus
      (DatasetLoader.load datasetId opts corpusRaw qrelsRaw queriesRaw) in
  NoDup (map DatasetLoader.corpusEntryId loaded)
  /\ (List.length loaded <= cap
      \/ Forall (fun e => judgedPositive qrelsRaw (DatasetLoader.corpusEntryId e))
                loaded).
Proof.
  intros M [Pos Lt]. unfold DatasetLoader.load.
  pose proof (qrels_relevant qrelsRaw (JsMap.empty, JsSet.empty)) as R.
  destruct (fold_left _ _ _) as [rels relevant]. cbn [snd] in R.
  cbn [DatasetLoader.corpus]. unfold DatasetLoader.buildCorpus. rewrite M.
  destruct cap as [|cap]; [lia|].
  apply Nat.ltb_lt in Lt. rewrite Lt. cbv zeta.
  destruct (addRelevant_fold relevant corpusRaw JsMap.empty) as (K & D & Keys).
  { intros k e []. } { constructor. }
  set (m1 := fold_left (DatasetLoader.addRelevant relevant) corpusRaw JsMap.empty) in *.
  destruct (fillDistractors_spec (S cap) corpusRaw m1 K D) as (K' & D' & _ & Full & Room).
  split.
  - now rewrite (selfKeyed_ids _ K').
  - destruct (le_lt_dec (S cap) (JsMap.size m1)) as [L|L].
    + right. rewrite (Full L). apply Forall_forall. intros e I.
      apply in_values in I. destruct I as (k & I).
      rewrite (K k e I). apply in_keys, Keys in I.
      destruct I as [[]|(Rk & _)]. apply R in Rk. destruct Rk as [[]|J]. exact J.
    + left. unfold JsMap.values. rewrite length_map.
      apply Room. lia.
Qed.

(** X28. When no judgment has relevance 0 or less, every query the
    loader keeps has a judged corpus id of positive relevance in the
    loaded corpus. *)
Theorem load_queries_have_positive (datasetId : string) (opts : DatasetLoader.Options)
        (corpusRaw : list DatasetLoader.CorpusRow)
        (qrelsRaw : list DatasetLoader.QrelRow)
        (queriesRaw : list DatasetLoader.CorpusRow) (q : DatasetLoader.BenchmarkQuery) :
  (forall row, In row qrelsRaw ->
               forall z, DatasetLoader.score row = Some z -> (0 < z)%Z) ->
  In q (DatasetLoader.queries
          (DatasetLoader.load datasetId opts corpusRaw qrelsRaw queriesRaw)) ->
  hasPositiveInCorpus
    (DatasetLoader.load datasetId opts corpusRaw qrelsRaw queriesRaw) q = true.
Proof. apply load_positive_scores. Qed.

Example load_keeps_ground_truth_witness :
  In (DatasetLoader.mkCorpusRow (Some "c3") (Some "sort an array") None) benchCorpus /\
  judgedPositive benchQrels
    (DatasetLoader.stringOf
       (DatasetLoader.row_id
          (DatasetLoader.mkCorpusRow (Some "c3") (Some "sort an array") None))) /\
  In (DatasetLoader.stringOf
        (DatasetLoader.row_id
           (DatasetLoader.mkCorpusRow (Some "c3") (Some "sort an array") None)))
     (map DatasetLoader.corpusEntryId
          (DatasetLoader.corpus
             (DatasetLoader.load "demo" (DatasetLoader.mkOptions (Some 2) None)
                                 benchCorpus benchQrels benchQueries))).
Proof.
  assert (H1 : In (DatasetLoader.mkCorpusRow (Some "c3") (Some "sort an array") None)
                  benchCorpus)
    by (vm_compute; right; right; left; reflexivity).
  assert (H2 : judgedPositive benchQrels
                 (DatasetLoader.stringOf
                    (DatasetLoader.row_id
                       (DatasetLoader.mkCorpusRow (Some "c3") (Some "sort an array") None)))).
  { exists (DatasetLoader.mkQrelRow (Some "q2") None (Some "c3") None (Some 1%Z)).
    split; [right; left; reflexivity|]. split; reflexivity. }
  split; [exact H1|]. split; [exact H2|].
  exact (load_keeps_ground_truth "demo" (DatasetLoader.mkOptions (Some 2) None)
                                 benchCorpus benchQrels benchQueries _ H1 H2).
Defined.

Example load_corpus_cap_witness :
  DatasetLoader.maxCorpus (DatasetLoader.mkOptions (Some 2) None) = Some 2 /\
  0 < 2 < List.length benchCorpus /\
  let loaded :=
    DatasetLoader.corpus
      (DatasetLoader.load "demo" (DatasetLoader.mkOptions (Some 2) None)
                          benchCorpus benchQrels benchQueries) in
  NoDup (map DatasetLoader.corpusEntryId loaded)
  /\ (List.length loaded <= 2
      \/ Forall (fun e => judgedPositive benchQrels (DatasetLoader.corpusEntryId e))
                loaded).
Proof.
  assert (H1 : DatasetLoader.maxCorpus (DatasetLoader.mkOptions (Some 2) None) = Some 2)
    by reflexivity.
  assert (H2 : 0 < 2 < List.length benchCorpus) by (vm_compute; lia).
  split; [exact H1|]. split; [exact H2|].
  exact (load_corpus_cap "demo" (DatasetLoader.mkOptions (Some 2) None)
                         benchCorpus benchQrels benchQueries 2 H1 H2).
Defined.

Example load_queries_have_positive_witness :
  (forall row, In row positiveQrels ->
               forall z, DatasetLoader.score row = Some z -> (0 < z)%Z) /\
  In (DatasetLoader.mkQuery "q1" "addition")
     (DatasetLoader.queries
        (DatasetLoader.load "demo" (DatasetLoader.mkOptions (Some 2) None)
                            benchCorpus positiveQrels benchQueries)) /\
  hasPositiveInCorpus
    (DatasetLoader.load "demo" (DatasetLoader.mkOptions (Some 2) None)
                        benchCorpus positiveQrels benchQueries)
    (DatasetLoader.mkQuery "q1" "addition") = true.
Proof.
  assert (H1 : forall row, In row positiveQrels ->
                           forall z, DatasetLoader.score row = Some z -> (0 < z)%Z).
  { intros row [<- | [<- | []]] z E; simpl in E; inversion E; lia. }
  assert (H2 : In (DatasetLoader.mkQuery "q1" "addition")
                  (DatasetLoader.queries
                     (DatasetLoader.load "demo" (DatasetLoader.mkOptions (Some 2) None)
                                         benchCorpus positiveQrels benchQueries)))
    by (vm_compute; left; reflexivity).
  split; [exact H1|]. split; [exact H2|].
  exact (load_queries_have_positive "demo" (DatasetLoader.mkOptions (Some 2) None)
                                    benchCorpus positiveQrels benchQueries _ H1 H2).
Defined.

(** ** Requests to the embeddings endpoint (embedder.ts) *)

Lemma substring_split (n : nat) (s : string) :
  exists rest, s = String.append (String.substring 0 n s) rest.
Proof.
  revert n. induction s as [|c s IH]; intros [|n]; simpl.
  - now exists "".
  - now exists "".
  - now exists (String c s).
  - destruct (IH n) as (rest & E). exists rest. now rewrite <- E.
Qed.

Lemma substring_length_le (n : nat) (s : string) :
  String.length (String.substring 0 n s) <= n.
Proof.
  revert n. induction s as [|c s IH]; intros [|n]; simpl; try lia.
  specialize (IH n). lia.
Qed.

Lemma truncate_length (text : string) :
  String.length (Embedder.truncateForOpenAI text) <= Embedder.MAX_CHARS.
Proof.
  unfold Embedder.truncateForOpenAI.
  destruct (String.length text <=? Embedder.MAX_CHARS)%nat eqn:E.
  - now apply Nat.leb_le.
  - apply substring_length_le.
Qed.

Lemma truncate_shorter (text : string) :
  String.length (Embedder.truncateForOpenAI text) <= String.length text.
Proof.
  unfold Embedder.truncateForOpenAI.
  destruct (String.length text <=? Embedder.MAX_CHARS)%nat eqn:E; [lia|].
  destruct (substring_split Embedder.MAX_CHARS text) as (rest & R).
  rewrite R at 2. rewrite append_length. lia.
Qed.

(** X29. [_truncateForOpenAI] returns a prefix of the text of at most
    24000 characters: the text itself when it is that short. Truncating
    twice is truncating once. *)
Theorem truncateForOpenAI_prefix (text : string) :
  String.length (Embedder.truncateForOpenAI text) <= Embedder.MAX_CHARS
  /\ (exists rest, text = String.append (Embedder.truncateForOpenAI text) rest)
  /\ (String.length text <= Embedder.MAX_CHARS ->
      Embedder.truncateForOpenAI text = text)
  /\ Embedder.truncateForOpenAI (Embedder.truncateForOpenAI text)
     = Embedder.truncateForOpenAI text.
Proof.
  split; [apply truncate_length|]. split; [|split].
  - unfold Embedder.truncateForOpenAI.
    destruct (String.length text <=? Embedder.MAX_CHARS)%nat.
    + exists "". clear. induction text as [|c t IH]; simpl; [reflexivity|now rewrite <- IH].
    + apply substring_split.
  - intros L. unfold Embedder.truncateForOpenAI.
    apply Nat.leb_le in L. now rewrite L.
  - pose proof (truncate_length text) as L. apply Nat.leb_le in L.
    unfold Embedder.truncateForOpenAI at 1. now rewrite L.
Qed.

Lemma estimateTokens_longer (a b : string) :
  String.length a <= String.length b ->
  Embedder.estimateTokens a <= Embedder.estimateTokens b.
Proof.
  intros L. unfold Embedder.estimateTokens. apply Nat.Div0.div_le_mono. lia.
Qed.

Lemma requestTokens_app (a b : list string) :
  requestTokens (a ++ b) = requestTokens a + requestTokens b.
Proof. unfold requestTokens. now rewrite map_app, list_sum_app. Qed.

Lemma requestTokens_truncated (b : list string) :
  requestTokens (map Embedder.truncateForOpenAI b) <= requestTokens b.
Proof.
  unfold requestTokens. induction b as [|t b IH]; simpl; [lia|].
  pose proof (estimateTokens_longer _ _ (truncate_shorter t)). lia.
Qed.

Lemma withinLimits_truncated (b : list string) :
  withinLimits b -> withinLimits (map Embedder.truncateForOpenAI b).
Proof.
  unfold withinLimits. rewrite length_map. intros [L [One|T]].
  - split; [exact L|now left].
  - split; [exact L|right]. pose proof (requestTokens_truncated b). lia.
Qed.

(** The inner loop extends a batch that is within the limits by a prefix
    of the texts that remain, and stays within the limits. *)
Lemma packBatch_spec (rest batch : list string) :
  withinLimits batch ->
  exists taken left,
    Embedder.packBatch rest batch (requestTokens batch) = batch ++ taken
    /\ rest = taken ++ left
    /\ withinLimits (batch ++ taken).
Proof.
  revert batch. induction rest as [|text later IH]; intros batch W.
  - exists [], []. rewrite app_nil_r. split; [reflexivity|]. split; [reflexivity|exact W].
  - cbn [Embedder.packBatch].
    destruct batch as [|b0 batch]; [destruct W as [[L _] _]; simpl in L; lia|].
    destruct ((Embedder.MAX_TOKENS_PER_REQUEST
               <? requestTokens (b0 :: batch) + Embedder.estimateTokens text)%nat
              || (Embedder.MAX_INPUTS_PER_REQUEST <=? List.length (b0 :: batch))%nat)
      eqn:Stop.
    + exists [], (text :: later). rewrite app_nil_r.
      split; [reflexivity|]. split; [reflexivity|exact W].
    + apply orb_false_iff in Stop. destruct Stop as [T N].
      apply Nat.ltb_ge in T. apply Nat.leb_gt in N.
      assert (W' : withinLimits ((b0 :: batch) ++ [text])).
      { unfold withinLimits. rewrite length_app, requestTokens_app.
        destruct W as [[L1 L2] _]. split; [simpl in *; lia|right].
        unfold requestTokens at 2. simpl. lia. }
      destruct (IH _ W') as (taken & left & E & R & W'').
      exists (text :: taken), left.
      replace (requestTokens (b0 :: batch) + Embedder.estimateTokens text)
        with (requestTokens ((b0 :: batch) ++ [text]))
        by (rewrite requestTokens_app; unfold requestTokens at 2; simpl; lia).
      rewrite E, <- !app_assoc. split; [reflexivity|]. split; [now rewrite R|].
      now rewrite <- app_assoc in W''.
Qed.

Lemma one_input_allowed : 1 <= Embedder.MAX_INPUTS_PER_REQUEST.
Proof. unfold Embedder.MAX_INPUTS_PER_REQUEST. lia. Qed.

Lemma packBatch_first (text : string) (later : list string) :
  exists taken left,
    Embedder.packBatch (text :: later) [] 0 = text :: taken
    /\ later = taken ++ left
    /\ withinLimits (text :: taken).
Proof.
  cbn [Embedder.packBatch app Nat.add].
  assert (W : withinLimits [text]).
  { unfold withinLimits. simpl. pose proof one_input_allowed. split; [lia|now left]. }
  destruct (packBatch_spec later [text] W) as (taken & left & E & R & W').
  exists taken, left. split; [|now split].
  replace (Embedder.estimateTokens text) with (requestTokens [text])
    by (unfold requestTokens; simpl; lia).
  exact E.
Qed.

Section Requests.

Variable endpoint : list string -> Eff.Exn + list Eff.Vector.

Lemma openaiBatchEmbed_go_spec (fuel : nat) :
  forall (texts : list string) (all : list Eff.Vector) (posted : list (list string)),
    List.length texts <= fuel ->
    exists sent rest,
      snd (Embedder.openaiBatchEmbed_go endpoint fuel texts all posted) = posted ++ sent
      /\ map Embedder.truncateForOpenAI texts = List.concat sent ++ rest
      /\ Forall withinLimits sent
      /\ (forall vs,
            fst (Embedder.openaiBatchEmbed_go endpoint fuel texts all posted) = inr vs ->
            rest = []).
Proof.
  induction fuel as [|fuel IH]; intros texts all posted Le.
  - destruct texts; [|simpl in Le; lia].
    exists [], []. simpl. rewrite app_nil_r. repeat split. constructor.
  - destruct texts as [|text later].
    { exists [], []. simpl. rewrite app_nil_r. repeat split. constructor. }
    cbn [Embedder.openaiBatchEmbed_go].
    destruct (packBatch_first text later) as (taken & left & E & R & W).
    rewrite E. unfold Embedder.openaiEmbed.
    assert (Skip : skipn (List.length (text :: taken)) (text :: later) = left).
    { rewrite R. change (text :: taken ++ left) with ((text :: taken) ++ left).
      rewrite skipn_app, skipn_all, Nat.sub_diag. reflexivity. }
    rewrite Skip.
    assert (Cut : map Embedder.truncateForOpenAI (text :: later)
                  = map Embedder.truncateForOpenAI (text :: taken)
                    ++ map Embedder.truncateForOpenAI left).
    { rewrite R. change (text :: taken ++ left) with ((text :: taken) ++ left).
      now rewrite map_app. }
    destruct (endpoint (map Embedder.truncateForOpenAI (text :: taken)))
      as [e|embeddings].
    + exists [map Embedder.truncateForOpenAI (text :: taken)],
             (map Embedder.truncateForOpenAI left).
      cbn [fst snd List.concat]. rewrite app_nil_r. repeat split; try assumption.
      * constructor; [now apply withinLimits_truncated|constructor].
      * intros vs H. discriminate H.
    + destruct (IH left (all ++ embeddings)
                   (posted ++ [map Embedder.truncateForOpenAI (text :: taken)]))
        as (sent & rest & S & C & F & Done).
      { rewrite R in Le. simpl in Le. rewrite length_app in Le. lia. }
      exists (map Embedder.truncateForOpenAI (text :: taken) :: sent), rest.
      repeat split.
      * rewrite S, <- app_assoc. reflexivity.
      * cbn [List.concat]. rewrite <- app_assoc, <- C. exact Cut.
      * constructor; [now apply withinLimits_truncated|exact F].
      * exact Done.
Qed.

(** X30. [_openaiBatchEmbed] posts the texts in order, each truncated,
    each in exactly one request: the requests laid end to end are the
    truncated texts, all of them if the call returns and a prefix of them
    if a request fails. Every request carries at least 1 and at most 2048
    inputs, and either a single input or inputs whose estimated tokens
    sum to at most 6000. *)
Theorem openaiBatchEmbed_requests (texts : list string) :
  exists rest,
    map Embedder.truncateForOpenAI texts
    = List.concat (snd (Embedder.openaiBatchEmbed endpoint texts)) ++ rest
    /\ Forall withinLimits (snd (Embedder.openaiBatchEmbed endpoint texts))
    /\ (forall vs, fst (Embedder.openaiBatchEmbed endpoint texts) = inr vs ->
                   rest = []).
Proof.
  unfold Embedder.openaiBatchEmbed.
  destruct (openaiBatchEmbed_go_spec (List.length texts) texts [] [] (le_n _))
    as (sent & rest & S & C & F & Done).
  cbn [app] in S. rewrite S. exists rest. now repeat split.
Qed.

End Requests.

(** Two short texts go out in one request. *)
Example openaiBatchEmbed_two_texts :
  Embedder.openaiBatchEmbed echoEndpoint ["ab"; "cde"]
  = (inr [[1%Q]; [1%Q]], [["ab"; "cde"]]).
Proof. vm_compute. reflexivity. Qed.

